(** * work-serch: the CV analyzer and the CV optimizer

    A shallow embedding of [src/cv_analyzer.py], [src/cv_optimizer.py] and
    the agent of [src/agent.py].

    Text.  A Python [str] is modelled as a list of characters whose code
    points are U+0000..U+00FF (Rocq's [ascii]); the character classes
    below are Python's on that range (Latin-1).  Glyphs above U+00FF
    (the bullets and the em dash of the catalogs) have no inhabitant here.

    Regular expressions.  The [re] patterns of the source are written as
    terms of a small syntax and run by a backtracking matcher that lists
    the ends of a match in the order in which Python's engine tries them.

    Floats.  A Python [float] is modelled by the rational it denotes; each
    arithmetic operation rounds its exact result to binary64. *)

From Stdlib Require Import String Ascii List Bool Arith ZArith QArith Lia.
From Stdlib Require Import Qround Qabs DecimalString.
Import ListNotations.

Close Scope Q_scope.

(* ================================================================= *)
(** ** Characters and text *)

Module Text.

Definition text := list ascii.

(** A string literal of the source. *)
Definition txt (s : string) : text := list_ascii_of_string s.
Arguments txt s%_string.

Definition code (c : ascii) : nat := nat_of_ascii c.

Definition between (lo hi : nat) (c : ascii) : bool :=
  (lo <=? code c) && (code c <=? hi).

Definition is_digit (c : ascii) : bool := between 48 57 c.
Definition is_ascii_upper (c : ascii) : bool := between 65 90 c.
Definition is_ascii_lower (c : ascii) : bool := between 97 122 c.
Definition is_ascii_alpha (c : ascii) : bool :=
  is_ascii_upper c || is_ascii_lower c.

(** [str.isupper] of one character: A-Z and U+00C0..U+00DE but U+00D7. *)
Definition is_upper (c : ascii) : bool :=
  is_ascii_upper c || (between 192 222 c && negb (code c =? 215)).

(** [str.lower] of one character. *)
Definition lower_char (c : ascii) : ascii :=
  if is_upper c then ascii_of_nat (code c + 32) else c.

(** [str.upper] of one character, on the ASCII range. *)
Definition upper_char (c : ascii) : ascii :=
  if is_ascii_lower c then ascii_of_nat (code c - 32) else c.

Definition lower (s : text) : text := map lower_char s.

(** [str.capitalize]: the first character upper-cased, the others
    lower-cased. *)
Definition capitalize (s : text) : text :=
  match s with
  | [] => []
  | c :: s' => upper_char c :: lower s'
  end.

(** The class [\w] of a [str] pattern: [str.isalnum] or the underscore. *)
Definition is_word (c : ascii) : bool :=
  is_digit c || is_ascii_alpha c || (code c =? 95)
  || (code c =? 170) || (code c =? 178) || (code c =? 179)
  || (code c =? 181) || (code c =? 185) || (code c =? 186)
  || between 188 190 c || between 192 214 c || between 216 246 c
  || between 248 255 c.

(** The class [\s], which is also the white space of [str.split] and
    [str.strip]. *)
Definition is_space (c : ascii) : bool :=
  between 9 13 c || between 28 32 c || (code c =? 133) || (code c =? 160).

Definition eqc (a b : ascii) : bool := Ascii.eqb a b.

Fixpoint text_eqb (a b : text) : bool :=
  match a, b with
  | [], [] => true
  | x :: a', y :: b' => eqc x y && text_eqb a' b'
  | _, _ => false
  end.

(** [s.startswith(w)] *)
Fixpoint starts_with (w s : text) : bool :=
  match w, s with
  | [], _ => true
  | x :: w', c :: s' => eqc x c && starts_with w' s'
  | _ :: _, [] => false
  end.

(** [w in s] *)
Fixpoint contains (w s : text) : bool :=
  starts_with w s ||
  match s with
  | [] => false
  | _ :: s' => contains w s'
  end.

(** [s.count(w)]: the occurrences of [w] from left to right, without
    overlap.  [skip] is the number of characters of the current occurrence
    still to pass.  Every [w] counted in the source is non-empty. *)
Fixpoint count_from (w : text) (skip : nat) (s : text) : nat :=
  match s with
  | [] => 0
  | _ :: s' =>
      match skip with
      | S k => count_from w k s'
      | O => if starts_with w s
             then S (count_from w (length w - 1) s')
             else count_from w 0 s'
      end
  end.

Definition count (w s : text) : nat := count_from w 0 s.

(** [s.count(c)] for a single character *)
Definition count_char (c : ascii) (s : text) : nat :=
  length (filter (eqc c) s).

(** [s.split(c)] for a single character separator *)
Fixpoint split_on (c : ascii) (s : text) : list text :=
  match s with
  | [] => [[]]
  | x :: s' =>
      if eqc x c then [] :: split_on c s'
      else match split_on c s' with
           | [] => [[x]]
           | l :: ls => (x :: l) :: ls
           end
  end.

(** [s.split()]: the maximal runs of characters that are not white space. *)
Fixpoint split_ws_from (cur : text) (s : text) : list text :=
  match s with
  | [] => match cur with [] => [] | _ => [rev cur] end
  | c :: s' =>
      if is_space c
      then match cur with
           | [] => split_ws_from [] s'
           | _ => rev cur :: split_ws_from [] s'
           end
      else split_ws_from (c :: cur) s'
  end.

Definition split_ws (s : text) : list text := split_ws_from [] s.

Fixpoint lstrip (s : text) : text :=
  match s with
  | c :: s' => if is_space c then lstrip s' else s
  | [] => []
  end.

(** [s.strip()] *)
Definition strip (s : text) : text := rev (lstrip (rev (lstrip s))).

(** [sep.join(l)] *)
Fixpoint join (sep : text) (l : list text) : text :=
  match l with
  | [] => []
  | [x] => x
  | x :: l' => x ++ sep ++ join sep l'
  end.

(** [c.upper()] of one character.  The sharp s gives two letters; the
    upper-case forms of U+00B5 and U+00FF lie above U+00FF, and for them
    there is no text of this model. *)
Definition str_upper (c : ascii) : option text :=
  if is_ascii_lower c then Some [ascii_of_nat (code c - 32)]
  else if code c =? 223 then Some (txt "SS")
  else if (code c =? 181) || (code c =? 255) then None
  else if between 224 254 c && negb (code c =? 247)
       then Some [ascii_of_nat (code c - 32)]
  else Some [c].

Definition text_eq_dec : forall a b : text, {a = b} + {a <> b} :=
  list_eq_dec ascii_dec.

End Text.

Import Text.

(* ================================================================= *)
(** ** Regular expressions *)

Module Re.

(** The part of the pattern syntax that the source uses.  [Chr f] is one
    character of the class [f] (a literal, a set, [\d], [\w], [\s]),
    [WordB] is [\b], [Star] is the greedy [*]. *)
Inductive regex : Type :=
| Eps
| Chr (f : ascii -> bool)
| WordB
| Seq (r1 r2 : regex)
| Star (r : regex).

Definition Plus (r : regex) : regex := Seq r (Star r).
(** [r{3,}] *)
Definition AtLeast3 (r : regex) : regex := Seq r (Seq r (Seq r (Star r))).

Definition word_opt (c : option ascii) : bool :=
  match c with Some x => is_word x | None => false end.

(** [\b] between the character [p] before a position, if any, and the text
    [s] from it on: exactly one of the two neighbours is a word character. *)
Definition at_boundary (p : option ascii) (s : text) : bool :=
  xorb (word_opt p) (word_opt (hd_error s)).

(** One way for a match to end: the number of characters it took, the
    last character before its end, and the text after it. *)
Record m_end : Type := mk_end {
  taken : nat;
  last_char : option ascii;
  rest : text
}.

Definition advance (n : nat) (q : m_end) : m_end :=
  mk_end (n + taken q) (last_char q) (rest q).

(** The greedy [*]: one more round of [body] if it takes a character,
    else stop.  A round that takes nothing is not repeated, so [length s]
    rounds are all there can be. *)
Fixpoint star_loop (body : option ascii -> text -> list m_end) (fuel : nat)
  (p : option ascii) (s : text) : list m_end :=
  match fuel with
  | O => [mk_end 0 p s]
  | S fuel' =>
      flat_map
        (fun q => if 0 <? taken q
                  then map (advance (taken q))
                           (star_loop body fuel' (last_char q) (rest q))
                  else [])
        (body p s)
      ++ [mk_end 0 p s]
  end.

(** The ways in which a match of [r] begun before [s], with [p] the
    character before, can end, in the order of preference of a
    backtracking engine: the first is the match Python reports. *)
Fixpoint ends (r : regex) (p : option ascii) (s : text) {struct r}
  : list m_end :=
  match r with
  | Eps => [mk_end 0 p s]
  | Chr f =>
      match s with
      | c :: s' => if f c then [mk_end 1 (Some c) s'] else []
      | [] => []
      end
  | WordB => if at_boundary p s then [mk_end 0 p s] else []
  | Seq r1 r2 =>
      flat_map
        (fun q => map (advance (taken q)) (ends r2 (last_char q) (rest q)))
        (ends r1 p s)
  | Star r1 => star_loop (ends r1) (length s) p s
  end.

(** The match at a position, as the number of characters it takes. *)
Definition match_at (r : regex) (p : option ascii) (s : text) : option nat :=
  match ends r p s with
  | q :: _ => Some (taken q)
  | [] => None
  end.

(** [pattern.search(s)] as a truth value *)
Fixpoint search_from (r : regex) (p : option ascii) (s : text) : bool :=
  match match_at r p s with
  | Some _ => true
  | None =>
      match s with
      | [] => false
      | c :: s' => search_from r (Some c) s'
      end
  end.

Definition search (r : regex) (s : text) : bool := search_from r None s.

(** [pattern.findall(s)] for a pattern without groups: the matches from
    left to right, without overlap.  [skip] counts the characters of the
    current match still to pass. *)
Fixpoint findall_from (r : regex) (skip : nat) (p : option ascii) (s : text)
  : list text :=
  match s with
  | [] =>
      match skip, match_at r p [] with
      | O, Some _ => [[]]
      | _, _ => []
      end
  | c :: s' =>
      match skip with
      | S k => findall_from r k (Some c) s'
      | O =>
          match match_at r p s with
          | Some n => firstn n s :: findall_from r (n - 1) (Some c) s'
          | None => findall_from r 0 (Some c) s'
          end
      end
  end.

Definition findall (r : regex) (s : text) : list text :=
  findall_from r 0 None s.

(** [pattern.sub(repl, s)] for a replacement without escapes: every match
    from left to right, without overlap, gives way to [repl]. *)
Fixpoint sub_from (r : regex) (repl : text) (skip : nat) (p : option ascii)
  (s : text) : text :=
  match s with
  | [] =>
      match skip, match_at r p [] with
      | O, Some _ => repl
      | _, _ => []
      end
  | c :: s' =>
      match skip with
      | S k => sub_from r repl k (Some c) s'
      | O =>
          match match_at r p s with
          | Some (S n) => repl ++ sub_from r repl n (Some c) s'
          | Some O => repl ++ c :: sub_from r repl 0 (Some c) s'
          | None => c :: sub_from r repl 0 (Some c) s'
          end
      end
  end.

Definition sub (r : regex) (repl : text) (s : text) : text :=
  sub_from r repl 0 None s.

(** Pattern builders. *)

Definition chr (c : ascii) : regex := Chr (eqc c).

(** a literal character under [re.IGNORECASE] *)
Definition chr_ci (c : ascii) : regex :=
  Chr (fun x => eqc (lower_char x) (lower_char c)).

Fixpoint lit (w : text) : regex :=
  match w with
  | [] => Eps
  | c :: w' => Seq (chr c) (lit w')
  end.

(** [re.escape(w)] compiled with [re.IGNORECASE] *)
Fixpoint lit_ci (w : text) : regex :=
  match w with
  | [] => Eps
  | c :: w' => Seq (chr_ci c) (lit_ci w')
  end.

Fixpoint seqs (l : list regex) : regex :=
  match l with
  | [] => Eps
  | r :: l' => Seq r (seqs l')
  end.

End Re.

Import Re.

(* ================================================================= *)
(** ** Floats *)

Module Float.

Local Open Scope Z_scope.

(** [floor (log2 (a / b))] for positive [a] and [b]. *)
Definition ilog2 (a b : Z) : Z :=
  let d := Z.log2 a - Z.log2 b in
  if 0 <=? d
  then (if b * 2 ^ d <=? a then d else d - 1)
  else (if b <=? a * 2 ^ (- d) then d else d - 1).

(** [n / d] rounded to the nearest integer, ties to even ([0 <= n], [0 < d]). *)
Definition rne_div (n d : Z) : Z :=
  let k := n / d in
  let r := n mod d in
  if 2 * r <? d then k
  else if d <? 2 * r then k + 1
  else if Z.even k then k else k + 1.

(** binary64: 53 bits of precision, least exponent -1074. *)
Definition emin : Z := -1074.

(** The exponent of the unit in the last place of [a / b]. *)
Definition ulp_exp (a b : Z) : Z := Z.max (ilog2 a b - 52) emin.

Definition RNpos (a b : Z) : Q :=
  let e := ulp_exp a b in
  if 0 <=? e
  then inject_Z (rne_div a (b * 2 ^ e) * 2 ^ e)
  else Qmake (rne_div (a * 2 ^ (- e)) b) (Z.to_pos (2 ^ (- e))).

(** Rounding to nearest, ties to even.  The greatest exponent is not
    modelled: a [str] holds fewer than [2^63] characters, which keeps every
    value of the analyzer far below [2^1024]. *)
Definition RN (q : Q) : Q :=
  match Qnum q with
  | Z0 => 0%Q
  | Zpos a => Qred (RNpos (Zpos a) (Zpos (Qden q)))
  | Zneg a => Qred (- RNpos (Zpos a) (Zpos (Qden q)))
  end.

(** [float(z)] *)
Definition of_int (z : Z) : Q := RN (inject_Z z).
(** a decimal literal [n/d] of the source, such as [0.4] *)
Definition literal (n : Z) (d : positive) : Q := RN (Qmake n d).
Definition fadd (x y : Q) : Q := RN (x + y)%Q.
Definition fsub (x y : Q) : Q := RN (x - y)%Q.
Definition fmul (x y : Q) : Q := RN (x * y)%Q.
(** [a / b] on two [int]s, which Python rounds once ([b <> 0]) *)
Definition int_truediv (a b : Z) : Q := RN (inject_Z a / inject_Z b)%Q.
(** [int(x)]: truncation towards zero *)
Definition int_of (x : Q) : Z := Z.quot (Qnum x) (Zpos (Qden x)).

(** [min(a, b)] and [max(a, b)] of Python return [a] unless [b] is
    strictly better. *)
Definition pymin (a b : Q) : Q := if Qlt_le_dec b a then b else a.
Definition pymax (a b : Q) : Q := if Qlt_le_dec a b then b else a.

End Float.

Import Float.

(* ================================================================= *)
(** ** [cv_analyzer.py] *)

Module CVAnalyzer.

Definition newline : ascii := "010"%char.
Definition tab : ascii := "009"%char.

(** [str(n)] *)
Definition str_of_nat (n : nat) : text :=
  txt (DecimalString.NilEmpty.string_of_uint (Nat.to_uint n)).

Record CVAnalysisResult : Type := mkResult {
  overall_score : Z;
  ats_compatibility_score : Z;
  strengths : list text;
  weaknesses : list text;
  recommendations : list text;
  keyword_analysis : list (text * nat);
  formatting_issues : list text
}.

Definition STANDARD_SECTIONS : list text :=
  [ txt "work experience"; txt "professional experience";
    txt "employment history"; txt "education"; txt "skills";
    txt "technical skills"; txt "certifications"; txt "summary";
    txt "professional summary"; txt "objective"; txt "profile";
    txt "achievements"; txt "accomplishments"; txt "projects";
    txt "publications" ].

Definition ACTION_VERBS : list text :=
  [ txt "achieved"; txt "implemented"; txt "developed"; txt "managed";
    txt "led"; txt "created"; txt "improved"; txt "increased";
    txt "decreased"; txt "optimized"; txt "delivered"; txt "designed";
    txt "built"; txt "established"; txt "launched"; txt "spearheaded";
    txt "orchestrated"; txt "transformed"; txt "streamlined";
    txt "negotiated"; txt "directed" ].

(** The bullets U+2022, U+2023, U+25E6, U+2043 and U+2219 lie above
    U+00FF: no character of this model is one of them. *)
Definition special_bullet (c : ascii) : bool := false.

Definition non_ascii (c : ascii) : bool := negb (code c <=? 127).

Definition ATS_PROBLEMATIC_PATTERNS : list (regex * text) :=
  [ (chr "|"%char, txt "pipe characters");
    (Chr special_bullet, txt "special bullet points");
    (Chr non_ascii, txt "non-ASCII characters") ].

Definition _analyze_sections (cv_lower : text) : Q :=
  let found_sections :=
    length (filter (fun section => contains section cv_lower)
                   STANDARD_SECTIONS) in
  pymin (inject_Z 100)
        (fmul (int_truediv (Z.of_nat found_sections) 5) (of_int 100)).

(** [\b[a-zA-Z]{3,}\b] *)
Definition word_re : regex :=
  seqs [WordB; AtLeast3 (Chr is_ascii_alpha); WordB].

(** [d[word] = d.get(word, 0) + 1] on a dict kept in insertion order *)
Fixpoint bump (word : text) (d : list (text * nat)) : list (text * nat) :=
  match d with
  | [] => [(word, 1)]
  | (k, n) :: d' =>
      if text_eqb k word then (k, S n) :: d' else (k, n) :: bump word d'
  end.

Definition word_freq_of (words : list text) : list (text * nat) :=
  fold_left (fun d word => bump word d) words [].

Definition _analyze_keywords (cv_text job_description : text)
  : Z * list (text * nat) :=
  match job_description with
  | [] => (50%Z, [])
  | _ :: _ =>
      let jd_words := findall word_re (lower job_description) in
      let jd_word_freq := word_freq_of jd_words in
      let cv_lower := lower cv_text in
      let keywords :=
        map (fun wf => (fst wf, count (fst wf) cv_lower))
            (filter (fun wf => (2 <? snd wf) && contains (fst wf) cv_lower)
                    jd_word_freq) in
      let important_keywords :=
        map fst (filter (fun wf => 2 <? snd wf) jd_word_freq) in
      let score :=
        match important_keywords with
        | _ :: _ =>
            let coverage :=
              int_truediv (Z.of_nat (length keywords))
                          (Z.of_nat (length important_keywords)) in
            int_of (fmul coverage (of_int 100))
        | [] => 50%Z
        end in
      (score, keywords)
  end.

Definition pattern_issue (description : text) : text :=
  txt "Contains " ++ description ++ txt " which may confuse ATS systems".

Definition table_issue : text :=
  txt "Possible table formatting detected - may not parse well in ATS".

Definition column_issue : text :=
  txt "Many short lines detected - possible column formatting issues".

Definition is_short_line (line : text) : bool :=
  let n := length (strip line) in (0 <? n) && (n <? 20).

Definition _check_formatting (cv_text : text) : list text :=
  let issues :=
    map (fun pd => pattern_issue (snd pd))
        (filter (fun pd => search (fst pd) cv_text)
                ATS_PROBLEMATIC_PATTERNS) in
  let issues :=
    if 10 <? count_char tab cv_text then issues ++ [table_issue]
    else issues in
  let lines := split_on newline cv_text in
  let short_lines := length (filter is_short_line lines) in
  if Qlt_le_dec (fmul (of_int (Z.of_nat (length lines))) (literal 3 10))
                (inject_Z (Z.of_nat short_lines))
  then issues ++ [column_issue]
  else issues.

Definition sum_nat (l : list nat) : nat := fold_right Nat.add 0 l.

Definition action_verb_count (cv_lower : text) : nat :=
  sum_nat (map (fun verb => count verb cv_lower) ACTION_VERBS).

Definition _analyze_action_verbs (cv_lower : text) : Z :=
  let words := split_ws cv_lower in
  if 0 <? length words
  then
    let density :=
      int_truediv (Z.of_nat (action_verb_count cv_lower))
                  (Z.of_nat (length words)) in
    Z.min 100 (int_of (fmul density (of_int 1000)))
  else 0%Z.

(** [\b\d+[%\w]*\b] *)
Definition number_re : regex :=
  seqs [WordB; Plus (Chr is_digit);
        Star (Chr (fun c => eqc c "%"%char || is_word c)); WordB].

Definition _analyze_quantification (cv_text : text) : Z :=
  let numbers := findall number_re cv_text in
  if 10 <? length numbers then 100%Z
  else if 5 <? length numbers then 75%Z
  else if 2 <? length numbers then 50%Z
  else 25%Z.

Definition _calculate_ats_score (section_score : Q)
  (formatting_issues : list text) (keyword_score : Z) : Z :=
  let score :=
    fadd (fmul section_score (literal 4 10))
         (fmul (of_int keyword_score) (literal 4 10)) in
  let deduction := Z.min 30 (Z.of_nat (length formatting_issues) * 10) in
  let score := pymax (inject_Z 0) (fsub score (of_int deduction)) in
  int_of score.

Definition _calculate_overall_score
  (ats_score action_verb_score quantification_score : Z) : Z :=
  int_of
    (fadd (fadd (fmul (of_int ats_score) (literal 5 10))
                (fmul (of_int action_verb_score) (literal 25 100)))
          (fmul (of_int quantification_score) (literal 25 100))).

(** [\b\d+%] *)
Definition percent_re : regex :=
  seqs [WordB; Plus (Chr is_digit); chr "%"%char].

Definition or_default (l : list text) (d : text) : list text :=
  match l with [] => [d] | _ :: _ => l end.

Definition when (b : bool) (s : text) : list text :=
  if b then [s] else [].

Definition _identify_strengths (cv_text cv_lower : text) : list text :=
  let word_count := length (split_ws cv_text) in
  or_default
    (when (3 <? length (findall percent_re cv_text))
          (txt "Good use of quantified achievements with percentages")
     ++ when (10 <? action_verb_count cv_lower)
          (txt "Strong use of action verbs to describe responsibilities")
     ++ when (forallb (fun section => contains section cv_lower)
                      [txt "experience"; txt "education"; txt "skills"])
          (txt "Contains all essential CV sections")
     ++ when ((300 <? word_count) && (word_count <? 800))
          (txt "Appropriate length - concise yet comprehensive"))
    (txt "CV structure is present").

Definition _identify_weaknesses (cv_text cv_lower : text)
  (formatting_issues : list text) : list text :=
  let weak_phrases :=
    [txt "responsible for"; txt "duties included"; txt "worked on"] in
  let weak_count :=
    sum_nat (map (fun phrase => count phrase cv_lower) weak_phrases) in
  let word_count := length (split_ws cv_text) in
  or_default
    (when (negb (contains (txt "experience") cv_lower)
           && negb (contains (txt "employment") cv_lower))
          (txt "Missing work experience section")
     ++ when (negb (contains (txt "education") cv_lower))
          (txt "Missing education section")
     ++ when (negb (contains (txt "skills") cv_lower))
          (txt "Missing skills section")
     ++ when (3 <? weak_count)
          (txt "Overuse of weak phrases - use stronger action verbs")
     ++ (if word_count <? 200
         then [txt "CV is too short - add more detail about achievements"]
         else if 1000 <? word_count
         then [txt "CV is too long - focus on most relevant information"]
         else [])
     ++ match formatting_issues with
        | [] => []
        | _ :: _ =>
            [txt "ATS formatting concerns: "
             ++ str_of_nat (length formatting_issues)
             ++ txt " issues detected"]
        end)
    (txt "Minor improvements could be made").

Definition _generate_recommendations (weaknesses formatting_issues : list text)
  (keyword_score action_verb_score : Z) : list text :=
  when (match formatting_issues with [] => false | _ :: _ => true end)
       (txt "CRITICAL: Fix ATS formatting issues - use simple formatting, standard fonts, and avoid tables/columns")
  ++ when (existsb (fun w => contains (txt "missing") (lower w)) weaknesses)
       (txt "Add all essential sections: Professional Summary, Work Experience, Education, Skills, and relevant certifications")
  ++ when (keyword_score <? 60)%Z
       (txt "Optimize keywords: Review the job description and naturally incorporate relevant terms and skills throughout your CV")
  ++ when (action_verb_score <? 50)%Z
       (txt "Strengthen impact: Replace weak phrases with strong action verbs (e.g., 'managed', 'developed', 'achieved', 'implemented')")
  ++ when (negb (existsb (fun s => contains (txt "quantified") (lower s))
                         weaknesses))
       (txt "Add quantifiable achievements: Include specific numbers, percentages, and metrics to demonstrate impact (e.g., 'Increased sales by 25%')")
  ++ [txt "Tailor your CV: Customize it for each application to match the specific job requirements and company culture"].

Definition analyze_cv (cv_text job_description : text) : CVAnalysisResult :=
  let cv_lower := lower cv_text in
  let section_score := _analyze_sections cv_lower in
  let '(keyword_score, keywords) := _analyze_keywords cv_text job_description in
  let formatting_issues := _check_formatting cv_text in
  let action_verb_score := _analyze_action_verbs cv_lower in
  let quantification_score := _analyze_quantification cv_text in
  let ats_score :=
    _calculate_ats_score section_score formatting_issues keyword_score in
  let overall_score :=
    _calculate_overall_score ats_score action_verb_score quantification_score in
  let strengths := _identify_strengths cv_text cv_lower in
  let weaknesses := _identify_weaknesses cv_text cv_lower formatting_issues in
  let recommendations :=
    _generate_recommendations weaknesses formatting_issues keyword_score
                              action_verb_score in
  mkResult overall_score ats_score strengths weaknesses recommendations
           keywords formatting_issues.

End CVAnalyzer.

(* ================================================================= *)
(** ** [cv_optimizer.py] *)

Module CVOptimizer.

Definition newline : ascii := "010"%char.

(** The weak phrases and their alternatives, in the order of declaration. *)
Definition PHRASE_IMPROVEMENTS : list (text * text) :=
  [ (txt "responsible for", txt "managed|led|oversaw|directed");
    (txt "worked on", txt "developed|implemented|created|built");
    (txt "helped with", txt "contributed to|supported|facilitated");
    (txt "duties included", txt "key achievements included|delivered");
    (txt "involved in", txt "participated in|collaborated on|executed");
    (txt "was part of", txt "contributed to|served on|member of");
    (txt "did", txt "performed|executed|completed|accomplished");
    (txt "made", txt "created|developed|produced|generated");
    (txt "got", txt "achieved|obtained|secured|acquired") ].

(** [strong_options.split('|')[0]] *)
Definition first_option (strong_options : text) : text :=
  hd [] (split_on "|"%char strong_options).

(** [weak[0].isupper()] *)
Definition first_isupper (weak : text) : bool :=
  match weak with
  | c :: _ => is_upper c
  | [] => false
  end.

(** One round of the loop of [_improve_weak_phrases]. *)
Definition improve_phrase (improved : text) (entry : text * text) : text :=
  let weak := fst entry in
  let strong_options := snd entry in
  let pattern := lit_ci weak in
  if search pattern improved
  then
    let strong := first_option strong_options in
    sub pattern (if first_isupper weak then capitalize strong else strong)
        improved
  else improved.

Definition _improve_weak_phrases (t : text) : text :=
  fold_left improve_phrase PHRASE_IMPROVEMENTS t.

(** [\bw1\s+w2\b] under [re.IGNORECASE] *)
Definition two_words (w1 w2 : text) : regex :=
  seqs [WordB; lit_ci w1; Plus (Chr is_space); lit_ci w2; WordB].

Definition section_mappings : list (regex * text) :=
  [ (two_words (txt "employment") (txt "history"), txt "WORK EXPERIENCE");
    (two_words (txt "job") (txt "history"), txt "WORK EXPERIENCE");
    (two_words (txt "professional") (txt "experience"), txt "WORK EXPERIENCE");
    (two_words (txt "educational") (txt "background"), txt "EDUCATION");
    (two_words (txt "academic") (txt "background"), txt "EDUCATION");
    (two_words (txt "core") (txt "competencies"), txt "SKILLS");
    (two_words (txt "technical") (txt "skills"), txt "TECHNICAL SKILLS");
    (two_words (txt "professional") (txt "summary"), txt "SUMMARY");
    (two_words (txt "career") (txt "summary"), txt "SUMMARY");
    (two_words (txt "about") (txt "me"), txt "SUMMARY") ].

Definition _standardize_sections (t : text) : text :=
  fold_left (fun standardized m => sub (fst m) (snd m) standardized)
            section_mappings t.

(** The bullets and the em dash of [_clean_formatting] lie above U+00FF:
    no character of this model is one of them. *)
Definition fancy_bullet (c : ascii) : bool := false.
Definition em_dash (c : ascii) : bool := false.

(** The two quote classes of the source hold the straight quotes only. *)
Definition double_quote : ascii := "034"%char.
Definition single_quote : ascii := "039"%char.

Definition cleanings : list (regex * text) :=
  [ (Chr fancy_bullet, txt "-");
    (Chr em_dash, txt "-");
    (chr double_quote, [double_quote]);
    (chr single_quote, [single_quote]);
    (Plus (chr " "%char), txt " ");
    (AtLeast3 (chr newline), [newline; newline]) ].

Definition _clean_formatting (t : text) : text :=
  fold_left (fun cleaned m => sub (fst m) (snd m) cleaned) cleanings t.

Definition optimize_cv_text (cv_text target_role industry : text) : text :=
  let optimized := cv_text in
  let optimized := _improve_weak_phrases optimized in
  let optimized := _standardize_sections optimized in
  let optimized := _clean_formatting optimized in
  optimized.

(** The keywords of each industry, in the order of declaration. *)
Definition INDUSTRY_KEYWORDS : list (text * list text) :=
  [ (txt "software",
     [ txt "agile"; txt "scrum"; txt "ci/cd"; txt "devops";
       txt "microservices"; txt "cloud"; txt "aws"; txt "azure";
       txt "docker"; txt "kubernetes"; txt "git"; txt "rest api";
       txt "database"; txt "testing"; txt "debugging" ]);
    (txt "marketing",
     [ txt "seo"; txt "sem"; txt "content marketing"; txt "social media";
       txt "analytics"; txt "campaign management"; txt "brand strategy";
       txt "roi"; txt "lead generation"; txt "market research" ]);
    (txt "finance",
     [ txt "financial analysis"; txt "forecasting"; txt "budgeting";
       txt "risk management"; txt "compliance"; txt "reporting";
       txt "excel"; txt "financial modeling"; txt "accounting";
       txt "audit" ]);
    (txt "healthcare",
     [ txt "patient care"; txt "hipaa"; txt "ehr"; txt "clinical";
       txt "healthcare administration"; txt "medical records";
       txt "regulatory compliance"; txt "quality assurance" ]);
    (txt "sales",
     [ txt "revenue growth"; txt "client acquisition";
       txt "pipeline management"; txt "crm"; txt "negotiation";
       txt "account management"; txt "quota"; txt "b2b"; txt "b2c";
       txt "cold calling"; txt "relationship building" ]) ].

(** The loop over the industries, which stops at the first whose name the
    lower-cased argument contains. *)
Fixpoint industry_keywords (industry_lower : text)
  (catalog : list (text * list text)) : list text :=
  match catalog with
  | [] => []
  | (ind, kw_list) :: catalog' =>
      if contains ind industry_lower then kw_list
      else industry_keywords industry_lower catalog'
  end.

Definition role_keywords (role : text) : list text :=
  match role with
  | [] => []
  | _ :: _ =>
      let role_lower := lower role in
      (if contains (txt "senior") role_lower
          || contains (txt "lead") role_lower
       then [txt "leadership"; txt "mentoring"; txt "team management"]
       else [])
      ++ (if contains (txt "manager") role_lower
          then [txt "project management"; txt "stakeholder management";
                txt "strategic planning"]
          else [])
      ++ (if contains (txt "engineer") role_lower
             || contains (txt "developer") role_lower
          then [txt "problem solving"; txt "technical design";
                txt "code review"]
          else [])
  end.

(** The list that the source turns into a set. *)
Definition collected_keywords (industry role : text) : list text :=
  industry_keywords (lower industry) INDUSTRY_KEYWORDS ++ role_keywords role.

(** [list(set(keywords))]: the elements of [keywords], each once.  Python
    fixes no order for them; the one taken here is that of the first
    sightings, and the theorems on this function speak of membership and
    of length only. *)
Definition suggest_keywords (industry role : text) : list text :=
  nodup text_eq_dec (collected_keywords industry role).

(** The first entry of the catalog whose weak phrase begins the text. *)
Definition leading_weak_phrase (enhanced : text) : option (text * text) :=
  find (fun entry => starts_with (fst entry) (lower enhanced))
       PHRASE_IMPROVEMENTS.

(** [None]: the first character is U+00B5 or U+00FF, and the result of the
    source begins with a character above U+00FF. *)
Definition enhance_achievements (achievement_text : text) : option text :=
  let enhanced := strip achievement_text in
  let enhanced :=
    match leading_weak_phrase enhanced with
    | Some (weak, strong_options) =>
        let strong := first_option strong_options in
        capitalize strong ++ skipn (length weak) enhanced
    | None => enhanced
    end in
  match enhanced with
  | c :: enhanced' =>
      if negb (is_upper c)
      then match str_upper c with
           | Some u => Some (u ++ enhanced')
           | None => None
           end
      else Some enhanced
  | [] => Some enhanced
  end.

(** [str(z)] *)
Definition str_of_Z (z : Z) : text :=
  txt (DecimalString.NilZero.string_of_int (Z.to_int z)).

(** [achievements] is [None] by default. *)
Definition generate_professional_summary (years_experience : Z)
  (role : text) (key_skills : list text) (achievements : option (list text))
  : text :=
  let exp_desc :=
    if (years_experience <? 2)%Z then txt "motivated"
    else if (years_experience <? 5)%Z then txt "experienced"
    else if (years_experience <? 10)%Z then txt "seasoned"
    else txt "highly accomplished" in
  let summary_parts :=
    [capitalize exp_desc ++ txt " " ++ role ++ txt " with "
     ++ str_of_Z years_experience ++ txt "+ years of experience"] in
  let summary_parts :=
    match key_skills with
    | [] => summary_parts
    | _ :: _ =>
        let skills_text := join (txt ", ") (firstn 4 key_skills) in
        summary_parts ++ [txt "specializing in " ++ skills_text]
    end in
  let summary_parts :=
    match achievements with
    | Some (a :: _) =>
        summary_parts ++ [txt "Proven track record of " ++ lower a]
    | Some [] | None => summary_parts
    end in
  join (txt " ") summary_parts ++ txt ".".

Definition format_achievement_with_metrics (action result metric : text)
  : text :=
  match metric with
  | _ :: _ =>
      action ++ txt ", resulting in " ++ result ++ txt " (" ++ metric
      ++ txt ")"
  | [] => action ++ txt ", resulting in " ++ result
  end.

Definition stop_words : list text :=
  [txt "the"; txt "and"; txt "for"; txt "with"; txt "that"; txt "this"].

Definition mem (w : text) (l : list text) : bool := existsb (text_eqb w) l.

(** the loop that fills [word_freq] *)
Definition count_word (word_freq : list (text * nat)) (word : text)
  : list (text * nat) :=
  let word_lower := lower word in
  if mem word_lower stop_words then word_freq
  else CVAnalyzer.bump word_lower word_freq.

Definition suggestion_prefix : text :=
  txt "Consider incorporating these keywords from the job description: ".

Definition missing_keywords (cv_text job_description : text) : list text :=
  let jd_words := findall CVAnalyzer.word_re job_description in
  let word_freq := fold_left count_word jd_words [] in
  let important_keywords :=
    map fst (filter (fun wf => 3 <=? snd wf) word_freq) in
  let cv_lower := lower cv_text in
  filter (fun kw => negb (contains kw cv_lower)) important_keywords.

Definition optimize_for_job_description (cv_text job_description : text)
  : text * list text :=
  let missing := missing_keywords cv_text job_description in
  let suggestions :=
    match missing with
    | [] => []
    | _ :: _ => [suggestion_prefix ++ join (txt ", ") (firstn 10 missing)]
    end in
  let optimized := optimize_cv_text cv_text [] [] in
  (optimized, suggestions).

End CVOptimizer.

(* ================================================================= *)
(** ** [agent.py] *)

Module CVAgent.

(** The dictionary that [analyze_and_optimize] returns. *)
Record Results : Type := mkResults {
  analysis : CVAnalyzer.CVAnalysisResult;
  optimized_cv : text;
  suggested_keywords : list text;
  job_specific_suggestions : list text;
  original_cv : text
}.

(** What a call can change: the history of the agent and the lines
    printed so far.  The lines are kept as the bytes of their UTF-8
    encoding. *)
Record state : Type := mkState {
  session_history : list Results;
  printed : list string
}.

(** [CVAgent()] *)
Definition init : state := mkState [] [].

Definition print (line : string) (st : state) : state :=
  mkState (session_history st) (printed st ++ [line]).

Definition analyze_and_optimize (cv_text job_description target_role
  industry : text) (st : state) : Results * state :=
  let st := print "🔍 Analyzing your CV..." st in
  let analysis := CVAnalyzer.analyze_cv cv_text job_description in
  let st := print "✨ Optimizing your CV..." st in
  let optimized_cv :=
    CVOptimizer.optimize_cv_text cv_text target_role industry in
  let suggested_keywords :=
    match industry with
    | _ :: _ => CVOptimizer.suggest_keywords industry target_role
    | [] => []
    end in
  let '(optimized_cv, jd_suggestions) :=
    match job_description with
    | _ :: _ =>
        CVOptimizer.optimize_for_job_description optimized_cv job_description
    | [] => (optimized_cv, [])
    end in
  let results :=
    mkResults analysis optimized_cv suggested_keywords jd_suggestions
              cv_text in
  (results, mkState (session_history st ++ [results]) (printed st)).

Definition general_tips : list string :=
  [ "Keep your CV to 1-2 pages for most roles";
    "Use a clean, professional font (Arial, Calibri, or Times New Roman)";
    "Maintain consistent formatting throughout";
    "Proofread carefully - typos are deal-breakers";
    "Update your CV for each application" ]%string.

(** The dictionary [tips] of [get_improvement_tips]. *)
Definition tips : list (text * list string) :=
  [ (txt "general", general_tips);
    (txt "ats",
     [ "Use standard section headers (Work Experience, Education, Skills)";
       "Avoid headers, footers, and text boxes";
       "Don't use tables or columns for layout";
       "Save as .docx or .pdf (check job posting requirements)";
       "Use standard bullet points, not special characters";
       "Spell out acronyms at least once" ]%string);
    (txt "keywords",
     [ "Mirror language from the job description";
       "Include both acronyms and full terms (e.g., 'AI' and 'Artificial Intelligence')";
       "Place keywords in context, not just in a list";
       "Include technical skills, soft skills, and certifications";
       "Use industry-standard terminology" ]%string);
    (txt "formatting",
     [ "Use consistent date formats (e.g., 'Jan 2020 - Dec 2022')";
       "Left-align all text for ATS readability";
       "Use simple bullet points (-, •, or *)";
       "Maintain adequate white space";
       "Avoid fancy fonts, colors, or graphics" ]%string);
    (txt "content",
     [ "Start bullets with strong action verbs";
       "Quantify achievements with numbers and percentages";
       "Focus on results, not just responsibilities";
       "Use the STAR method (Situation, Task, Action, Result)";
       "Tailor content to the target role";
       "Remove outdated or irrelevant experience" ]%string) ].

(** [d.get(key, default)] *)
Fixpoint get (d : list (text * list string)) (key : text)
  (default : list string) : list string :=
  match d with
  | [] => default
  | (k, v) :: d' => if text_eqb k key then v else get d' key default
  end.

Definition get_improvement_tips (category : text) : list string :=
  get tips (lower category) general_tips.

End CVAgent.

(* ================================================================= *)
(** ** Rounding keeps integer bounds *)

Section Rounding.

Local Open Scope Z_scope.

Lemma rne_div_nonneg (n d : Z) : 0 <= n -> 0 < d -> 0 <= rne_div n d.
Proof.
  intros Hn Hd. unfold rne_div.
  assert (0 <= n / d) by (apply Z.div_pos; lia).
  destruct (2 * (n mod d) <? d); [lia|].
  destruct (d <? 2 * (n mod d)); [lia|].
  destruct (Z.even (n / d)); lia.
Qed.

Lemma rne_div_le (n d M : Z) :
  0 <= n -> 0 < d -> n <= M * d -> rne_div n d <= M.
Proof.
  intros Hn Hd HM. unfold rne_div.
  pose proof (Z.div_mod n d ltac:(lia)) as E.
  pose proof (Z.mod_pos_bound n d Hd) as Hr.
  assert (Hk : n / d <= M).
  { apply Z.div_le_upper_bound; lia. }
  destruct (Z.eq_dec (n / d) M) as [Heq|Hne].
  - assert (n mod d = 0) by nia.
    replace (2 * (n mod d) <? d) with true; [lia|].
    symmetry; apply Z.ltb_lt; lia.
  - destruct (2 * (n mod d) <? d); [lia|].
    destruct (d <? 2 * (n mod d)); [lia|].
    destruct (Z.even (n / d)); lia.
Qed.

Lemma ilog2_le_52 (a b : Z) :
  0 < a -> 0 < b -> a < b * 2 ^ 53 -> ilog2 a b <= 52.
Proof.
  intros Ha Hb Hab. unfold ilog2.
  pose proof (Z.log2_spec a Ha) as [La Ua].
  pose proof (Z.log2_spec b Hb) as [Lb Ub].
  pose proof (Z.log2_nonneg a) as Na.
  pose proof (Z.log2_nonneg b) as Nb.
  set (d := Z.log2 a - Z.log2 b) in *.
  destruct (0 <=? d) eqn:Hd.
  - apply Z.leb_le in Hd.
    destruct (b * 2 ^ d <=? a) eqn:Ht.
    + apply Z.leb_le in Ht.
      destruct (Z_le_gt_dec d 52) as [|Hgt]; [assumption|exfalso].
      assert (2 ^ 53 <= 2 ^ d) by (apply Z.pow_le_mono_r; lia).
      nia.
    + destruct (Z_le_gt_dec (d - 1) 52) as [|Hgt]; [assumption|exfalso].
      assert (E : 2 ^ Z.log2 a = 2 ^ Z.succ (Z.log2 b) * 2 ^ (d - 1)).
      { rewrite <- Z.pow_add_r by lia. f_equal. unfold d. lia. }
      assert (2 ^ 53 <= 2 ^ (d - 1)) by (apply Z.pow_le_mono_r; lia).
      assert (0 < 2 ^ (d - 1)) by (apply Z.pow_pos_nonneg; lia).
      nia.
  - apply Z.leb_gt in Hd.
    destruct (b <=? a * 2 ^ (- d)); lia.
Qed.

Lemma ulp_exp_nonpos (a b : Z) :
  0 < a -> 0 < b -> a < b * 2 ^ 53 -> ulp_exp a b <= 0.
Proof.
  intros. unfold ulp_exp, emin.
  pose proof (ilog2_le_52 a b) as L. lia.
Qed.

Lemma RNpos_nonneg (a b : Z) : 0 < a -> 0 < b -> (0 <= RNpos a b)%Q.
Proof.
  intros Ha Hb. unfold RNpos.
  destruct (0 <=? ulp_exp a b) eqn:He.
  - apply Z.leb_le in He.
    assert (0 < 2 ^ ulp_exp a b) by (apply Z.pow_pos_nonneg; lia).
    assert (0 <= rne_div a (b * 2 ^ ulp_exp a b))
      by (apply rne_div_nonneg; nia).
    unfold Qle; simpl. nia.
  - assert (0 < 2 ^ (- ulp_exp a b))
      by (apply Z.pow_pos_nonneg; apply Z.leb_gt in He; lia).
    assert (0 <= rne_div (a * 2 ^ (- ulp_exp a b)) b)
      by (apply rne_div_nonneg; nia).
    unfold Qle; simpl. lia.
Qed.

Lemma RNpos_le_int (a b B : Z) :
  0 < a -> 0 < b -> a <= B * b -> B < 2 ^ 53 ->
  (RNpos a b <= inject_Z B)%Q.
Proof.
  intros Ha Hb HB H53.
  assert (He : ulp_exp a b <= 0) by (apply ulp_exp_nonpos; nia).
  unfold RNpos.
  destruct (0 <=? ulp_exp a b) eqn:Hs.
  - apply Z.leb_le in Hs.
    replace (ulp_exp a b) with 0 by lia.
    change (2 ^ 0) with 1. rewrite !Z.mul_1_r.
    rewrite <- Zle_Qle. apply rne_div_le; lia.
  - set (k := - ulp_exp a b).
    assert (Hk : 0 < 2 ^ k)
      by (apply Z.pow_pos_nonneg; apply Z.leb_gt in Hs; unfold k; lia).
    unfold Qle; simpl. rewrite Z2Pos.id by assumption.
    rewrite Z.mul_1_r. apply rne_div_le; nia.
Qed.

Lemma RN_nonneg (q : Q) : (0 <= q)%Q -> (0 <= RN q)%Q.
Proof.
  destruct q as [a b]. unfold Qle, RN; simpl. intros Hq.
  destruct a as [|a|a]; simpl.
  - lia.
  - change (0 <= Qred (RNpos (Z.pos a) (Z.pos b)))%Q.
    rewrite Qred_correct. apply RNpos_nonneg; lia.
  - lia.
Qed.

Lemma RN_le_int (q : Q) (B : Z) :
  (0 <= q)%Q -> (q <= inject_Z B)%Q -> B < 2 ^ 53 ->
  (RN q <= inject_Z B)%Q.
Proof.
  destruct q as [a b]. unfold Qle at 1 2, RN; simpl. intros H0 HB H53.
  destruct a as [|a|a]; simpl.
  - unfold Qle; simpl. nia.
  - rewrite Qred_correct. apply RNpos_le_int; lia.
  - lia.
Qed.

Lemma RN_nonpos (q : Q) : (q <= 0)%Q -> (RN q <= 0)%Q.
Proof.
  destruct q as [a b]. unfold Qle, RN; simpl. intros Hq.
  destruct a as [|a|a]; simpl.
  - lia.
  - lia.
  - change (Qred (- RNpos (Z.pos a) (Z.pos b)) <= 0)%Q.
    rewrite Qred_correct.
    pose proof (RNpos_nonneg (Z.pos a) (Z.pos b) ltac:(lia) ltac:(lia)) as H.
    revert H. generalize (RNpos (Z.pos a) (Z.pos b)). intros [n d].
    unfold Qle; simpl. lia.
Qed.

Lemma int_of_bounds (x : Q) (B : Z) :
  (0 <= x)%Q -> (x <= inject_Z B)%Q -> 0 <= int_of x <= B.
Proof.
  destruct x as [a b]. unfold Qle, int_of; simpl. intros H0 HB.
  rewrite Z.quot_div_nonneg by lia.
  split.
  - apply Z.div_pos; lia.
  - apply Z.div_le_upper_bound; lia.
Qed.

End Rounding.

(* ================================================================= *)
(** ** C1: the two scores lie between 0 and 100 *)

Module ScoreBounds.

Import CVAnalyzer.

Local Open Scope Z_scope.

Lemma filter_and_length {A : Type} (p q : A -> bool) (l : list A) :
  (length (filter (fun x => p x && q x) l) <= length (filter p l))%nat.
Proof.
  induction l as [|x l IH]; simpl; [lia|].
  destruct (p x), (q x); simpl; lia.
Qed.

Lemma filter_length_le {A : Type} (p : A -> bool) (l : list A) :
  (length (filter p l) <= length l)%nat.
Proof.
  induction l as [|x l IH]; simpl; [lia|].
  destruct (p x); simpl; lia.
Qed.

Lemma of_int_100 : of_int 100 = inject_Z 100.
Proof. vm_compute. reflexivity. Qed.

Lemma of_int_1000 : of_int 1000 = inject_Z 1000.
Proof. vm_compute. reflexivity. Qed.

(** A quotient of two lengths, the first the smaller, rounds into [0, 1]. *)
Lemma coverage_bounds (k n : nat) :
  (k <= n)%nat -> (0 < n)%nat ->
  (0 <= int_truediv (Z.of_nat k) (Z.of_nat n) <= inject_Z 1)%Q.
Proof.
  intros Hkn Hn. unfold int_truediv.
  assert (H0 : (0 <= inject_Z (Z.of_nat k) / inject_Z (Z.of_nat n))%Q).
  { unfold Qdiv. apply Qmult_le_0_compat.
    - change 0%Q with (inject_Z 0). rewrite <- Zle_Qle. lia.
    - apply Qinv_le_0_compat.
      change 0%Q with (inject_Z 0). rewrite <- Zle_Qle. lia. }
  assert (H1 : (inject_Z (Z.of_nat k) / inject_Z (Z.of_nat n)
                <= inject_Z 1)%Q).
  { apply Qle_shift_div_r.
    - change 0%Q with (inject_Z 0). rewrite <- Zlt_Qlt. lia.
    - rewrite Qmult_1_l. rewrite <- Zle_Qle. lia. }
  split.
  - apply RN_nonneg; assumption.
  - apply RN_le_int; [assumption|assumption|reflexivity].
Qed.

Lemma keyword_score_bounds (cv_text job_description : text) :
  0 <= fst (_analyze_keywords cv_text job_description) <= 100.
Proof.
  unfold _analyze_keywords.
  destruct job_description as [|c jd]; [cbn [fst]; lia|].
  set (freq := word_freq_of _).
  set (cvl := lower cv_text).
  cbv zeta. cbn [fst].
  destruct (map fst (filter (fun wf => (2 <? snd wf)%nat) freq))
    as [|w ws] eqn:Himp; [lia|].
  rewrite <- Himp.
  rewrite !length_map.
  set (k := length (filter _ freq)).
  set (n := length (filter _ freq)).
  assert (Hkn : (k <= n)%nat) by apply filter_and_length.
  assert (Hn : (0 < n)%nat).
  { unfold n. apply (f_equal (@length _)) in Himp.
    rewrite length_map in Himp. cbn [length] in Himp. lia. }
  destruct (coverage_bounds k n Hkn Hn) as [C0 C1].
  rewrite of_int_100.
  apply int_of_bounds.
  - apply RN_nonneg. apply Qmult_le_0_compat; [assumption|].
    change 0%Q with (inject_Z 0). rewrite <- Zle_Qle. lia.
  - apply RN_le_int; [| |reflexivity].
    + apply Qmult_le_0_compat; [assumption|].
      change 0%Q with (inject_Z 0). rewrite <- Zle_Qle. lia.
    + setoid_replace (inject_Z 100) with (inject_Z 1 * inject_Z 100)%Q
        by (rewrite Qmult_1_l; reflexivity).
      apply Qmult_le_compat_r; [assumption|].
      change 0%Q with (inject_Z 0). rewrite <- Zle_Qle. lia.
Qed.

Lemma action_verb_score_bounds (cv_lower : text) :
  0 <= _analyze_action_verbs cv_lower <= 100.
Proof.
  unfold _analyze_action_verbs.
  destruct (0 <? length (split_ws cv_lower))%nat eqn:Hw; [|lia].
  apply Nat.ltb_lt in Hw.
  set (c := action_verb_count cv_lower).
  set (n := length (split_ws cv_lower)) in *.
  assert (D0 : (0 <= int_truediv (Z.of_nat c) (Z.of_nat n))%Q).
  { unfold int_truediv. apply RN_nonneg.
    unfold Qdiv. apply Qmult_le_0_compat.
    - change 0%Q with (inject_Z 0). rewrite <- Zle_Qle. lia.
    - apply Qinv_le_0_compat.
      change 0%Q with (inject_Z 0). rewrite <- Zle_Qle. lia. }
  assert (P0 : (0 <= fmul (int_truediv (Z.of_nat c) (Z.of_nat n))
                          (of_int 1000))%Q).
  { unfold fmul. apply RN_nonneg. rewrite of_int_1000.
    apply Qmult_le_0_compat; [assumption|].
    change 0%Q with (inject_Z 0). rewrite <- Zle_Qle. lia. }
  assert (0 <= int_of (fmul (int_truediv (Z.of_nat c) (Z.of_nat n))
                            (of_int 1000))).
  { revert P0. generalize (fmul (int_truediv (Z.of_nat c) (Z.of_nat n))
                                (of_int 1000)).
    intros [a b]. unfold Qle, int_of; simpl. intros.
    rewrite Z.quot_div_nonneg by lia. apply Z.div_pos; lia. }
  lia.
Qed.

Lemma quantification_score_values (cv_text : text) :
  In (_analyze_quantification cv_text) [25; 50; 75; 100].
Proof.
  unfold _analyze_quantification.
  destruct (10 <? _)%nat; [simpl; tauto|].
  destruct (5 <? _)%nat; [simpl; tauto|].
  destruct (2 <? _)%nat; simpl; tauto.
Qed.

(** The section score of a text on which [found] catalog names occur. *)
Definition section_score_of (found : nat) : Q :=
  pymin (inject_Z 100) (fmul (int_truediv (Z.of_nat found) 5) (of_int 100)).

(** The ATS score as a function of three numbers. *)
Definition ats_of (found issues : nat) (keyword_score : Z) : Z :=
  _calculate_ats_score (section_score_of found) (repeat [] issues)
                       keyword_score.

Lemma of_int_bounds (z B : Z) :
  0 <= z <= B -> B < 2 ^ 53 -> (0 <= of_int z <= inject_Z B)%Q.
Proof.
  intros H HB. unfold of_int. split.
  - apply RN_nonneg. change 0%Q with (inject_Z 0). rewrite <- Zle_Qle. lia.
  - apply RN_le_int; [| |assumption].
    + change 0%Q with (inject_Z 0). rewrite <- Zle_Qle. lia.
    + rewrite <- Zle_Qle. lia.
Qed.

(** The product of a float of [0, B] and one of [0, n / d]. *)
Lemma fmul_bounds (x y : Q) (B n d C : Z) :
  (0 <= x <= inject_Z B)%Q -> (0 <= y)%Q -> (y <= n # Z.to_pos d)%Q ->
  0 < d -> 0 <= n -> B * n <= C * d -> C < 2 ^ 53 ->
  (0 <= fmul x y <= inject_Z C)%Q.
Proof.
  intros [Hx0 HxB] Hy0 Hy Hd Hn HC H53. unfold fmul.
  assert (P : (0 <= x * y)%Q) by (apply Qmult_le_0_compat; assumption).
  split; [apply RN_nonneg; exact P|].
  apply RN_le_int; [exact P| |assumption].
  apply Qle_trans with (inject_Z B * (n # Z.to_pos d))%Q.
  - apply Qle_trans with (x * (n # Z.to_pos d))%Q.
    + rewrite !(Qmult_comm x). apply Qmult_le_compat_r; assumption.
    + apply Qmult_le_compat_r; [assumption|].
      unfold Qle; simpl. lia.
  - unfold Qle, Qmult, inject_Z; simpl. rewrite Z2Pos.id by assumption.
    lia.
Qed.

Lemma fadd_bounds (x y : Q) (A B : Z) :
  (0 <= x <= inject_Z A)%Q -> (0 <= y <= inject_Z B)%Q -> A + B < 2 ^ 53 ->
  (0 <= fadd x y <= inject_Z (A + B))%Q.
Proof.
  intros [Hx0 HxA] [Hy0 HyB] H53. unfold fadd.
  assert (P : (0 <= x + y)%Q).
  { change 0%Q with (0 + 0)%Q. apply Qplus_le_compat; assumption. }
  split; [apply RN_nonneg; exact P|].
  apply RN_le_int; [exact P| |assumption].
  rewrite inject_Z_plus. apply Qplus_le_compat; assumption.
Qed.

Lemma literal_4_10 : (0 <= literal 4 10 <= 41 # 100)%Q.
Proof. split; vm_compute; discriminate. Qed.

Lemma section_score_bounds (found : nat) :
  (0 <= section_score_of found <= inject_Z 100)%Q.
Proof.
  unfold section_score_of, pymin.
  assert (H : (0 <= fmul (int_truediv (Z.of_nat found) 5) (of_int 100))%Q).
  { unfold fmul. apply RN_nonneg. apply Qmult_le_0_compat.
    - unfold int_truediv. apply RN_nonneg. unfold Qdiv.
      apply Qmult_le_0_compat; [|discriminate].
      change 0%Q with (inject_Z 0). rewrite <- Zle_Qle. lia.
    - rewrite of_int_100. discriminate. }
  destruct (Qlt_le_dec _ _) as [L|L].
  - split; [exact H|apply Qlt_le_weak; exact L].
  - split; [discriminate|apply Qle_refl].
Qed.

Lemma ats_of_bounds (found issues : nat) (keyword_score : Z) :
  (found <= 15)%nat -> (issues <= 5)%nat -> 0 <= keyword_score <= 100 ->
  0 <= ats_of found issues keyword_score <= 100.
Proof.
  intros _ _ Hk. unfold ats_of, _calculate_ats_score.
  destruct literal_4_10 as [L0 L1].
  assert (X : (0 <= fmul (section_score_of found) (literal 4 10)
               <= inject_Z 41)%Q).
  { apply (fmul_bounds _ _ 100 41 100 41);
      [apply section_score_bounds|exact L0|exact L1|lia|lia|lia
      |reflexivity]. }
  assert (Y : (0 <= fmul (of_int keyword_score) (literal 4 10)
               <= inject_Z 41)%Q).
  { apply (fmul_bounds _ _ 100 41 100 41);
      [apply of_int_bounds; [lia|reflexivity]|exact L0|exact L1|lia|lia|lia
      |reflexivity]. }
  pose proof (fadd_bounds _ _ 41 41 X Y ltac:(reflexivity)) as [S0 S1].
  set (score := fadd _ _) in *.
  set (deduction := Z.min 30 _).
  assert (D : (0 <= of_int deduction)%Q).
  { apply (of_int_bounds deduction 30); [unfold deduction; lia|reflexivity]. }
  assert (P : (0 <= pymax (inject_Z 0) (fsub score (of_int deduction))
               <= inject_Z (41 + 41))%Q).
  { unfold pymax. destruct (Qlt_le_dec _ _) as [G|G].
    - split; [apply Qlt_le_weak; exact G|].
      unfold fsub in *.
      destruct (Qlt_le_dec (score - of_int deduction) 0) as [N|N].
      + apply Qle_trans with 0%Q; [|discriminate].
        apply RN_nonpos. apply Qlt_le_weak. exact N.
      + apply RN_le_int; [exact N| |reflexivity].
        apply Qle_trans with score; [|exact S1].
        apply Qle_minus_iff.
        setoid_replace (score + - (score - of_int deduction))%Q
          with (of_int deduction) by ring.
        exact D.
    - split; [apply Qle_refl|discriminate]. }
  pose proof (int_of_bounds _ (41 + 41) (proj1 P) (proj2 P)). lia.
Qed.

Lemma overall_score_bounds (ats_score action_verb_score q : Z) :
  0 <= ats_score <= 100 -> 0 <= action_verb_score <= 100 ->
  In q [25; 50; 75; 100] ->
  0 <= _calculate_overall_score ats_score action_verb_score q <= 100.
Proof.
  intros Ha Hv Hq.
  assert (Hq' : 0 <= q <= 100) by (cbn [In] in Hq; lia).
  unfold _calculate_overall_score.
  change (literal 5 10) with (1 # 2)%Q.
  change (literal 25 100) with (1 # 4)%Q.
  assert (X : (0 <= fmul (of_int ats_score) (1 # 2) <= inject_Z 50)%Q).
  { apply (fmul_bounds _ _ 100 1 2 50);
      [apply of_int_bounds; [lia|reflexivity]|discriminate|apply Qle_refl
      |lia|lia|lia|reflexivity]. }
  assert (Y : (0 <= fmul (of_int action_verb_score) (1 # 4)
               <= inject_Z 25)%Q).
  { apply (fmul_bounds _ _ 100 1 4 25);
      [apply of_int_bounds; [lia|reflexivity]|discriminate|apply Qle_refl
      |lia|lia|lia|reflexivity]. }
  assert (W : (0 <= fmul (of_int q) (1 # 4) <= inject_Z 25)%Q).
  { apply (fmul_bounds _ _ 100 1 4 25);
      [apply of_int_bounds; [lia|reflexivity]|discriminate|apply Qle_refl
      |lia|lia|lia|reflexivity]. }
  pose proof (fadd_bounds _ _ 50 25 X Y ltac:(reflexivity)) as XY.
  pose proof (fadd_bounds _ _ (50 + 25) 25 XY W ltac:(reflexivity)) as S.
  apply int_of_bounds; apply S.
Qed.

Lemma formatting_issues_length (cv_text : text) :
  (length (_check_formatting cv_text) <= 5)%nat.
Proof.
  unfold _check_formatting.
  set (found := filter _ ATS_PROBLEMATIC_PATTERNS).
  assert (H : (length found <= 3)%nat)
    by (apply (filter_length_le _ ATS_PROBLEMATIC_PATTERNS)).
  destruct (10 <? count_char tab cv_text)%nat;
    destruct (Qlt_le_dec _ _);
    rewrite ?length_app, ?length_map; cbn [length]; lia.
Qed.

Lemma ats_score_as_ats_of (cv_text : text) (keyword_score : Z) :
  _calculate_ats_score (_analyze_sections (lower cv_text))
                       (_check_formatting cv_text) keyword_score
  = ats_of (length (filter (fun section => contains section (lower cv_text))
                           STANDARD_SECTIONS))
           (length (_check_formatting cv_text)) keyword_score.
Proof.
  unfold ats_of, _calculate_ats_score, section_score_of, _analyze_sections.
  rewrite repeat_length. reflexivity.
Qed.

(** C1.  For every document and every job description, [analyze_cv]
    returns a result whose [overall_score] and [ats_compatibility_score]
    both lie between 0 and 100, bounds included. *)
Theorem analyze_cv_scores_in_range (cv_text job_description : text) :
  let r := analyze_cv cv_text job_description in
  0 <= overall_score r <= 100 /\ 0 <= ats_compatibility_score r <= 100.
Proof.
  unfold analyze_cv.
  pose proof (keyword_score_bounds cv_text job_description) as Hk.
  destruct (_analyze_keywords cv_text job_description) as [ks kws].
  cbn [fst] in Hk. cbv zeta.
  cbn [overall_score ats_compatibility_score].
  rewrite ats_score_as_ats_of.
  assert (Hats : 0 <= ats_of
            (length (filter (fun section => contains section (lower cv_text))
                            STANDARD_SECTIONS))
            (length (_check_formatting cv_text)) ks <= 100).
  { apply ats_of_bounds.
    - apply (filter_length_le _ STANDARD_SECTIONS).
    - apply formatting_issues_length.
    - assumption. }
  split; [|assumption].
  apply overall_score_bounds.
  - assumption.
  - apply action_verb_score_bounds.
  - apply quantification_score_values.
Qed.

End ScoreBounds.

(* ================================================================= *)
(** ** C2: the quantification score is a step function *)

Module Quantification.

Import CVAnalyzer.

Local Open Scope Z_scope.

(** C2.  The quantification sub-score is the step function of the number
    [n] of matches of [\b\d+[%\w]*\b] in the document: more than 10 gives
    100, more than 5 gives 75, more than 2 gives 50, otherwise 25; in
    particular 11 gives 100, 6 gives 75, 3 gives 50, 2 gives 25 and 0
    gives 25. *)
Theorem quantification_step_function (cv_text : text) (n : nat) :
  length (findall number_re cv_text) = n ->
  ((10 < n)%nat -> _analyze_quantification cv_text = 100)
  /\ ((5 < n <= 10)%nat -> _analyze_quantification cv_text = 75)
  /\ ((2 < n <= 5)%nat -> _analyze_quantification cv_text = 50)
  /\ ((n <= 2)%nat -> _analyze_quantification cv_text = 25)
  /\ (n = 11%nat -> _analyze_quantification cv_text = 100)
  /\ (n = 6%nat -> _analyze_quantification cv_text = 75)
  /\ (n = 3%nat -> _analyze_quantification cv_text = 50)
  /\ (n = 2%nat -> _analyze_quantification cv_text = 25)
  /\ (n = 0%nat -> _analyze_quantification cv_text = 25).
Proof.
  intros Hn. unfold _analyze_quantification. rewrite Hn.
  destruct (10 <? n)%nat eqn:H10;
    destruct (5 <? n)%nat eqn:H5;
    destruct (2 <? n)%nat eqn:H2;
    rewrite ?Nat.ltb_lt, ?Nat.ltb_ge in *;
    repeat split; intros; try reflexivity; lia.
Qed.

Definition eleven_numbers : text :=
  txt "Cut costs 15% in 2019, 20% in 2020; led 4 teams of 12; 3 patents, 7 papers, 2 awards, 30 talks and 99 reviews".

Lemma quantification_step_function_witness :
  length (findall number_re eleven_numbers) = 11%nat
  /\ _analyze_quantification eleven_numbers = 100.
Proof.
  split; [vm_compute; reflexivity|].
  destruct (quantification_step_function eleven_numbers 11) as (_ & _ & _ & _ & H & _).
  - vm_compute; reflexivity.
  - apply H; reflexivity.
Defined.

(** The boundary values on documents. *)
Example six_numbers :
  length (findall number_re (txt "1 22 333 4x 5% 66%up")) = 6%nat
  /\ _analyze_quantification (txt "1 22 333 4x 5% 66%up") = 75.
Proof. vm_compute. split; reflexivity. Qed.

Example five_numbers :
  length (findall number_re (txt "1 22 333 4x 5% x6")) = 5%nat
  /\ _analyze_quantification (txt "1 22 333 4x 5% x6") = 50.
Proof. vm_compute. split; reflexivity. Qed.

Example three_numbers :
  _analyze_quantification (txt "in 2020 I sold 3 of 10") = 50.
Proof. vm_compute. reflexivity. Qed.

Example two_numbers :
  _analyze_quantification (txt "in 2020 I sold a3 of 10") = 25.
Proof. vm_compute. reflexivity. Qed.

Example no_number : _analyze_quantification [] = 25.
Proof. vm_compute. reflexivity. Qed.

End Quantification.

(* ================================================================= *)
(** ** C6: no job description *)

Module NoJobDescription.

Import CVAnalyzer.

(** C6.  For every document, with the empty string as job description the
    keyword score is exactly 50 and the keyword mapping of the result is
    empty; the call returns (the functions are total). *)
Theorem empty_job_description_is_neutral (cv_text : text) :
  _analyze_keywords cv_text [] = (50%Z, [])
  /\ keyword_analysis (analyze_cv cv_text []) = [].
Proof. split; reflexivity. Qed.

End NoJobDescription.

(* ================================================================= *)
(** ** C10: the rewrite ignores role and industry *)

Module RoleIndependence.

Import CVOptimizer.

(** C10.  The text returned by [optimize_cv_text] does not depend on
    [target_role] and [industry]: any two pairs of them give the same
    output for the same document. *)
Theorem optimize_cv_text_ignores_role_and_industry
  (cv_text role1 industry1 role2 industry2 : text) :
  optimize_cv_text cv_text role1 industry1
  = optimize_cv_text cv_text role2 industry2.
Proof. reflexivity. Qed.

End RoleIndependence.

(* ================================================================= *)
(** ** C3: the capital of a replaced phrase *)

Module Capitalization.

Import CVOptimizer.

(** The test [weak[0].isupper()] looks at the key of the catalog, and no
    key begins with a capital. *)
Lemma no_key_isupper :
  forallb (fun entry => negb (first_isupper (fst entry)))
          PHRASE_IMPROVEMENTS = true.
Proof. vm_compute. reflexivity. Qed.

(** C3 (fails on the code).  An occurrence that begins with a capital is
    replaced by the alternative without a capital. *)
Theorem capitalized_occurrence_gets_lower_case :
  _improve_weak_phrases (txt "Responsible for budgets")
  = txt "managed budgets".
Proof. vm_compute. reflexivity. Qed.

End Capitalization.

(* ================================================================= *)
(** ** Replacement of substrings, letter case apart *)

Module Plain.

(** [s] begins with [w], letter case apart. *)
Fixpoint prefix_ci (w s : text) : bool :=
  match w, s with
  | [], _ => true
  | x :: w', c :: s' => eqc (lower_char c) (lower_char x) && prefix_ci w' s'
  | _ :: _, [] => false
  end.

(** [w] occurs in [s], letter case apart. *)
Fixpoint occurs_ci (w s : text) : bool :=
  prefix_ci w s ||
  match s with
  | [] => false
  | _ :: s' => occurs_ci w s'
  end.

(** Every occurrence of [w] in [s], letter case apart, taken from left to
    right without overlap, gives way to [r]; [skip] counts the characters
    of the current occurrence still to pass. *)
Fixpoint replace_from (w r : text) (skip : nat) (s : text) : text :=
  match s with
  | [] => []
  | c :: s' =>
      match skip with
      | S k => replace_from w r k s'
      | O => if prefix_ci w s
             then r ++ replace_from w r (length w - 1) s'
             else c :: replace_from w r 0 s'
      end
  end.

Definition replace_all_ci (w r s : text) : text := replace_from w r 0 s.

End Plain.
Import Plain.

Section Literal.

(** The character before the end of a match of the literal [w]. *)
Fixpoint char_after (p : option ascii) (w s : text) : option ascii :=
  match w, s with
  | _ :: w', c :: s' => char_after (Some c) w' s'
  | _, _ => p
  end.

Lemma ends_lit_ci (w : text) : forall p s,
  ends (lit_ci w) p s
  = if prefix_ci w s
    then [mk_end (length w) (char_after p w s) (skipn (length w) s)]
    else [].
Proof.
  induction w as [|x w IH]; intros p s.
  - reflexivity.
  - cbn [lit_ci ends chr_ci].
    destruct s as [|c s]; [reflexivity|].
    cbn [prefix_ci flat_map].
    destruct (eqc (lower_char c) (lower_char x)); [|reflexivity].
    cbn [flat_map taken last_char rest andb]. rewrite IH.
    destruct (prefix_ci w s); reflexivity.
Qed.

Lemma match_at_lit_ci (w : text) (p : option ascii) (s : text) :
  match_at (lit_ci w) p s = if prefix_ci w s then Some (length w) else None.
Proof.
  unfold match_at. rewrite ends_lit_ci.
  destruct (prefix_ci w s); reflexivity.
Qed.

Lemma sub_from_lit_ci (w r : text) :
  w <> [] ->
  forall s k p, sub_from (lit_ci w) r k p s = replace_from w r k s.
Proof.
  intros Hw. induction s as [|c s IH]; intros k p.
  - cbn [sub_from replace_from]. rewrite match_at_lit_ci.
    destruct w; [contradiction|]. destruct k; reflexivity.
  - cbn [sub_from replace_from]. destruct k as [|k]; [|apply IH].
    rewrite match_at_lit_ci.
    destruct (prefix_ci w (c :: s)).
    + destruct w as [|x w]; [contradiction|].
      cbn [length]. rewrite IH. rewrite Nat.sub_succ, Nat.sub_0_r.
      reflexivity.
    + rewrite IH. reflexivity.
Qed.

Lemma search_from_lit_ci (w : text) : forall s p,
  search_from (lit_ci w) p s = occurs_ci w s.
Proof.
  induction s as [|c s IH]; intros p; cbn [search_from occurs_ci];
    rewrite match_at_lit_ci; destruct (prefix_ci w _); try reflexivity.
  cbn [orb]. apply IH.
Qed.

Lemma replace_from_absent (w r : text) : forall s,
  occurs_ci w s = false -> replace_from w r 0 s = s.
Proof.
  induction s as [|c s IH]; intros H; [reflexivity|].
  cbn [occurs_ci] in H. apply orb_false_iff in H. destruct H as [H1 H2].
  cbn [replace_from]. rewrite H1. rewrite IH by assumption. reflexivity.
Qed.

End Literal.

(* ================================================================= *)
(** ** The weak phrases *)

Module WeakPhrases.

Import CVOptimizer.

(** [w] occurs in [t] between two word boundaries, letter case apart. *)
Definition occurs_as_whole_phrase (w t : text) : bool :=
  search (seqs [WordB; lit_ci w; WordB]) t.

(** The substitution stage on the plain replacement of substrings. *)
Definition replace_weak_phrases (t : text) : text :=
  fold_left
    (fun improved entry =>
       replace_all_ci (fst entry) (first_option (snd entry)) improved)
    PHRASE_IMPROVEMENTS t.

Lemma catalog_keys (entry : text * text) :
  In entry PHRASE_IMPROVEMENTS ->
  fst entry <> [] /\ first_isupper (fst entry) = false
  /\ lower (fst entry) = fst entry.
Proof.
  unfold PHRASE_IMPROVEMENTS. cbn [In]. intros H.
  repeat (destruct H as [H|H];
          [subst entry; repeat split; try discriminate; reflexivity|]).
  contradiction.
Qed.

Lemma improve_phrase_plain (entry : text * text) (t : text) :
  In entry PHRASE_IMPROVEMENTS ->
  improve_phrase t entry
  = replace_all_ci (fst entry) (first_option (snd entry)) t.
Proof.
  intros Hin. destruct (catalog_keys entry Hin) as (Hne & Hup & _).
  unfold improve_phrase, search, sub, replace_all_ci.
  rewrite search_from_lit_ci, Hup, sub_from_lit_ci by assumption.
  destruct (occurs_ci (fst entry) t) eqn:Hocc; [reflexivity|].
  symmetry. apply replace_from_absent. assumption.
Qed.

Lemma fold_left_ext_in {A B : Type} (f g : A -> B -> A) (l : list B) :
  (forall x, In x l -> forall a, f a x = g a x) ->
  forall a, fold_left f l a = fold_left g l a.
Proof.
  induction l as [|x l IH]; intros H a; [reflexivity|].
  cbn [fold_left]. rewrite H by (left; reflexivity).
  apply IH. intros y Hy. apply H. right. assumption.
Qed.

Lemma improve_as_replace (t : text) :
  _improve_weak_phrases t = replace_weak_phrases t.
Proof.
  unfold _improve_weak_phrases, replace_weak_phrases.
  apply fold_left_ext_in. intros entry Hin a.
  apply improve_phrase_plain. assumption.
Qed.

Lemma improve_fixed_when_absent (t : text) :
  (forall entry, In entry PHRASE_IMPROVEMENTS ->
                 occurs_ci (fst entry) t = false) ->
  _improve_weak_phrases t = t.
Proof.
  rewrite improve_as_replace. unfold replace_weak_phrases.
  induction PHRASE_IMPROVEMENTS as [|entry l IH]; intros H; [reflexivity|].
  cbn [fold_left]. unfold replace_all_ci at 2.
  rewrite replace_from_absent by (apply H; left; reflexivity).
  apply IH. intros e He. apply H. right. assumption.
Qed.

(** Letter case apart, [m] is [w]. *)
Lemma prefix_ci_of_lower (w : text) : forall m b,
  lower m = lower w -> prefix_ci w (m ++ b) = true.
Proof.
  induction w as [|x w IH]; intros m b H; [reflexivity|].
  destruct m as [|c m]; [discriminate|].
  cbn [lower map] in H. injection H as Hc Hm.
  cbn [app prefix_ci]. rewrite Hc. unfold eqc. rewrite Ascii.eqb_refl.
  apply IH. exact Hm.
Qed.

Lemma prefix_ci_app_long (w : text) : forall u v,
  length w <= length u -> prefix_ci w (u ++ v) = prefix_ci w u.
Proof.
  induction w as [|x w IH]; intros u v H; [reflexivity|].
  destruct u as [|c u]; [cbn [length] in H; lia|].
  cbn [app prefix_ci]. rewrite IH by (cbn [length] in H; lia).
  reflexivity.
Qed.









(** In "a candidate" no catalog phrase stands between word boundaries,
    and yet the stage changes the text. *)
Example fragment_inside_word_is_replaced :
  forallb (fun entry =>
             negb (occurs_as_whole_phrase (fst entry) (txt "a candidate")))
          PHRASE_IMPROVEMENTS = true
  /\ _improve_weak_phrases (txt "a candidate") = txt "a canperformedate".
Proof. vm_compute. split; reflexivity. Qed.

(** No first alternative holds a catalog phrase, and yet a second run of
    the stage can change the output of the first. *)
Example second_run_on_didid :
  forallb (fun entry =>
             forallb (fun other =>
                        negb (occurs_ci (fst other)
                                        (first_option (snd entry))))
                     PHRASE_IMPROVEMENTS)
          PHRASE_IMPROVEMENTS = true
  /\ _improve_weak_phrases (txt "didid") = txt "performedid"
  /\ _improve_weak_phrases (_improve_weak_phrases (txt "didid"))
     = txt "performeperformed".
Proof. vm_compute. repeat split. Qed.

End WeakPhrases.

(* ================================================================= *)
(** ** The formatting issues *)

Module Formatting.

Import CVAnalyzer.

(** The lines of [cv_text.split('\n')], empty ones included. *)
Definition line_count (cv_text : text) : nat :=
  length (split_on newline cv_text).

(** The lines that count as short: stripped of white space they keep
    between 1 and 19 characters. *)
Definition short_line_count (cv_text : text) : nat :=
  length (filter is_short_line (split_on newline cv_text)).

(** The test of the source: [short_lines > len(lines) * 0.3]. *)
Definition column_test (cv_text : text) : Prop :=
  (fmul (of_int (Z.of_nat (line_count cv_text))) (literal 3 10)
   < inject_Z (Z.of_nat (short_line_count cv_text)))%Q.

(** The issues that the catalog patterns give. *)
Definition pattern_issues (cv_text : text) : list text :=
  map (fun pd => pattern_issue (snd pd))
      (filter (fun pd => search (fst pd) cv_text) ATS_PROBLEMATIC_PATTERNS).

Lemma pattern_issues_are_others (cv_text issue : text) :
  In issue (pattern_issues cv_text) ->
  issue <> table_issue /\ issue <> column_issue.
Proof.
  unfold pattern_issues. intros H. apply in_map_iff in H.
  destruct H as (pd & <- & Hin). apply filter_In in Hin.
  destruct Hin as [Hin _]. unfold ATS_PROBLEMATIC_PATTERNS in Hin.
  cbn [In] in Hin.
  repeat (destruct Hin as [Hin|Hin];
          [subst pd; split; vm_compute; discriminate|]).
  contradiction.
Qed.

Lemma count_occ_absent (l : list text) (x : text) :
  ~ In x l -> count_occ text_eq_dec l x = 0.
Proof. intros H. apply count_occ_not_In. assumption. Qed.

Lemma check_formatting_shape (cv_text : text) :
  _check_formatting cv_text
  = pattern_issues cv_text
    ++ (if 10 <? count_char tab cv_text then [table_issue] else [])
    ++ (if Qlt_le_dec
             (fmul (of_int (Z.of_nat (line_count cv_text))) (literal 3 10))
             (inject_Z (Z.of_nat (short_line_count cv_text)))
        then [column_issue] else []).
Proof.
  unfold _check_formatting, line_count, short_line_count.
  fold (pattern_issues cv_text).
  destruct (10 <? count_char tab cv_text); destruct (Qlt_le_dec _ _);
    rewrite <- ?app_assoc, ?app_nil_r; reflexivity.
Qed.

Lemma table_is_not_column : table_issue <> column_issue.
Proof. vm_compute. discriminate. Qed.

(** X4.  [_check_formatting] appends the column-layout issue exactly
    when the number of lines that keep between 1 and 19 characters once
    stripped of white space exceeds 0.3 times the number of all the lines
    of the document, empty lines included; it appends the possible-table
    issue exactly when the document holds more than 10 tab characters;
    each of the two issues is appended at most once. *)
Theorem formatting_heuristics (cv_text : text) :
  (In column_issue (_check_formatting cv_text) <-> column_test cv_text)
  /\ (In table_issue (_check_formatting cv_text)
      <-> 10 < count_char tab cv_text)
  /\ count_occ text_eq_dec (_check_formatting cv_text) column_issue <= 1
  /\ count_occ text_eq_dec (_check_formatting cv_text) table_issue <= 1.
Proof.
  rewrite check_formatting_shape. unfold column_test.
  pose proof (pattern_issues_are_others cv_text) as Hp.
  assert (Hc : ~ In column_issue (pattern_issues cv_text))
    by (intros H; apply Hp in H; destruct H; congruence).
  assert (Ht : ~ In table_issue (pattern_issues cv_text))
    by (intros H; apply Hp in H; destruct H; congruence).
  pose proof table_is_not_column as Htc.
  destruct (10 <? count_char tab cv_text) eqn:Htab;
    destruct (Qlt_le_dec _ _) as [Hlt|Hge];
    rewrite ?Nat.ltb_lt, ?Nat.ltb_ge in Htab;
    rewrite !count_occ_app, !(count_occ_absent _ _ Hc),
            !(count_occ_absent _ _ Ht);
    cbn [count_occ];
    repeat match goal with
           | |- context [text_eq_dec ?a ?b] =>
               destruct (text_eq_dec a b); try congruence
           end;
    rewrite !in_app_iff; cbn [In];
    (repeat split; try lia; try tauto; intros;
     repeat match goal with
            | H : _ \/ _ |- _ => destruct H
            | H : False |- _ => destruct H
            end;
     try congruence; try contradiction; try lia; auto).
  all: try (exfalso; eapply Qlt_not_le; eassumption).
Qed.

(** The lines without a character count in the total: one short line
    and three empty ones are 4 lines, and 1 is not more than 0.3 * 4. *)
Example empty_lines_count :
  line_count (["a"; "b"; "c"; newline; newline; newline])%char = 4
  /\ short_line_count (["a"; "b"; "c"; newline; newline; newline])%char = 1
  /\ _check_formatting (["a"; "b"; "c"; newline; newline; newline])%char
     = [].
Proof. vm_compute. repeat split. Qed.

End Formatting.

(* ================================================================= *)
(** ** The keywords that the document lacks *)

Module Keywords.

Import CVOptimizer.

(** The words of a list in the order in which they are first seen. *)
Fixpoint first_seen (l : list text) : list text :=
  match l with
  | [] => []
  | x :: l' => x :: filter (fun y => negb (text_eqb x y)) (first_seen l')
  end.

(** The frequency of a word in a list. *)
Definition occurrences (w : text) (l : list text) : nat :=
  length (filter (text_eqb w) l).

(** The words of the job description that count: matches of
    [\b[A-Za-z]{3,}\b], lower-cased, outside the stop words. *)
Definition counted_words (job_description : text) : list text :=
  filter (fun w => negb (mem w stop_words))
         (map lower (findall CVAnalyzer.word_re job_description)).

(** The counted words with frequency at least 3, as first seen. *)
Definition important_words (job_description : text) : list text :=
  filter (fun w => 3 <=? occurrences w (counted_words job_description))
         (first_seen (counted_words job_description)).

(** Those of them that the lower-cased document does not contain. *)
Definition missing_words (cv_text job_description : text) : list text :=
  filter (fun w => negb (contains w (lower cv_text)))
         (important_words job_description).

(** The least number of characters that a match of [r] takes. *)
Fixpoint min_len (r : regex) : nat :=
  match r with
  | Chr _ => 1
  | Seq r1 r2 => min_len r1 + min_len r2
  | _ => 0
  end.

End Keywords.
Import Keywords.

Section TextEq.

Lemma text_eqb_eq (a b : text) : text_eqb a b = true <-> a = b.
Proof.
  revert b. induction a as [|x a IH]; intros [|y b]; cbn [text_eqb];
    try (split; [discriminate|discriminate]); [tauto|].
  unfold eqc. rewrite andb_true_iff, Ascii.eqb_eq, IH.
  split; [intros [-> ->]; reflexivity|intros H; injection H; auto].
Qed.

Lemma text_eqb_refl (a : text) : text_eqb a a = true.
Proof. apply text_eqb_eq. reflexivity. Qed.

Lemma text_eqb_neq (a b : text) : text_eqb a b = false <-> a <> b.
Proof.
  rewrite <- text_eqb_eq. destruct (text_eqb a b); split; congruence.
Qed.

Lemma text_eqb_sym (a b : text) : text_eqb a b = text_eqb b a.
Proof.
  destruct (text_eqb a b) eqn:H; symmetry.
  - apply text_eqb_eq. apply text_eqb_eq in H. congruence.
  - apply text_eqb_neq. apply text_eqb_neq in H. congruence.
Qed.

End TextEq.

Section Matches.

(** What a match takes is a prefix of the subject. *)
Lemma star_loop_rest (body : option ascii -> text -> list m_end) :
  (forall p s q, In q (body p s) ->
                 rest q = skipn (taken q) s /\ taken q <= length s) ->
  forall fuel p s q, In q (star_loop body fuel p s) ->
                     rest q = skipn (taken q) s /\ taken q <= length s.
Proof.
  intros Hb. induction fuel as [|fuel IH]; intros p s q Hq.
  - cbn [star_loop In] in Hq. destruct Hq as [<-|[]]. cbn; split; [reflexivity|lia].
  - cbn [star_loop] in Hq. apply in_app_iff in Hq.
    destruct Hq as [Hq|[<-|[]]]; [|cbn; split; [reflexivity|lia]].
    apply in_flat_map in Hq. destruct Hq as (q1 & H1 & Hq).
    destruct (0 <? taken q1); [|destruct Hq].
    apply in_map_iff in Hq. destruct Hq as (q2 & <- & H2).
    apply Hb in H1. apply IH in H2. destruct H1 as [R1 L1], H2 as [R2 L2].
    cbn [advance rest taken]. rewrite R2, R1, skipn_skipn.
    rewrite R1, length_skipn in L2.
    split; [f_equal; lia|lia].
Qed.

Lemma ends_rest (r : regex) : forall p s q,
  In q (ends r p s) -> rest q = skipn (taken q) s /\ taken q <= length s.
Proof.
  induction r as [|f| |r1 IH1 r2 IH2|r IH]; intros p s q Hq; cbn [ends] in Hq.
  - destruct Hq as [<-|[]]. cbn; split; [reflexivity|lia].
  - destruct s as [|c s]; [destruct Hq|].
    destruct (f c); [|destruct Hq]. destruct Hq as [<-|[]]. cbn; split; [reflexivity|lia].
  - destruct (at_boundary p s); [|destruct Hq].
    destruct Hq as [<-|[]]. cbn; split; [reflexivity|lia].
  - apply in_flat_map in Hq. destruct Hq as (q1 & H1 & Hq).
    apply in_map_iff in Hq. destruct Hq as (q2 & <- & H2).
    apply IH1 in H1. apply IH2 in H2. destruct H1 as [R1 L1], H2 as [R2 L2].
    cbn [advance rest taken]. rewrite R2, R1, skipn_skipn.
    rewrite R1, length_skipn in L2.
    split; [f_equal; lia|lia].
  - eapply star_loop_rest; eauto.
Qed.

Lemma ends_min_len (r : regex) : forall p s q,
  In q (ends r p s) -> min_len r <= taken q.
Proof.
  induction r as [|f| |r1 IH1 r2 IH2|r IH]; intros p s q Hq; cbn [ends] in Hq;
    cbn [min_len]; try lia.
  - destruct s as [|c s]; [destruct Hq|].
    destruct (f c); [|destruct Hq]. destruct Hq as [<-|[]]. cbn. lia.
  - apply in_flat_map in Hq. destruct Hq as (q1 & H1 & Hq).
    apply in_map_iff in Hq. destruct Hq as (q2 & <- & H2).
    apply IH1 in H1. apply IH2 in H2. cbn [advance taken]. lia.
Qed.

Lemma match_at_bounds (r : regex) (p : option ascii) (s : text) (n : nat) :
  match_at r p s = Some n -> min_len r <= n <= length s.
Proof.
  unfold match_at. destruct (ends r p s) as [|q l] eqn:E; [discriminate|].
  intros H. injection H as <-.
  assert (Hq : In q (ends r p s)) by (rewrite E; left; reflexivity).
  split; [eapply ends_min_len; eauto|eapply ends_rest; eauto].
Qed.

Lemma findall_from_min_len (r : regex) : forall s k p w,
  In w (findall_from r k p s) -> min_len r <= length w.
Proof.
  induction s as [|c s IH]; intros k p w Hw; cbn [findall_from] in Hw.
  - destruct k; [|destruct Hw].
    destruct (match_at r p []) as [n|] eqn:E; [|destruct Hw].
    destruct Hw as [<-|[]]. apply match_at_bounds in E. cbn in *. lia.
  - destruct k as [|k]; [|eapply IH; eauto].
    destruct (match_at r p (c :: s)) as [n|] eqn:E; [|eapply IH; eauto].
    destruct Hw as [<-|Hw]; [|eapply IH; eauto].
    apply match_at_bounds in E. rewrite length_firstn. lia.
Qed.

End Matches.

Module KeywordFacts.

Import CVOptimizer.

(** The dict with one more sighting of [w]. *)
Lemma bump_notin (w : text) : forall d,
  ~ In w (map fst d) -> CVAnalyzer.bump w d = d ++ [(w, 1)].
Proof.
  induction d as [|[k n] d IH]; intros H; [reflexivity|].
  cbn [CVAnalyzer.bump]. cbn [map fst In] in H.
  destruct (text_eqb k w) eqn:E.
  - apply text_eqb_eq in E. tauto.
  - cbn [app]. f_equal. apply IH. tauto.
Qed.

Lemma bump_in (w : text) : forall d,
  NoDup (map fst d) -> In w (map fst d) ->
  CVAnalyzer.bump w d
  = map (fun kn => if text_eqb (fst kn) w then (fst kn, S (snd kn)) else kn) d.
Proof.
  induction d as [|[k n] d IH]; intros Hnd Hin; [destruct Hin|].
  cbn [CVAnalyzer.bump map fst snd]. cbn [map fst] in Hnd.
  inversion Hnd as [|? ? Hk Hnd']; subst.
  destruct (text_eqb k w) eqn:E.
  - f_equal. apply text_eqb_eq in E. subst k.
    symmetry. rewrite <- (map_id d) at 2. apply map_ext_in.
    intros [k' n'] Hin'. cbn [fst snd].
    destruct (text_eqb k' w) eqn:E'; [|reflexivity].
    apply text_eqb_eq in E'. subst k'. exfalso. apply Hk.
    apply in_map_iff. exists (w, n'). auto.
  - f_equal. apply IH; [assumption|].
    cbn [map fst In] in Hin. destruct Hin as [->|Hin]; [|assumption].
    rewrite text_eqb_refl in E. discriminate.
Qed.

Lemma occurrences_cons (w x : text) (l : list text) :
  occurrences w (x :: l)
  = (if text_eqb w x then 1 else 0) + occurrences w l.
Proof.
  unfold occurrences. cbn [filter]. destruct (text_eqb w x); reflexivity.
Qed.

Definition not_key (d : list (text * nat)) (w : text) : bool :=
  negb (existsb (text_eqb w) (map fst d)).

Lemma not_key_false (d : list (text * nat)) (w : text) :
  not_key d w = false <-> In w (map fst d).
Proof.
  unfold not_key. rewrite negb_false_iff, existsb_exists. split.
  - intros (k & Hk & E). apply text_eqb_eq in E. congruence.
  - intros H. exists w. split; [assumption|apply text_eqb_refl].
Qed.

Lemma not_key_true (d : list (text * nat)) (w : text) :
  not_key d w = true <-> ~ In w (map fst d).
Proof.
  rewrite <- not_key_false. destruct (not_key d w); split; congruence.
Qed.

Lemma filter_filter {A : Type} (f g : A -> bool) (l : list A) :
  filter f (filter g l) = filter (fun x => g x && f x) l.
Proof.
  induction l as [|x l IH]; [reflexivity|]. cbn [filter].
  destruct (g x); cbn [filter andb]; [destruct (f x)|]; rewrite IH;
    reflexivity.
Qed.

Lemma fold_bump : forall ws d,
  NoDup (map fst d) ->
  fold_left (fun d w => CVAnalyzer.bump w d) ws d
  = map (fun kn => (fst kn, snd kn + occurrences (fst kn) ws)) d
    ++ map (fun w => (w, occurrences w ws))
           (filter (not_key d) (first_seen ws)).
Proof.
  induction ws as [|x ws IH]; intros d Hnd.
  - cbn [fold_left first_seen filter map]. rewrite app_nil_r.
    rewrite <- (map_id d) at 1. apply map_ext. intros [k n].
    cbn [fst snd]. unfold occurrences. cbn [filter length].
    rewrite Nat.add_0_r. reflexivity.
  - cbn [fold_left first_seen filter].
    destruct (not_key d x) eqn:Hx.
    + apply not_key_true in Hx.
      rewrite bump_notin by assumption.
      rewrite IH.
      2:{ rewrite map_app. cbn [map fst].
          apply NoDup_app; [assumption|repeat constructor; auto|].
          intros k Hk [<-|[]]. contradiction. }
      rewrite map_app. cbn [map fst snd]. rewrite <- app_assoc.
      cbn [app]. f_equal.
      * apply map_ext_in. intros [k n] Hin. cbn [fst snd].
        rewrite occurrences_cons.
        destruct (text_eqb k x) eqn:E; [|reflexivity].
        apply text_eqb_eq in E. subst k. exfalso. apply Hx.
        apply in_map_iff. exists (x, n). auto.
      * rewrite occurrences_cons, text_eqb_refl. f_equal.
        rewrite filter_filter.
        rewrite (filter_ext
                   (not_key (d ++ [(x, 1)]))
                   (fun w => negb (text_eqb x w) && not_key d w)).
        2:{ intros w. unfold not_key. rewrite map_app, existsb_app.
            cbn [map fst existsb]. rewrite orb_false_r, negb_orb.
            rewrite (text_eqb_sym w x). apply andb_comm. }
        apply map_ext_in. intros w Hw. apply filter_In in Hw.
        destruct Hw as [_ Hw]. apply andb_true_iff in Hw.
        destruct Hw as [Hw _]. apply negb_true_iff in Hw.
        rewrite occurrences_cons, (text_eqb_sym w x), Hw. reflexivity.
    + apply not_key_false in Hx.
      rewrite bump_in by assumption.
      rewrite IH.
      2:{ rewrite map_map.
          rewrite (map_ext _ fst); [assumption|].
          intros [k n]. cbn [fst snd]. destruct (text_eqb k x); reflexivity. }
      rewrite map_map. f_equal.
      * apply map_ext. intros [k n]. cbn [fst snd].
        rewrite occurrences_cons.
        destruct (text_eqb k x); cbn [fst snd]; f_equal; lia.
      * rewrite filter_filter.
        assert (Hk : forall w,
                   not_key (map (fun kn => if text_eqb (fst kn) x
                                           then (fst kn, S (snd kn)) else kn) d) w
                   = not_key d w).
        { intros w. unfold not_key. rewrite map_map.
          rewrite (map_ext _ fst); [reflexivity|].
          intros [k n]. cbn [fst snd]. destruct (text_eqb k x); reflexivity. }
        rewrite (filter_ext _ _ Hk).
        rewrite (filter_ext_in
                   (fun w => negb (text_eqb x w) && not_key d w)
                   (not_key d)).
        2:{ intros w _. destruct (text_eqb x w) eqn:E; [|reflexivity].
            apply text_eqb_eq in E. subst w. cbn [negb andb].
            symmetry. apply not_key_false. assumption. }
        apply map_ext_in. intros w Hw. apply filter_In in Hw.
        destruct Hw as [_ Hw]. apply not_key_true in Hw.
        rewrite occurrences_cons.
        destruct (text_eqb w x) eqn:E; [|reflexivity].
        apply text_eqb_eq in E. subst w. contradiction.
Qed.

Lemma word_freq_first_seen (ws : list text) :
  fold_left (fun d w => CVAnalyzer.bump w d) ws []
  = map (fun w => (w, occurrences w ws)) (first_seen ws).
Proof.
  rewrite fold_bump by constructor. cbn [map app].
  f_equal. apply forallb_filter_id. apply forallb_forall.
  intros w _. reflexivity.
Qed.

Lemma fold_count_word : forall ws d,
  fold_left count_word ws d
  = fold_left (fun d w => CVAnalyzer.bump w d)
              (filter (fun w => negb (mem w stop_words)) (map lower ws)) d.
Proof.
  induction ws as [|x ws IH]; intros d; [reflexivity|].
  cbn [fold_left map filter]. unfold count_word at 2.
  destruct (mem (lower x) stop_words); cbn [negb fold_left]; apply IH.
Qed.

Lemma filter_map_fst {A B : Type} (p : B -> bool) (g : A -> B) (l : list A) :
  map fst (filter (fun wf => p (snd wf)) (map (fun w => (w, g w)) l))
  = filter (fun w => p (g w)) l.
Proof.
  induction l as [|x l IH]; [reflexivity|]. cbn [map filter fst snd].
  destruct (p (g x)); cbn [map fst]; rewrite IH; reflexivity.
Qed.

Lemma missing_keywords_spec (cv_text job_description : text) :
  missing_keywords cv_text job_description
  = missing_words cv_text job_description.
Proof.
  unfold missing_keywords, missing_words, important_words.
  rewrite fold_count_word. fold (counted_words job_description).
  rewrite word_freq_first_seen.
  rewrite (filter_map_fst (fun n => 3 <=? n)
             (fun w => occurrences w (counted_words job_description))).
  reflexivity.
Qed.

(** X5.  [optimize_for_job_description] takes the words of the job
    description of at least 3 letters outside the stop words whose
    frequency is at least 3, in the order in which they are first seen; if
    the lower-cased document lacks some of them it returns exactly one
    suggestion, which lists the first 10 at most of the lacking ones, and
    otherwise it returns no suggestion. *)
Theorem job_description_suggestions (cv_text job_description : text) :
  snd (optimize_for_job_description cv_text job_description)
  = match missing_words cv_text job_description with
    | [] => []
    | _ :: _ =>
        [suggestion_prefix
         ++ join (txt ", ")
                 (firstn 10 (missing_words cv_text job_description))]
    end
  /\ (forall w, In w (missing_words cv_text job_description) -> 3 <= length w).
Proof.
  split.
  - unfold optimize_for_job_description. cbn [snd].
    rewrite missing_keywords_spec. reflexivity.
  - intros w Hw. unfold missing_words, important_words in Hw.
    apply filter_In in Hw. destruct Hw as [Hw _].
    apply filter_In in Hw. destruct Hw as [Hw _].
    assert (Hc : In w (counted_words job_description)).
    { revert Hw. generalize (counted_words job_description).
      induction l as [|x l IH]; cbn [first_seen]; [tauto|].
      intros [->|Hw]; [left; reflexivity|].
      right. apply filter_In in Hw. apply IH. tauto. }
    unfold counted_words in Hc. apply filter_In in Hc.
    destruct Hc as [Hc _]. apply in_map_iff in Hc.
    destruct Hc as (w0 & <- & Hw0). unfold lower. rewrite length_map.
    apply (findall_from_min_len CVAnalyzer.word_re) in Hw0. exact Hw0.
Qed.

Example four_times_kubernetes :
  snd (optimize_for_job_description
         (txt "I know Python")
         (txt "Kubernetes and the Python; the kubernetes, python KUBERNETES the Kubernetes"))
  = [txt "Consider incorporating these keywords from the job description: kubernetes"].
Proof. vm_compute. reflexivity. Qed.

End KeywordFacts.

(* ================================================================= *)
(** ** A heading between word boundaries *)

Module Scan.

(** The last character of [u], or [p] when [u] is empty. *)
Definition last_from (p : option ascii) (u : text) : option ascii :=
  fold_left (fun _ c => Some c) u p.

Definition last_error (u : text) : option ascii := last_from None u.

(** No [Chr] of [r] accepts [c]. *)
Fixpoint avoids (r : regex) (c : ascii) : bool :=
  match r with
  | Chr f => negb (f c)
  | Seq r1 r2 => avoids r1 c && avoids r2 c
  | Star r1 => avoids r1 c
  | _ => true
  end.

(** Some two neighbours of [w] are [x] and [y], letter case apart. *)
Fixpoint adjacent_in (w : text) (x y : ascii) : bool :=
  match w with
  | p :: ((q :: _) as w') =>
      (eqc (lower_char x) (lower_char p) && eqc (lower_char y) (lower_char q))
      || adjacent_in w' x y
  | _ => false
  end.

(** In [w] the lower-case character [ly] only ever follows a word
    character. *)
Fixpoint follows_word_only (w : text) (ly : ascii) : bool :=
  match w with
  | p :: ((q :: _) as w') =>
      (is_word p || negb (eqc ly (lower_char q))) && follows_word_only w' ly
  | _ => true
  end.

(** The comparison of [w] with a text that begins with the lower-case
    [sfx] fails before the end of [sfx]. *)
Fixpoint mismatch_within (w sfx : text) : bool :=
  match w, sfx with
  | x :: w', c :: sfx' =>
      if eqc c (lower_char x) then mismatch_within w' sfx' else true
  | _, _ => false
  end.

(** [w] begins at no position of the lower-case [sfx]. *)
Fixpoint clear_of (w sfx : text) : bool :=
  match sfx with
  | [] => true
  | _ :: sfx' => mismatch_within w sfx && clear_of w sfx'
  end.

End Scan.
Import Scan.

Section Chars.

Lemma is_word_lower_char (c : ascii) : is_word (lower_char c) = is_word c.
Proof. destruct c as [[] [] [] [] [] [] [] []]; reflexivity. Qed.

Lemma is_space_lower_char (c : ascii) : is_space (lower_char c) = is_space c.
Proof. destruct c as [[] [] [] [] [] [] [] []]; reflexivity. Qed.

Lemma eqc_word_nonword (x p : ascii) :
  is_word x = false -> is_word p = true ->
  eqc (lower_char x) (lower_char p) = false.
Proof.
  intros Hx Hp. unfold eqc. apply Ascii.eqb_neq. intros E.
  rewrite <- is_word_lower_char, E, is_word_lower_char in Hx. congruence.
Qed.

Lemma last_from_app (p : option ascii) (u : text) (x : ascii) :
  last_from p (u ++ [x]) = Some x.
Proof. unfold last_from. rewrite fold_left_app. reflexivity. Qed.

Lemma last_from_cons (p : option ascii) (c : ascii) (u : text) :
  last_from p (c :: u) = last_from (Some c) u.
Proof. reflexivity. Qed.

End Chars.

Section PlainScan.

Lemma prefix_ci_app_true (w : text) : forall u v,
  prefix_ci w u = true -> prefix_ci w (u ++ v) = true.
Proof.
  induction w as [|x w' IH]; intros u v H; [reflexivity|].
  destruct u as [|c u]; [discriminate|].
  cbn [app prefix_ci] in *. apply andb_true_iff in H. destruct H as [H1 H2].
  rewrite H1. apply IH. assumption.
Qed.

Lemma prefix_ci_length (w : text) : forall u,
  prefix_ci w u = true -> length w <= length u.
Proof.
  induction w as [|x w' IH]; intros u H; [cbn; lia|].
  destruct u as [|c u]; [discriminate|].
  cbn [prefix_ci] in H. apply andb_true_iff in H.
  destruct H as [_ H]. apply IH in H. cbn [length]. lia.
Qed.

(** No occurrence of [w] lies across the seam of [u ++ v]. *)
Definition no_straddle (w u v : text) : Prop :=
  forall u1 u2, u = u1 ++ u2 -> u2 <> [] -> length u2 < length w ->
                prefix_ci w (u2 ++ v) = false.

Lemma no_straddle_tail (w : text) (c : ascii) (u v : text) :
  no_straddle w (c :: u) v -> no_straddle w u v.
Proof.
  intros H u1 u2 E. apply (H (c :: u1) u2). rewrite E. reflexivity.
Qed.

Lemma replace_app (w r : text) : forall u v k,
  no_straddle w u v -> k <= length u ->
  replace_from w r k (u ++ v)
  = replace_from w r k u ++ replace_from w r 0 v.
Proof.
  induction u as [|c u IH]; intros v k Hs Hk.
  - cbn [length] in Hk. replace k with 0 by lia. reflexivity.
  - pose proof (no_straddle_tail _ _ _ _ Hs) as Hs'.
    cbn [app replace_from]. destruct k as [|k].
    + change (c :: u ++ v) with ((c :: u) ++ v).
      destruct (prefix_ci w (c :: u)) eqn:Hp.
      * rewrite prefix_ci_app_true by assumption.
        rewrite <- app_assoc. f_equal. apply IH; [assumption|].
        apply prefix_ci_length in Hp. cbn [length] in *. lia.
      * destruct (prefix_ci w ((c :: u) ++ v)) eqn:Hq.
        -- destruct (le_lt_dec (length w) (length (c :: u))) as [Hl|Hl].
           ++ rewrite WeakPhrases.prefix_ci_app_long in Hq by assumption.
              congruence.
           ++ rewrite (Hs [] (c :: u)) in Hq;
                [discriminate|reflexivity|discriminate|assumption].
        -- cbn [app]. f_equal. apply IH; [assumption|lia].
    + apply IH; [assumption|cbn [length] in Hk; lia].
Qed.

Lemma adjacent_in_cons (p q : ascii) (w : text) (x y : ascii) :
  adjacent_in (p :: q :: w) x y
  = (eqc (lower_char x) (lower_char p) && eqc (lower_char y) (lower_char q))
    || adjacent_in (q :: w) x y.
Proof. reflexivity. Qed.

Lemma follows_word_only_cons (p q : ascii) (w : text) (ly : ascii) :
  follows_word_only (p :: q :: w) ly
  = (is_word p || negb (eqc ly (lower_char q)))
    && follows_word_only (q :: w) ly.
Proof. reflexivity. Qed.

Lemma adjacent_of_straddle : forall (w u2 : text) (x y : ascii) (v : text),
  prefix_ci w (u2 ++ x :: y :: v) = true ->
  length u2 + 1 < length w ->
  adjacent_in w x y = true.
Proof.
  induction w as [|p w IH]; intros u2 x y v Hp Hl; [cbn in Hl; lia|].
  destruct u2 as [|c u2].
  - destruct w as [|q w]; [cbn in Hl; lia|].
    cbn [app prefix_ci] in Hp.
    apply andb_true_iff in Hp. destruct Hp as [H1 Hp].
    apply andb_true_iff in Hp. destruct Hp as [H2 _].
    rewrite adjacent_in_cons, H1, H2. reflexivity.
  - cbn [app prefix_ci] in Hp.
    apply andb_true_iff in Hp. destruct Hp as [_ Hp].
    apply IH in Hp; [|cbn [length] in Hl; lia].
    destruct w as [|q w]; [discriminate|].
    rewrite adjacent_in_cons, Hp. apply orb_true_r.
Qed.

Lemma follows_word_only_sound : forall (w : text) (x y : ascii),
  is_word x = false ->
  follows_word_only w (lower_char y) = true ->
  adjacent_in w x y = false.
Proof.
  induction w as [|p w IH]; intros x y Hx H; [reflexivity|].
  destruct w as [|q w]; [reflexivity|].
  rewrite follows_word_only_cons in H. apply andb_true_iff in H.
  destruct H as [H1 H2].
  rewrite adjacent_in_cons, (IH x y Hx H2), orb_false_r.
  destruct (is_word p) eqn:Hp.
  - rewrite (eqc_word_nonword x p Hx Hp). reflexivity.
  - cbn [orb] in H1. apply negb_true_iff in H1.
    rewrite H1. apply andb_false_r.
Qed.

End PlainScan.

Module Heading.

Import CVOptimizer.

Definition employment_history : text := txt "employment history".
Definition work_experience : text := txt "WORK EXPERIENCE".

(** [t] holds "employment history", in any letter case, with no word
    character right before it and none right after it. *)
Definition has_heading (t : text) : Prop :=
  exists a m b,
    t = a ++ m ++ b
    /\ lower m = employment_history
    /\ word_opt (last_error a) = false
    /\ word_opt (hd_error b) = false.

(** What the proof asks of a weak phrase: it begins and ends with a word
    character, an "e" in it only follows a word character, and it begins
    nowhere in "employment history". *)
Definition phrase_ok (w : text) : bool :=
  match w with
  | [] => false
  | p :: _ =>
      is_word p && is_word (last w p)
      && follows_word_only w "e"%char
      && clear_of w employment_history
  end.

End Heading.
Import Heading.

Section Stage1.

Import CVOptimizer.

Lemma mismatch_within_sound : forall (w u v : text),
  mismatch_within w (lower u) = true -> prefix_ci w (u ++ v) = false.
Proof.
  induction w as [|x w IH]; intros u v H; [destruct u; discriminate|].
  destruct u as [|c u]; [discriminate|].
  cbn [lower map mismatch_within] in H. cbn [app prefix_ci].
  destruct (eqc (lower_char c) (lower_char x)); [|reflexivity].
  cbn [andb]. apply IH. exact H.
Qed.

Lemma replace_through (w r : text) : forall u v,
  clear_of w (lower u) = true ->
  replace_from w r 0 (u ++ v) = u ++ replace_from w r 0 v.
Proof.
  induction u as [|c u IH]; intros v H; [reflexivity|].
  cbn [lower map clear_of] in H. apply andb_true_iff in H.
  destruct H as [H1 H2].
  cbn [app replace_from].
  change (c :: u ++ v) with ((c :: u) ++ v).
  rewrite (mismatch_within_sound w (c :: u) v H1).
  f_equal. apply IH. exact H2.
Qed.

Lemma prefix_ci_nonword_head (p : ascii) (w : text) (x : ascii) (s : text) :
  is_word p = true -> is_word x = false ->
  prefix_ci (p :: w) (x :: s) = false.
Proof.
  intros Hp Hx. cbn [prefix_ci].
  rewrite (eqc_word_nonword x p Hx Hp). reflexivity.
Qed.

Lemma suffix_of_snoc (u : text) (x : ascii) (u1 u2 : text) :
  u ++ [x] = u1 ++ u2 -> u2 <> [] -> exists u2', u2 = u2' ++ [x].
Proof.
  intros E Hne. destruct (exists_last Hne) as (u2' & y & ->).
  rewrite app_assoc in E. apply app_inj_tail in E. destruct E as [_ ->].
  exists u2'. reflexivity.
Qed.

Lemma no_straddle_left (w a0 : text) (x y : ascii) (v : text) :
  is_word x = false ->
  follows_word_only w (lower_char y) = true ->
  no_straddle w (a0 ++ [x]) (y :: v).
Proof.
  intros Hx Hf u1 u2 E Hne Hl.
  destruct (suffix_of_snoc _ _ _ _ E Hne) as (u2' & ->).
  rewrite <- app_assoc. cbn [app].
  destruct (prefix_ci w (u2' ++ x :: y :: v)) eqn:Hp; [|reflexivity].
  apply adjacent_of_straddle in Hp.
  - rewrite (follows_word_only_sound w x y Hx Hf) in Hp. discriminate.
  - rewrite length_app in Hl. cbn [length] in Hl. lia.
Qed.

Lemma prefix_ci_last : forall (w u : text) (x d : ascii),
  prefix_ci w (u ++ [x]) = true -> length w = length u + 1 ->
  eqc (lower_char x) (lower_char (last w d)) = true.
Proof.
  induction w as [|p w IH]; intros u x d H Hl; [cbn in Hl; lia|].
  destruct u as [|c u].
  - destruct w; [|cbn in Hl; lia].
    cbn [app prefix_ci] in H. apply andb_true_iff in H. cbn [last]. tauto.
  - cbn [app prefix_ci] in H. apply andb_true_iff in H. destruct H as [_ H].
    destruct w as [|q w]; [cbn in Hl; lia|].
    change (last (p :: q :: w) d) with (last (q :: w) d).
    apply (IH u); [assumption|cbn [length] in *; lia].
Qed.

Lemma no_straddle_right (w a0 : text) (x d : ascii) :
  is_word x = false -> is_word (last w d) = true ->
  no_straddle w a0 [x].
Proof.
  intros Hx Hw u1 u2 E Hne Hl.
  destruct (prefix_ci w (u2 ++ [x])) eqn:Hp; [|reflexivity].
  pose proof (prefix_ci_length _ _ Hp) as Hlen.
  rewrite length_app in Hlen. cbn [length] in Hlen.
  apply (prefix_ci_last w u2 x d) in Hp; [|lia].
  rewrite (eqc_word_nonword x _ Hx Hw) in Hp. discriminate.
Qed.

Lemma last_nonempty_indep (w : text) (p d : ascii) :
  w <> [] -> last w p = last w d.
Proof.
  induction w as [|q w IH]; intros H; [contradiction|].
  destruct w as [|q' w]; [reflexivity|].
  change (last (q :: q' :: w) p) with (last (q' :: w) p).
  change (last (q :: q' :: w) d) with (last (q' :: w) d).
  apply IH. discriminate.
Qed.

Lemma first_of_heading (m : text) :
  lower m = employment_history ->
  exists y m', m = y :: m' /\ lower_char y = "e"%char.
Proof.
  destruct m as [|y m']; [discriminate|]. intros H.
  cbn [lower map] in H. injection H as Hy _. eauto.
Qed.

Lemma replace_keeps_heading (w r t : text) :
  phrase_ok w = true -> has_heading t -> has_heading (replace_all_ci w r t).
Proof.
  unfold phrase_ok. destruct w as [|p w]; [discriminate|].
  intros Hok.
  apply andb_true_iff in Hok. destruct Hok as [Hok Hclear].
  apply andb_true_iff in Hok. destruct Hok as [Hok Hfollow].
  apply andb_true_iff in Hok. destruct Hok as [Hfirst Hlast].
  intros (a & m & b & -> & Hm & Ha & Hb).
  destruct (first_of_heading m Hm) as (y & m' & Em & Hy).
  unfold replace_all_ci.
  assert (Hmb : replace_from (p :: w) r 0 (m ++ b)
                = m ++ replace_from (p :: w) r 0 b).
  { apply replace_through. rewrite Hm. exact Hclear. }
  assert (Hx : forall x s, is_word x = false ->
                 replace_from (p :: w) r 0 (x :: s)
                 = x :: replace_from (p :: w) r 0 s).
  { intros x s Hx. cbn [replace_from].
    rewrite prefix_ci_nonword_head by assumption. reflexivity. }
  assert (Hb' : word_opt (hd_error (replace_from (p :: w) r 0 b)) = false).
  { destruct b as [|z b0]; [reflexivity|].
    cbn [hd_error word_opt] in Hb. rewrite Hx by assumption. exact Hb. }
  destruct a as [|c a _] using rev_ind.
  - exists [], m, (replace_from (p :: w) r 0 b).
    cbn [app]. rewrite Hmb. repeat split; assumption.
  - unfold last_error in Ha. rewrite last_from_app in Ha.
    cbn [word_opt] in Ha.
    exists (replace_from (p :: w) r 0 a ++ [c]), m,
           (replace_from (p :: w) r 0 b).
    split; [|repeat split; try assumption].
    + rewrite replace_app; [|rewrite Em; cbn [app];
                             apply no_straddle_left;
                             [assumption|rewrite Hy; assumption]|lia].
      rewrite Hmb.
      rewrite (replace_app (p :: w) r a [c]);
        [|apply (no_straddle_right (p :: w) a c p); assumption|lia].
      rewrite Hx by assumption. cbn [replace_from].
      rewrite <- !app_assoc. reflexivity.
    + unfold last_error. rewrite last_from_app. exact Ha.
Qed.

Lemma catalog_phrases_ok :
  forallb (fun entry => phrase_ok (fst entry)) PHRASE_IMPROVEMENTS = true.
Proof. vm_compute. reflexivity. Qed.

Lemma improve_keeps_heading (t : text) :
  has_heading t -> has_heading (_improve_weak_phrases t).
Proof.
  unfold _improve_weak_phrases.
  pose proof catalog_phrases_ok as Hok. rewrite forallb_forall in Hok.
  assert (Hin : forall e, In e PHRASE_IMPROVEMENTS ->
                          In e PHRASE_IMPROVEMENTS) by auto.
  revert t Hin. generalize PHRASE_IMPROVEMENTS at 1 3.
  induction l as [|entry l IH]; intros t Hin H; [exact H|].
  cbn [fold_left]. apply IH.
  - intros e He. apply Hin. right. assumption.
  - rewrite WeakPhrases.improve_phrase_plain
      by (apply Hin; left; reflexivity).
    apply replace_keeps_heading; [|assumption].
    apply Hok. apply Hin. left. reflexivity.
Qed.

End Stage1.

Section Emit.

(** A match somewhere ahead makes [sub] put [repl] in the output. *)
Lemma sub_from_emits (r : regex) (repl : text) : forall u v k p,
  k <= length u ->
  match_at r (last_from p u) v <> None ->
  exists pre post, sub_from r repl k p (u ++ v) = pre ++ repl ++ post.
Proof.
  induction u as [|c u IH]; intros v k p Hk Hm.
  - cbn [length] in Hk. replace k with 0 by lia.
    cbn [app]. change (last_from p []) with p in Hm.
    destruct v as [|c v]; cbn [sub_from];
      destruct (match_at r p _) as [[|n]|]; try contradiction.
    + exists [], []. rewrite app_nil_r. reflexivity.
    + exists [], []. rewrite app_nil_r. reflexivity.
    + exists [], (c :: sub_from r repl 0 (Some c) v). reflexivity.
    + exists [], (sub_from r repl n (Some c) v). reflexivity.
  - cbn [app sub_from]. rewrite last_from_cons in Hm.
    destruct k as [|k].
    + destruct (match_at r p (c :: u ++ v)) as [[|n]|].
      * exists [], (c :: sub_from r repl 0 (Some c) (u ++ v)). reflexivity.
      * exists [], (sub_from r repl n (Some c) (u ++ v)). reflexivity.
      * destruct (IH v 0 (Some c)) as (pre & post & E); [lia|assumption|].
        exists (c :: pre), post. rewrite E. reflexivity.
    + apply IH; [cbn [length] in Hk; lia|assumption].
Qed.

Lemma ends_seq_single (r1 r2 : regex) (p : option ascii) (s : text)
  (q : m_end) :
  ends r1 p s = [q] ->
  ends (Seq r1 r2) p s
  = map (advance (taken q)) (ends r2 (last_char q) (rest q)).
Proof. intros E. cbn [ends]. rewrite E. cbn [flat_map]. apply app_nil_r. Qed.

Lemma is_word_not_space (c : ascii) : is_word c = true -> is_space c = false.
Proof.
  destruct c as [[] [] [] [] [] [] [] []]; vm_compute; intros; congruence.
Qed.

Lemma lower_length (m : text) : length (lower m) = length m.
Proof. apply length_map. Qed.

Lemma char_after_all : forall (w m : text) (p : option ascii) (b : text),
  length m = length w -> char_after p w (m ++ b) = last_from p m.
Proof.
  induction w as [|x w IH]; intros m p b H.
  - destruct m; [reflexivity|discriminate].
  - destruct m as [|c m]; [discriminate|].
    cbn [app char_after]. rewrite last_from_cons. apply IH.
    cbn [length] in H. lia.
Qed.

Lemma word_opt_last_from : forall (m : text) (p : option ascii),
  m <> [] -> forallb is_word (lower m) = true ->
  word_opt (last_from p m) = true.
Proof.
  induction m as [|c m IH]; intros p Hne H; [contradiction|].
  cbn [lower map forallb] in H. apply andb_true_iff in H.
  destruct H as [Hc Hm]. rewrite last_from_cons.
  destruct m as [|c' m]; [|apply IH; [discriminate|exact Hm]].
  cbn. rewrite <- is_word_lower_char. exact Hc.
Qed.

Lemma skipn_exact (m b : text) (n : nat) :
  length m = n -> skipn n (m ++ b) = b.
Proof.
  intros <-. rewrite skipn_app, skipn_all, Nat.sub_diag. reflexivity.
Qed.

Lemma two_words_matches (w1 w2 m1 m2 : text) (sp : ascii)
  (p : option ascii) (b : text) :
  lower m1 = lower w1 -> lower m2 = lower w2 ->
  is_space sp = true ->
  forallb is_word (lower w1) = true -> forallb is_word (lower w2) = true ->
  w1 <> [] -> w2 <> [] ->
  word_opt p = false -> word_opt (hd_error b) = false ->
  match_at (CVOptimizer.two_words w1 w2) p (m1 ++ sp :: m2 ++ b) <> None.
Proof.
  intros H1 H2 Hsp W1 W2 N1 N2 Hp Hb.
  assert (L1 : length m1 = length w1)
    by (rewrite <- (lower_length m1), H1; apply lower_length).
  assert (L2 : length m2 = length w2)
    by (rewrite <- (lower_length m2), H2; apply lower_length).
  destruct m1 as [|y1 m1']; [destruct w1; [contradiction|discriminate]|].
  destruct m2 as [|y2 m2']; [destruct w2; [contradiction|discriminate]|].
  assert (Hy1 : is_word y1 = true).
  { rewrite <- H1 in W1. cbn [lower map forallb] in W1.
    apply andb_true_iff in W1. rewrite <- is_word_lower_char. tauto. }
  assert (Hy2 : is_space y2 = false).
  { apply is_word_not_space. rewrite <- H2 in W2.
    cbn [lower map forallb] in W2.
    apply andb_true_iff in W2. rewrite <- is_word_lower_char. tauto. }
  unfold match_at, CVOptimizer.two_words. cbn [seqs].
  rewrite (ends_seq_single WordB _ p _
             (mk_end 0 p ((y1 :: m1') ++ sp :: (y2 :: m2') ++ b))).
  2:{ cbn [ends app]. unfold at_boundary. cbn [hd_error word_opt].
      rewrite Hp, Hy1. reflexivity. }
  cbn [taken last_char rest].
  rewrite (ends_seq_single (lit_ci w1) _ p _
             (mk_end (length w1) (last_from p (y1 :: m1'))
                     (sp :: (y2 :: m2') ++ b))).
  2:{ rewrite ends_lit_ci.
      rewrite WeakPhrases.prefix_ci_of_lower by assumption.
      rewrite char_after_all, skipn_exact by assumption. reflexivity. }
  cbn [taken last_char rest].
  rewrite (ends_seq_single (Plus (Chr is_space)) _ _ _
             (mk_end 1 (Some sp) ((y2 :: m2') ++ b))).
  2:{ unfold Plus.
      rewrite (ends_seq_single (Chr is_space) _ _ _
                 (mk_end 1 (Some sp) ((y2 :: m2') ++ b)))
        by (cbn [ends]; rewrite Hsp; reflexivity).
      cbn [taken last_char rest ends app length star_loop].
      rewrite Hy2. reflexivity. }
  cbn [taken last_char rest].
  rewrite (ends_seq_single (lit_ci w2) _ _ _
             (mk_end (length w2) (last_from (Some sp) (y2 :: m2')) b)).
  2:{ rewrite ends_lit_ci.
      rewrite WeakPhrases.prefix_ci_of_lower by assumption.
      rewrite char_after_all, skipn_exact by assumption. reflexivity. }
  cbn [taken last_char rest].
  rewrite (ends_seq_single WordB _ _ _
             (mk_end 0 (last_from (Some sp) (y2 :: m2')) b)).
  2:{ cbn [ends]. unfold at_boundary.
      rewrite word_opt_last_from, Hb;
        [reflexivity|discriminate|rewrite H2; assumption]. }
  cbn. discriminate.
Qed.

Lemma heading_matched (a m b : text) :
  lower m = employment_history ->
  word_opt (last_error a) = false -> word_opt (hd_error b) = false ->
  match_at (CVOptimizer.two_words (txt "employment") (txt "history"))
           (last_error a) (m ++ b) <> None.
Proof.
  intros Hm Ha Hb.
  change employment_history
    with (txt "employment" ++ " "%char :: txt "history") in Hm.
  unfold lower in Hm. apply map_eq_app in Hm.
  destruct Hm as (m1 & m2' & -> & H1 & H2).
  apply map_eq_cons in H2. destruct H2 as (sp & m2 & -> & Hsp & H2).
  rewrite <- app_assoc. cbn [app].
  apply two_words_matches; try assumption; try discriminate;
    try reflexivity.
  rewrite <- is_space_lower_char, Hsp. reflexivity.
Qed.

End Emit.

Section Avoid.

Lemma skipn_app_le (n : nat) (u w : text) :
  n <= length u -> skipn n (u ++ w) = skipn n u ++ w.
Proof.
  intros H. rewrite skipn_app. replace (n - length u) with 0 by lia.
  reflexivity.
Qed.

Lemma star_loop_avoid (body : option ascii -> text -> list m_end)
  (c0 : ascii) (v : text) :
  (forall p u q, In q (body p (u ++ c0 :: v)) ->
                 rest q = skipn (taken q) (u ++ c0 :: v)
                 /\ taken q <= length u) ->
  forall fuel p u q, In q (star_loop body fuel p (u ++ c0 :: v)) ->
                     rest q = skipn (taken q) (u ++ c0 :: v)
                     /\ taken q <= length u.
Proof.
  intros Hb. induction fuel as [|fuel IH]; intros p u q Hq.
  - cbn [star_loop In] in Hq. destruct Hq as [<-|[]].
    cbn; split; [reflexivity|lia].
  - cbn [star_loop] in Hq. apply in_app_iff in Hq.
    destruct Hq as [Hq|[<-|[]]]; [|cbn; split; [reflexivity|lia]].
    apply in_flat_map in Hq. destruct Hq as (q1 & H1 & Hq).
    destruct (0 <? taken q1); [|destruct Hq].
    apply in_map_iff in Hq. destruct Hq as (q2 & <- & H2).
    apply Hb in H1. destruct H1 as [R1 L1].
    rewrite R1, skipn_app_le in H2 by assumption.
    apply IH in H2. destruct H2 as [R2 L2].
    rewrite length_skipn in L2.
    cbn [advance rest taken]. split; [|lia].
    rewrite R2, Nat.add_comm, <- skipn_skipn.
    rewrite (skipn_app_le (taken q1)) by assumption. reflexivity.
Qed.

(** A match of a pattern that avoids [c0] ends before the next [c0]. *)
Lemma ends_avoid (r : regex) (c0 : ascii) (v : text) :
  avoids r c0 = true ->
  forall p u q, In q (ends r p (u ++ c0 :: v)) ->
                rest q = skipn (taken q) (u ++ c0 :: v)
                /\ taken q <= length u.
Proof.
  induction r as [|f| |r1 IH1 r2 IH2|r IH]; intros Hav p u q Hq;
    cbn [ends] in Hq; cbn [avoids] in Hav.
  - destruct Hq as [<-|[]]. cbn; split; [reflexivity|lia].
  - destruct u as [|c u]; cbn [app] in Hq.
    + apply negb_true_iff in Hav. rewrite Hav in Hq. destruct Hq.
    + destruct (f c); [|destruct Hq]. destruct Hq as [<-|[]].
      cbn; split; [reflexivity|lia].
  - destruct (at_boundary p _); [|destruct Hq].
    destruct Hq as [<-|[]]. cbn; split; [reflexivity|lia].
  - apply andb_true_iff in Hav. destruct Hav as [A1 A2].
    apply in_flat_map in Hq. destruct Hq as (q1 & H1 & Hq).
    apply in_map_iff in Hq. destruct Hq as (q2 & <- & H2).
    apply (IH1 A1) in H1. destruct H1 as [R1 L1].
    rewrite R1, skipn_app_le in H2 by assumption.
    apply (IH2 A2) in H2. destruct H2 as [R2 L2].
    rewrite length_skipn in L2.
    cbn [advance rest taken]. split; [|lia].
    rewrite R2, Nat.add_comm, <- skipn_skipn.
    rewrite (skipn_app_le (taken q1)) by assumption. reflexivity.
  - eapply star_loop_avoid; eauto.
Qed.

Lemma match_at_avoid (r : regex) (c0 : ascii) (p : option ascii)
  (u v : text) (n : nat) :
  avoids r c0 = true ->
  match_at r p (u ++ c0 :: v) = Some n -> n <= length u.
Proof.
  intros Hav. unfold match_at.
  destruct (ends r p (u ++ c0 :: v)) as [|q l] eqn:E; [discriminate|].
  intros H. injection H as <-.
  apply (ends_avoid r c0 v Hav p u q). rewrite E. left. reflexivity.
Qed.

(** [sub] with such a pattern works on the two sides of a [c0] apart. *)
Lemma sub_from_split (r : regex) (repl : text) (c0 : ascii) (v : text) :
  avoids r c0 = true ->
  forall u k p, k <= length u ->
  exists pre,
    sub_from r repl k p (u ++ c0 :: v)
    = pre ++ c0 :: sub_from r repl 0 (Some c0) v.
Proof.
  intros Hav. induction u as [|c u IH]; intros k p Hk.
  - cbn [length] in Hk. replace k with 0 by lia.
    cbn [app sub_from].
    destruct (match_at r p (c0 :: v)) as [[|n]|] eqn:E.
    + exists repl. reflexivity.
    + apply (match_at_avoid r c0 p [] v) in E; [|assumption].
      cbn [length] in E. lia.
    + exists []. reflexivity.
  - cbn [app sub_from]. destruct k as [|k].
    + destruct (match_at r p (c :: u ++ c0 :: v)) as [[|n]|] eqn:E.
      * destruct (IH 0 (Some c)) as (pre & Hpre); [lia|].
        exists (repl ++ c :: pre). rewrite Hpre, <- app_assoc. reflexivity.
      * apply (match_at_avoid r c0 p (c :: u) v) in E; [|assumption].
        destruct (IH n (Some c)) as (pre & Hpre);
          [cbn [length] in E; lia|].
        exists (repl ++ pre). rewrite Hpre, <- app_assoc. reflexivity.
      * destruct (IH 0 (Some c)) as (pre & Hpre); [lia|].
        exists (c :: pre). rewrite Hpre. reflexivity.
    + apply IH. cbn [length] in Hk. lia.
Qed.

End Avoid.

(* ================================================================= *)
(** ** The canonical heading stays *)

Module HeadingKept.

Import CVOptimizer.

(** The passes that come after the one for "employment history". *)
Definition later_passes : list (regex * text) :=
  tl section_mappings ++ cleanings.

(** [t] holds "WORK EXPERIENCE". *)
Definition holds_work_experience (t : text) : Prop :=
  exists pre post, t = pre ++ work_experience ++ post.

(** A pass leaves "ORK EXPERIENCE" after a "W" as it is. *)
Definition passes_over (m : regex * text) : Prop :=
  forall post,
    sub_from (fst m) (snd m) 0 (Some "W"%char) (txt "ORK EXPERIENCE" ++ post)
    = txt "ORK EXPERIENCE" ++ sub_from (fst m) (snd m) 0 (Some "E"%char) post.

End HeadingKept.
Import HeadingKept.

Section Stage2.

Import CVOptimizer.

Lemma starts_with_app (w post : text) : starts_with w (w ++ post) = true.
Proof.
  induction w as [|x w IH]; [reflexivity|].
  cbn [app starts_with]. unfold eqc. rewrite Ascii.eqb_refl. exact IH.
Qed.

Lemma contains_app (w : text) : forall pre post,
  contains w (pre ++ w ++ post) = true.
Proof.
  induction pre as [|c pre IH]; intros post.
  - cbn [app]. destruct (w ++ post) eqn:E; cbn [contains];
      rewrite <- E, starts_with_app; reflexivity.
  - cbn [app contains]. rewrite IH. apply orb_true_r.
Qed.

Lemma later_passes_avoid_W :
  forallb (fun m => avoids (fst m) "W"%char) later_passes = true.
Proof. vm_compute. reflexivity. Qed.

Lemma sub_from_step_none (r : regex) (repl : text) (p : option ascii)
  (c : ascii) (s : text) :
  match_at r p (c :: s) = None ->
  sub_from r repl 0 p (c :: s) = c :: sub_from r repl 0 (Some c) s.
Proof. intros H. cbn [sub_from]. rewrite H. reflexivity. Qed.

Lemma sub_from_step_same (r : regex) (p : option ascii)
  (c : ascii) (s : text) :
  match_at r p (c :: s) = Some 1 ->
  sub_from r [c] 0 p (c :: s) = c :: sub_from r [c] 0 (Some c) s.
Proof. intros H. cbn [sub_from]. rewrite H. reflexivity. Qed.

Ltac step_over :=
  first [ rewrite sub_from_step_none by (vm_compute; reflexivity)
        | rewrite sub_from_step_same by (vm_compute; reflexivity) ].

Lemma later_passes_pass_over (m : regex * text) :
  In m later_passes -> passes_over m.
Proof.
  unfold later_passes, section_mappings, cleanings. cbn [tl app In].
  intros H.
  repeat (destruct H as [H|H];
          [subst m; intros post; cbn [fst snd];
           change (txt "ORK EXPERIENCE" ++ post)
             with ("O" :: "R" :: "K" :: " " :: "E" :: "X" :: "P" :: "E"
                   :: "R" :: "I" :: "E" :: "N" :: "C" :: "E" :: post)%char;
           try change (txt " ") with [" "%char];
           do 14 step_over; reflexivity|]).
  contradiction.
Qed.

Lemma sub_keeps_work_experience (m : regex * text) (t : text) :
  avoids (fst m) "W"%char = true -> passes_over m ->
  holds_work_experience t ->
  holds_work_experience (sub (fst m) (snd m) t).
Proof.
  intros Hav Hover (pre & post & ->).
  unfold sub, work_experience.
  change (txt "WORK EXPERIENCE" ++ post)
    with ("W"%char :: txt "ORK EXPERIENCE" ++ post).
  destruct (sub_from_split (fst m) (snd m) "W"%char
              (txt "ORK EXPERIENCE" ++ post) Hav pre 0 None) as (pre' & E);
    [lia|].
  rewrite E, Hover.
  exists pre', (sub_from (fst m) (snd m) 0 (Some "E"%char) post).
  reflexivity.
Qed.

Lemma later_passes_keep (l : list (regex * text)) :
  (forall m, In m l -> In m later_passes) ->
  forall t, holds_work_experience t ->
            holds_work_experience
              (fold_left (fun acc m => sub (fst m) (snd m) acc) l t).
Proof.
  pose proof later_passes_avoid_W as Hav. rewrite forallb_forall in Hav.
  induction l as [|m l IH]; intros Hin t H; [exact H|].
  cbn [fold_left]. apply IH.
  - intros m' Hm'. apply Hin. right. assumption.
  - apply sub_keeps_work_experience; [| |assumption].
    + apply Hav. apply Hin. left. reflexivity.
    + apply later_passes_pass_over. apply Hin. left. reflexivity.
Qed.

Lemma heading_replaced (t : text) :
  has_heading t ->
  holds_work_experience
    (sub (two_words (txt "employment") (txt "history")) work_experience t).
Proof.
  intros (a & m & b & -> & Hm & Ha & Hb). unfold sub.
  apply sub_from_emits; [lia|].
  apply heading_matched; assumption.
Qed.

Lemma rewrite_holds_work_experience (t role industry : text) :
  has_heading t ->
  holds_work_experience (optimize_cv_text t role industry).
Proof.
  intros H. unfold optimize_cv_text, _clean_formatting, _standardize_sections.
  apply later_passes_keep.
  { intros m Hm. unfold later_passes. apply in_app_iff. right. exact Hm. }
  change section_mappings
    with ((two_words (txt "employment") (txt "history"), work_experience)
          :: tl section_mappings).
  cbn [fold_left fst snd].
  apply later_passes_keep.
  { intros m Hm. unfold later_passes. apply in_app_iff. left. exact Hm. }
  apply heading_replaced. apply improve_keeps_heading. exact H.
Qed.

(** X6.  For every document that holds "Employment History"
    in any letter case with no word character (letter, digit, underscore)
    right before it and none right after it, the output of the rewrite
    holds "WORK EXPERIENCE". *)
Theorem delimited_employment_history_becomes_work_experience
  (a m b role industry : text) :
  lower m = txt "employment history" ->
  word_opt (last_error a) = false ->
  word_opt (hd_error b) = false ->
  contains (txt "WORK EXPERIENCE")
           (optimize_cv_text (a ++ m ++ b) role industry) = true.
Proof.
  intros Hm Ha Hb.
  destruct (rewrite_holds_work_experience (a ++ m ++ b) role industry)
    as (pre & post & E).
  - exists a, m, b. repeat split; assumption.
  - rewrite E. apply contains_app.
Qed.

Lemma delimited_employment_history_becomes_work_experience_witness :
  contains (txt "WORK EXPERIENCE")
           (optimize_cv_text
              (txt "My " ++ txt "Employment History" ++ txt ": none")
              [] []) = true.
Proof.
  apply delimited_employment_history_becomes_work_experience;
    vm_compute; reflexivity.
Defined.

(** Inside a longer word the phrase stays: "unemployment history" comes
    out of the rewrite as it went in. *)
Example unemployment_history_is_kept :
  optimize_cv_text (txt "unemployment history") [] []
  = txt "unemployment history".
Proof. vm_compute. reflexivity. Qed.

End Stage2.

(* ================================================================= *)
(** ** The section score *)

Module Sections.

Import CVAnalyzer.

(** The catalog names that occur in the lower-cased document. *)
Definition found_sections (cv_lower : text) : list text :=
  filter (fun section => contains section cv_lower) STANDARD_SECTIONS.

Lemma section_score_value (cv_lower : text) :
  _analyze_sections cv_lower
  = inject_Z (Z.min 100 (20 * Z.of_nat (length (found_sections cv_lower)))).
Proof.
  unfold _analyze_sections, found_sections.
  set (n := length (filter _ STANDARD_SECTIONS)).
  assert (H : n <= 15)
    by apply (ScoreBounds.filter_length_le _ STANDARD_SECTIONS).
  clearbody n.
  do 16 (destruct n as [|n]; [vm_compute; reflexivity|]).
  lia.
Qed.

(** X7.  The section score is exactly 20 for each catalog name that occurs
    in the lower-cased document, and 100 from five names on: the division
    and the product of floats lose nothing on any of the sixteen possible
    counts. *)
Theorem section_score_is_twenty_a_name (cv_lower : text) :
  _analyze_sections cv_lower
  = inject_Z (Z.min 100 (20 * Z.of_nat (length (found_sections cv_lower)))).
Proof. apply section_score_value. Qed.

End Sections.

(* ================================================================= *)
(** ** The keywords of the job description in the analysis *)

Module KeywordAnalysis.

Import CVAnalyzer KeywordFacts.

(** The words that [_analyze_keywords] reads in the job description. *)
Definition jd_words (job_description : text) : list text :=
  findall word_re (lower job_description).

(** Those that come more than twice, as first seen. *)
Definition important (job_description : text) : list text :=
  filter (fun w => 2 <? occurrences w (jd_words job_description))
         (first_seen (jd_words job_description)).

(** Those of them that the lower-cased document contains. *)
Definition found_keywords (cv_text job_description : text) : list text :=
  filter (fun w => contains w (lower cv_text)) (important job_description).

Lemma filter_map_comm {A B : Type} (p : B -> bool) (g : A -> B) (l : list A) :
  filter p (map g l) = map g (filter (fun x => p (g x)) l).
Proof.
  induction l as [|x l IH]; [reflexivity|]. cbn [map filter].
  destruct (p (g x)); cbn [map]; rewrite IH; reflexivity.
Qed.

Lemma analyze_keywords_shape (cv_text job_description : text) :
  _analyze_keywords cv_text job_description
  = (match important job_description with
     | [] => 50%Z
     | _ :: _ =>
         int_of (fmul (int_truediv
                         (Z.of_nat (length (found_keywords cv_text
                                                           job_description)))
                         (Z.of_nat (length (important job_description))))
                      (of_int 100))
     end,
     map (fun w => (w, count w (lower cv_text)))
         (found_keywords cv_text job_description)).
Proof.
  unfold _analyze_keywords, found_keywords, important, jd_words.
  destruct job_description as [|c jd]; [reflexivity|].
  cbv zeta. unfold word_freq_of. rewrite word_freq_first_seen.
  set (ws := findall word_re (lower (c :: jd))).
  rewrite !filter_map_comm. cbn [fst snd]. rewrite !map_map. cbn [fst].
  rewrite map_id. rewrite filter_filter. rewrite !length_map.
  destruct (filter (fun w => 2 <? occurrences w ws) (first_seen ws));
    reflexivity.
Qed.

Lemma first_seen_in (l : list text) (w : text) :
  In w (first_seen l) -> In w l.
Proof.
  induction l as [|x l IH]; cbn [first_seen]; [tauto|].
  intros [->|H]; [left; reflexivity|].
  right. apply filter_In in H. apply IH. tauto.
Qed.

Lemma first_seen_nodup (l : list text) : NoDup (first_seen l).
Proof.
  induction l as [|x l IH]; cbn [first_seen]; constructor.
  - intros H. apply filter_In in H. destruct H as [_ H].
    rewrite text_eqb_refl in H. discriminate.
  - apply NoDup_filter. assumption.
Qed.

Lemma important_long (job_description w : text) :
  In w (important job_description) -> 3 <= length w.
Proof.
  unfold important, jd_words. intros H. apply filter_In in H.
  destruct H as [H _]. apply first_seen_in in H.
  apply (findall_from_min_len word_re) in H. exact H.
Qed.

Lemma count_positive (w : text) :
  w <> [] -> forall s, contains w s = true -> 1 <= count w s.
Proof.
  intros Hw. unfold count.
  induction s as [|c s IH]; intros H.
  - destruct w; [contradiction|discriminate].
  - cbn [contains] in H. cbn [count_from].
    destruct (starts_with w (c :: s)); [lia|].
    apply IH. exact H.
Qed.

(** X8.  [keyword_analysis] holds exactly the words of the lower-cased job
    description that come more than twice and that the lower-cased
    document contains, each once, in the order in which the job
    description first shows them, each with the number of its occurrences
    in the document, which is at least 1. *)
Theorem keyword_analysis_holds_the_important_words_found
  (cv_text job_description : text) :
  let kws := keyword_analysis (analyze_cv cv_text job_description) in
  kws = map (fun w => (w, count w (lower cv_text)))
            (found_keywords cv_text job_description)
  /\ NoDup (map fst kws)
  /\ Forall (fun wn => 1 <= snd wn) kws.
Proof.
  unfold analyze_cv. rewrite analyze_keywords_shape.
  cbn [keyword_analysis]. split; [reflexivity|]. split.
  - rewrite map_map. cbn [fst]. rewrite map_id.
    unfold found_keywords, important.
    do 2 apply NoDup_filter. apply first_seen_nodup.
  - apply Forall_forall. intros [w n] H. apply in_map_iff in H.
    destruct H as (w' & E & H). injection E as -> <-. cbn [snd].
    unfold found_keywords in H. apply filter_In in H. destruct H as [Hi Hc].
    apply count_positive; [|exact Hc].
    apply important_long in Hi. destruct w; [cbn in Hi; lia|discriminate].
Qed.

Lemma int_truediv_same (p : positive) :
  int_truediv (Zpos p) (Zpos p) = 1%Q.
Proof.
  unfold int_truediv. unfold Qdiv, Qinv, Qmult, inject_Z, Qnum, Qden.
  cbn [Z.mul Pos.mul]. rewrite Pos.mul_1_r.
  unfold RN. cbn [Qnum Qden].
  unfold RNpos, ulp_exp, ilog2.
  rewrite Z.sub_diag. cbn [Z.leb Z.compare].
  change (2 ^ 0)%Z with 1%Z. rewrite Z.mul_1_r, Z.leb_refl.
  change (Z.max (0 - 52) emin) with (-52)%Z.
  cbn [Z.leb Z.compare Z.opp].
  unfold rne_div.
  rewrite (Z.mul_comm (Zpos p)), Z.div_mul, Z.mod_mul by discriminate.
  cbn [Z.mul]. change (0 <? Zpos p)%Z with true. cbv iota.
  vm_compute. reflexivity.
Qed.

(** X9.  The keyword score at its ends: it is the neutral 50 when no word
    of the job description comes more than twice, 100 when the document
    contains every such word, and 0 when it contains none of them. *)
Theorem keyword_score_extremes (cv_text job_description : text) :
  (important job_description = [] ->
   fst (_analyze_keywords cv_text job_description) = 50%Z)
  /\ (important job_description <> [] ->
      found_keywords cv_text job_description = important job_description ->
      fst (_analyze_keywords cv_text job_description) = 100%Z)
  /\ (important job_description <> [] ->
      found_keywords cv_text job_description = [] ->
      fst (_analyze_keywords cv_text job_description) = 0%Z).
Proof.
  rewrite analyze_keywords_shape. cbn [fst].
  repeat split.
  - intros ->. reflexivity.
  - intros Hne ->. destruct (important job_description) as [|w l];
      [contradiction|].
    cbn [length]. rewrite Nat2Z.inj_succ, <- Z.add_1_r.
    destruct (Z.of_nat (length l)) as [|p|p] eqn:E; try lia.
    + vm_compute. reflexivity.
    + replace (Zpos p + 1)%Z with (Zpos (p + 1)) by reflexivity.
      rewrite int_truediv_same. vm_compute. reflexivity.
  - intros Hne ->. destruct (important job_description) as [|w l];
      [contradiction|].
    cbn [length]. change (Z.of_nat 0) with 0%Z.
    unfold int_truediv, Qdiv, Qmult, RN. cbn [inject_Z Qnum Z.mul].
    vm_compute. reflexivity.
Qed.

Lemma keyword_score_extremes_witness :
  fst (_analyze_keywords (txt "Python and SQL")
                         (txt "python, Python; PYTHON")) = 100%Z.
Proof.
  apply (proj1 (proj2 (keyword_score_extremes
                         (txt "Python and SQL")
                         (txt "python, Python; PYTHON")))).
  - vm_compute. discriminate.
  - vm_compute. reflexivity.
Defined.

End KeywordAnalysis.

(* ================================================================= *)
(** ** Strengths, weaknesses and recommendations *)

Module Advice.

Import CVAnalyzer.

(** The document lacks one of the three sections that
    [_identify_weaknesses] looks for. *)
Definition lacks_a_section (cv_lower : text) : bool :=
  (negb (contains (txt "experience") cv_lower)
   && negb (contains (txt "employment") cv_lower))
  || negb (contains (txt "education") cv_lower)
  || negb (contains (txt "skills") cv_lower).

Definition formatting_advice : text :=
  txt "CRITICAL: Fix ATS formatting issues - use simple formatting, standard fonts, and avoid tables/columns".
Definition sections_advice : text :=
  txt "Add all essential sections: Professional Summary, Work Experience, Education, Skills, and relevant certifications".
Definition keywords_advice : text :=
  txt "Optimize keywords: Review the job description and naturally incorporate relevant terms and skills throughout your CV".
Definition verbs_advice : text :=
  txt "Strengthen impact: Replace weak phrases with strong action verbs (e.g., 'managed', 'developed', 'achieved', 'implemented')".
Definition numbers_advice : text :=
  txt "Add quantifiable achievements: Include specific numbers, percentages, and metrics to demonstrate impact (e.g., 'Increased sales by 25%')".
Definition tailoring_advice : text :=
  txt "Tailor your CV: Customize it for each application to match the specific job requirements and company culture".

Definition no_strength : text := txt "CV structure is present".
Definition no_weakness : text := txt "Minor improvements could be made".

Lemma existsb_or_default (f : text -> bool) (l : list text) (d : text) :
  f d = false -> existsb f (or_default l d) = existsb f l.
Proof.
  intros H. destruct l; [|reflexivity]. cbn. rewrite H. reflexivity.
Qed.

Lemma existsb_when (f : text -> bool) (b : bool) (s : text) :
  existsb f (when b s) = b && f s.
Proof. destruct b; cbn; [apply orb_false_r|reflexivity]. Qed.

Ltac eval_mentions :=
  cbv beta;
  repeat match goal with
         | |- context [contains ?a (lower ?b)] =>
             let v := eval vm_compute in (contains a (lower b)) in
             change (contains a (lower b)) with v
         end.

(** The weakness that counts the formatting issues. *)
Lemma concern_mentions_nothing (f : text -> bool) (issues : list text) :
  length issues <= 5 ->
  (forall n, n <= 5 ->
     f (txt "ATS formatting concerns: " ++ str_of_nat n
        ++ txt " issues detected") = false) ->
  existsb f
    match issues with
    | [] => []
    | _ :: _ =>
        [txt "ATS formatting concerns: " ++ str_of_nat (length issues)
         ++ txt " issues detected"]
    end = false.
Proof.
  intros Hlen Hf. destruct issues as [|x issues]; [reflexivity|].
  cbn [existsb]. rewrite Hf by assumption. reflexivity.
Qed.

Lemma weaknesses_mention_missing (cv_text cv_lower : text)
  (issues : list text) :
  length issues <= 5 ->
  existsb (fun w => contains (txt "missing") (lower w))
          (_identify_weaknesses cv_text cv_lower issues)
  = lacks_a_section cv_lower.
Proof.
  intros Hlen. unfold _identify_weaknesses, lacks_a_section. cbv zeta.
  rewrite existsb_or_default by (vm_compute; reflexivity).
  rewrite !existsb_app, !existsb_when.
  rewrite (concern_mentions_nothing _ issues Hlen)
    by (intros n Hn; do 6 (destruct n as [|n]; [vm_compute; reflexivity|]);
        lia).
  destruct (length (split_ws cv_text) <? 200);
    [|destruct (1000 <? length (split_ws cv_text))];
    cbn [existsb]; eval_mentions;
    rewrite ?andb_false_r, ?andb_true_r, ?orb_false_r;
    destruct (contains (txt "experience") cv_lower),
             (contains (txt "employment") cv_lower),
             (contains (txt "education") cv_lower),
             (contains (txt "skills") cv_lower); reflexivity.
Qed.

Lemma weaknesses_never_mention_quantified (cv_text cv_lower : text)
  (issues : list text) :
  length issues <= 5 ->
  existsb (fun s => contains (txt "quantified") (lower s))
          (_identify_weaknesses cv_text cv_lower issues)
  = false.
Proof.
  intros Hlen. unfold _identify_weaknesses. cbv zeta.
  rewrite existsb_or_default by (vm_compute; reflexivity).
  rewrite !existsb_app, !existsb_when.
  rewrite (concern_mentions_nothing _ issues Hlen)
    by (intros n Hn; do 6 (destruct n as [|n]; [vm_compute; reflexivity|]);
        lia).
  destruct (length (split_ws cv_text) <? 200);
    [|destruct (1000 <? length (split_ws cv_text))];
    cbn [existsb]; eval_mentions;
    rewrite ?andb_false_r; reflexivity.
Qed.

Lemma recommendations_shape (cv_text job_description : text) :
  let r := analyze_cv cv_text job_description in
  recommendations r
  = when (negb (length (formatting_issues r) =? 0)) formatting_advice
    ++ when (lacks_a_section (lower cv_text)) sections_advice
    ++ when (fst (_analyze_keywords cv_text job_description) <? 60)%Z
         keywords_advice
    ++ when (_analyze_action_verbs (lower cv_text) <? 50)%Z verbs_advice
    ++ [numbers_advice; tailoring_advice].
Proof.
  unfold analyze_cv.
  destruct (_analyze_keywords cv_text job_description) as [ks kws].
  cbv zeta. cbn [recommendations formatting_issues fst].
  unfold _generate_recommendations.
  rewrite weaknesses_mention_missing
    by apply ScoreBounds.formatting_issues_length.
  rewrite weaknesses_never_mention_quantified
    by apply ScoreBounds.formatting_issues_length.
  destruct (_check_formatting cv_text); reflexivity.
Qed.

(** X10.  The recommendations of an analysis, in their order: the
    formatting advice when an issue was found, the sections advice when
    the lower-cased document lacks the word experience and the word
    employment, or the word education, or the word skills, the keywords
    advice when the keyword score is below 60, the verbs advice when the
    action-verb score is below 50, and then, whatever the document, the
    advice to add numbers and the advice to tailor the CV: no weakness
    ever holds the word on which the source would leave the numbers
    advice out. *)
Theorem recommendations_of_analysis (cv_text job_description : text) :
  let r := analyze_cv cv_text job_description in
  recommendations r
  = when (negb (length (formatting_issues r) =? 0)) formatting_advice
    ++ when (lacks_a_section (lower cv_text)) sections_advice
    ++ when (fst (_analyze_keywords cv_text job_description) <? 60)%Z
         keywords_advice
    ++ when (_analyze_action_verbs (lower cv_text) <? 50)%Z verbs_advice
    ++ [numbers_advice; tailoring_advice].
Proof. apply recommendations_shape. Qed.

Lemma length_when (b : bool) (s : text) : length (when b s) <= 1.
Proof. destruct b; cbn; lia. Qed.

Lemma length_or_default (l : list text) (d : text) :
  1 <= length (or_default l d)
  /\ length (or_default l d) <= Nat.max 1 (length l).
Proof. destruct l; cbn [or_default length]; lia. Qed.

Lemma or_default_alone (l : list text) (d : text) :
  ~ In d l -> In d (or_default l d) -> or_default l d = [d].
Proof.
  intros Hn H. destruct l as [|x l]; [reflexivity|]. contradiction.
Qed.

Lemma in_when (b : bool) (s d : text) : In d (when b s) -> d = s.
Proof. destruct b; cbn; [intros [H|[]]; congruence|intros []]. Qed.

(** X11.  The three lists of an analysis are never empty: there are
    between 1 and 4 strengths, between 1 and 6 weaknesses and between 2
    and 6 recommendations; and the sentence that stands for no strength,
    or for no weakness, only ever comes alone. *)
Theorem analysis_lists_are_never_empty (cv_text job_description : text) :
  let r := analyze_cv cv_text job_description in
  1 <= length (strengths r) <= 4
  /\ 1 <= length (weaknesses r) <= 6
  /\ 2 <= length (recommendations r) <= 6
  /\ (In no_strength (strengths r) -> strengths r = [no_strength])
  /\ (In no_weakness (weaknesses r) -> weaknesses r = [no_weakness]).
Proof.
  unfold analyze_cv.
  destruct (_analyze_keywords cv_text job_description) as [ks kws].
  cbv zeta. cbn [strengths weaknesses recommendations].
  split; [|split; [|split; [|split]]].
  - unfold _identify_strengths. cbv zeta.
    match goal with |- context [or_default ?l ?d] =>
      pose proof (length_or_default l d) as [H1 H2];
      assert (length l <= 4); [|lia] end.
    rewrite !length_app.
    repeat match goal with |- context [length (when ?b ?s)] =>
      pose proof (length_when b s); generalize dependent (length (when b s));
      intros end.
    lia.
  - unfold _identify_weaknesses. cbv zeta.
    match goal with |- context [or_default ?l ?d] =>
      pose proof (length_or_default l d) as [H1 H2];
      assert (length l <= 6); [|lia] end.
    rewrite !length_app.
    repeat match goal with |- context [length (when ?b ?s)] =>
      pose proof (length_when b s); generalize dependent (length (when b s));
      intros end.
    destruct (length (split_ws cv_text) <? 200);
      [|destruct (1000 <? length (split_ws cv_text))];
      destruct (_check_formatting cv_text); cbn [length]; lia.
  - unfold _generate_recommendations.
    rewrite weaknesses_never_mention_quantified
      by apply ScoreBounds.formatting_issues_length.
    cbn [negb]. change (when true ?s) with [s].
    rewrite !length_app.
    repeat match goal with |- context [length (when ?b ?s)] =>
      pose proof (length_when b s); generalize dependent (length (when b s));
      intros end.
    cbn [length]. lia.
  - unfold _identify_strengths. cbv zeta. apply or_default_alone.
    rewrite !in_app_iff. intros H.
    repeat (destruct H as [H|H]); apply in_when in H; revert H;
      vm_compute; discriminate.
  - unfold _identify_weaknesses. cbv zeta. apply or_default_alone.
    rewrite !in_app_iff. intros H.
    repeat (destruct H as [H|H]);
      try (apply in_when in H; revert H; vm_compute; discriminate).
    + destruct (length (split_ws cv_text) <? 200);
        [|destruct (1000 <? length (split_ws cv_text))];
        cbn [In] in H; try tauto;
        destruct H as [H|[]]; revert H; vm_compute; discriminate.
    + destruct (_check_formatting cv_text); [destruct H|].
      destruct H as [H|[]]. revert H. unfold no_weakness.
      cbn [txt list_ascii_of_string app]. discriminate.
Qed.

End Advice.

(* ================================================================= *)
(** ** The empty document *)

Module EmptyDocument.

Import CVAnalyzer KeywordAnalysis.

Lemma contains_nil (w : text) : w <> [] -> contains w [] = false.
Proof. destruct w; [contradiction|reflexivity]. Qed.

Lemma found_keywords_nil (job_description : text) :
  found_keywords [] job_description = [].
Proof.
  unfold found_keywords.
  assert (H : forall w, In w (important job_description) -> 3 <= length w)
    by apply important_long.
  induction (important job_description) as [|w l IH]; [reflexivity|].
  cbn [filter lower map]. rewrite contains_nil.
  - apply IH. intros v Hv. apply H. right. exact Hv.
  - specialize (H w (or_introl eq_refl)). destruct w; [cbn in H; lia|discriminate].
Qed.

(** X12.  The analysis of the empty document, whatever the job
    description: no keyword and no formatting issue are found, the ATS
    score is 20 and the overall score 16, or 0 and 6 when some word of the
    job description comes more than twice; the strengths are the sentence
    that stands for none, the weaknesses are the three missing sections
    and the short length, and every recommendation but the formatting one
    is made. *)
Theorem analysis_of_the_empty_document (job_description : text) :
  analyze_cv [] job_description
  = mkResult
      (match important job_description with [] => 16 | _ :: _ => 6 end)%Z
      (match important job_description with [] => 20 | _ :: _ => 0 end)%Z
      [Advice.no_strength]
      [ txt "Missing work experience section";
        txt "Missing education section";
        txt "Missing skills section";
        txt "CV is too short - add more detail about achievements" ]
      [ Advice.sections_advice; Advice.keywords_advice; Advice.verbs_advice;
        Advice.numbers_advice; Advice.tailoring_advice ]
      [] [].
Proof.
  unfold analyze_cv. rewrite analyze_keywords_shape.
  rewrite found_keywords_nil.
  destruct (important job_description) as [|w l].
  - vm_compute. reflexivity.
  - cbn [length map]. change (Z.of_nat 0) with 0%Z.
    replace (int_truediv 0 (Z.of_nat (S (length l)))) with 0%Q.
    + vm_compute. reflexivity.
    + unfold int_truediv, Qdiv, Qmult, RN. cbn [inject_Z Qnum Z.mul].
      reflexivity.
Qed.

End EmptyDocument.

(* ================================================================= *)
(** ** Runs of one character *)

Module Runs.

(** The number of characters of the class [f] at the head of [s]. *)
Fixpoint run (f : ascii -> bool) (s : text) : nat :=
  match s with
  | c :: s' => if f c then S (run f s') else 0
  | [] => 0
  end.

(** Every run of at least [k] characters of the class [f] gives way to
    [repl]; [skip] counts the characters of the current run still to
    pass. *)
Fixpoint squeeze (f : ascii -> bool) (k : nat) (repl : text) (skip : nat)
  (s : text) : text :=
  match s with
  | [] => []
  | c :: s' =>
      match skip with
      | S n => squeeze f k repl n s'
      | O => if k <=? run f s
             then repl ++ squeeze f k repl (run f s - 1) s'
             else c :: squeeze f k repl 0 s'
      end
  end.

End Runs.
Import Runs.

Section RunMatches.

Variable f : ascii -> bool.

Lemma star_chr_head : forall fuel p s,
  run f s <= fuel ->
  exists q l, star_loop (ends (Chr f)) fuel p s = q :: l
              /\ taken q = run f s.
Proof.
  induction fuel as [|fuel IH]; intros p s H.
  - cbn [star_loop]. exists (mk_end 0 p s), []. split; [reflexivity|].
    cbn [taken]. lia.
  - cbn [star_loop]. destruct s as [|c s].
    + change (ends (Chr f) p []) with (@nil m_end).
      cbn [flat_map app]. exists (mk_end 0 p []), []. split; reflexivity.
    + change (ends (Chr f) p (c :: s))
        with (if f c then [mk_end 1 (Some c) s] else []).
      cbn [run] in *. destruct (f c).
      * cbn [flat_map taken last_char rest]. cbn [Nat.ltb Nat.leb].
        destruct (IH (Some c) s) as (q & l & E & T); [lia|].
        rewrite E. cbn [map app].
        eexists. eexists. split; [reflexivity|]. cbn [advance taken]. lia.
      * cbn [flat_map app]. exists (mk_end 0 p (c :: s)), [].
        split; reflexivity.
Qed.

Lemma run_le_length (s : text) : run f s <= length s.
Proof.
  induction s as [|c s IH]; cbn [run length]; [lia|].
  destruct (f c); lia.
Qed.

Lemma match_at_star_chr (p : option ascii) (s : text) :
  match_at (Star (Chr f)) p s = Some (run f s).
Proof.
  unfold match_at.
  change (ends (Star (Chr f)) p s)
    with (star_loop (ends (Chr f)) (length s) p s).
  destruct (star_chr_head (length s) p s (run_le_length s))
    as (q & l & E & T).
  rewrite E, T. reflexivity.
Qed.

Lemma match_at_seq_chr (r : regex) (p : option ascii) (s : text) :
  match_at (Seq (Chr f) r) p s
  = match s with
    | c :: s' =>
        if f c then option_map S (match_at r (Some c) s') else None
    | [] => None
    end.
Proof.
  unfold match_at.
  change (ends (Seq (Chr f) r) p s)
    with (flat_map
            (fun q => map (advance (taken q)) (ends r (last_char q) (rest q)))
            (ends (Chr f) p s)).
  destruct s as [|c s]; [reflexivity|].
  change (ends (Chr f) p (c :: s))
    with (if f c then [mk_end 1 (Some c) s] else []).
  destruct (f c); [|reflexivity].
  cbn [flat_map taken last_char rest]. rewrite app_nil_r.
  destruct (ends r (Some c) s); reflexivity.
Qed.

Lemma match_at_plus_chr (p : option ascii) (s : text) :
  match_at (Plus (Chr f)) p s
  = if 1 <=? run f s then Some (run f s) else None.
Proof.
  unfold Plus. rewrite match_at_seq_chr.
  destruct s as [|c s]; [reflexivity|]. cbn [run].
  destruct (f c); [|reflexivity].
  rewrite match_at_star_chr. reflexivity.
Qed.

Lemma match_at_atleast3_chr (p : option ascii) (s : text) :
  match_at (AtLeast3 (Chr f)) p s
  = if 3 <=? run f s then Some (run f s) else None.
Proof.
  unfold AtLeast3. rewrite match_at_seq_chr.
  destruct s as [|c1 s]; [reflexivity|]. cbn [run].
  destruct (f c1); [|reflexivity].
  rewrite match_at_seq_chr.
  destruct s as [|c2 s]; [reflexivity|]. cbn [run].
  destruct (f c2); [|reflexivity].
  rewrite match_at_seq_chr.
  destruct s as [|c3 s]; [reflexivity|]. cbn [run].
  destruct (f c3); [|reflexivity].
  rewrite match_at_star_chr. reflexivity.
Qed.

(** The substitution of a pattern that matches the runs of at least [k]
    characters of [f], and them only. *)
Lemma sub_from_squeeze (r : regex) (k : nat) (repl : text) :
  1 <= k ->
  (forall p s, match_at r p s
               = if k <=? run f s then Some (run f s) else None) ->
  forall s n p, sub_from r repl n p s = squeeze f k repl n s.
Proof.
  intros Hk Hm. induction s as [|c s IH]; intros n p.
  - cbn [sub_from squeeze]. rewrite Hm. cbn [run].
    destruct k; [lia|]. destruct n; reflexivity.
  - cbn [sub_from squeeze]. destruct n as [|n]; [|apply IH].
    rewrite Hm. destruct (k <=? run f (c :: s)) eqn:E.
    + apply Nat.leb_le in E.
      destruct (run f (c :: s)) as [|m]; [lia|].
      rewrite IH. rewrite Nat.sub_succ, Nat.sub_0_r. reflexivity.
    + rewrite IH. reflexivity.
Qed.

Lemma run_skipn (s : text) : run f (skipn (run f s) s) = 0.
Proof.
  induction s as [|c s IH]; [reflexivity|]. cbn [run].
  destruct (f c) eqn:E; cbn [skipn]; [exact IH|].
  cbn [run]. rewrite E. reflexivity.
Qed.

Lemma squeeze_skip (k : nat) (repl : text) : forall s n,
  n <= length s ->
  squeeze f k repl n s = squeeze f k repl 0 (skipn n s).
Proof.
  induction s as [|c s IH]; intros n H.
  - destruct n; reflexivity.
  - destruct n as [|n]; [reflexivity|].
    cbn [squeeze skipn]. apply IH. cbn [length] in H. lia.
Qed.

(** One step of [squeeze] at the head of a run that is long enough. *)
Lemma squeeze_run (k : nat) (repl : text) (c : ascii) (s : text) :
  k <= run f (c :: s) -> 1 <= k ->
  squeeze f k repl 0 (c :: s)
  = repl ++ squeeze f k repl 0 (skipn (run f s) s).
Proof.
  intros H Hk. cbn [squeeze].
  apply Nat.leb_le in H. rewrite H.
  apply Nat.leb_le in H. cbn [run] in *.
  destruct (f c); [|lia].
  rewrite Nat.sub_succ, Nat.sub_0_r.
  rewrite squeeze_skip by apply run_le_length. reflexivity.
Qed.

Lemma squeeze_short (k : nat) (repl : text) (c : ascii) (s : text) :
  run f (c :: s) < k ->
  squeeze f k repl 0 (c :: s) = c :: squeeze f k repl 0 s.
Proof.
  intros H. cbn [squeeze]. apply Nat.leb_gt in H. rewrite H. reflexivity.
Qed.

Lemma squeeze_head_outside (k : nat) (repl : text) (s : text) :
  1 <= k -> run f s = 0 -> run f (squeeze f k repl 0 s) = 0.
Proof.
  intros Hk H. destruct s as [|c s]; [reflexivity|].
  rewrite squeeze_short by lia. cbn [run] in *.
  destruct (f c); [discriminate|reflexivity].
Qed.

End RunMatches.

Section Repeats.

Variable x : ascii.

Lemma starts_with_repeat (k : nat) : forall s,
  starts_with (repeat x k) s = (k <=? run (eqc x) s).
Proof.
  induction k as [|k IH]; intros s; [reflexivity|].
  cbn [repeat starts_with]. destruct s as [|c s]; [reflexivity|].
  cbn [run]. destruct (eqc x c); [|reflexivity].
  cbn [andb]. rewrite IH. reflexivity.
Qed.

Lemma contains_cons (w : text) (c : ascii) (s : text) :
  contains w (c :: s) = starts_with w (c :: s) || contains w s.
Proof. reflexivity. Qed.

Lemma contains_skipn (w : text) : forall n s,
  contains w s = false -> contains w (skipn n s) = false.
Proof.
  induction n as [|n IH]; intros s H; [exact H|].
  destruct s as [|c s]; [exact H|].
  cbn [skipn]. apply IH. rewrite contains_cons in H.
  apply orb_false_iff in H. tauto.
Qed.

Lemma eqc_eq (a b : ascii) : eqc a b = true -> a = b.
Proof. apply Ascii.eqb_eq. Qed.

Lemma eqc_refl (a : ascii) : eqc a a = true.
Proof. apply Ascii.eqb_refl. Qed.

Lemma run_repeat_app (j : nat) (t : text) :
  run (eqc x) t = 0 -> run (eqc x) (repeat x j ++ t) = j.
Proof.
  intros R. induction j as [|j IH]; [exact R|].
  cbn [repeat app run]. rewrite eqc_refl, IH. reflexivity.
Qed.

(** What [squeeze] leaves at the head of a text. *)
Lemma squeeze_run_exact (k j : nat) : 1 <= k ->
  forall s,
    run (eqc x) (squeeze (eqc x) k (repeat x j) 0 s)
    = if k <=? run (eqc x) s then j else run (eqc x) s.
Proof.
  intros Hk. induction s as [|c s IH].
  - cbn [squeeze run]. destruct k; [lia|reflexivity].
  - destruct (le_lt_dec k (run (eqc x) (c :: s))) as [H|H].
    + rewrite squeeze_run by assumption.
      rewrite run_repeat_app
        by (apply squeeze_head_outside; [assumption|apply run_skipn]).
      apply Nat.leb_le in H. rewrite H. reflexivity.
    + rewrite squeeze_short by assumption.
      pose proof H as H'. apply Nat.leb_gt in H'. rewrite H'.
      cbn [run] in *. destruct (eqc x c); [|reflexivity].
      rewrite IH. assert (E : (k <=? run (eqc x) s) = false)
        by (apply Nat.leb_gt; lia).
      rewrite E. reflexivity.
Qed.

Lemma contains_repeat_app (k j : nat) (t : text) :
  j < k -> run (eqc x) t = 0 ->
  contains (repeat x k) t = false ->
  contains (repeat x k) (repeat x j ++ t) = false.
Proof.
  intros Hj R C. induction j as [|j IH]; [exact C|].
  cbn [repeat app]. rewrite contains_cons.
  rewrite IH by lia. rewrite orb_false_r.
  change (x :: repeat x j ++ t) with (repeat x (S j) ++ t).
  rewrite starts_with_repeat, run_repeat_app by assumption.
  apply Nat.leb_gt. lia.
Qed.

Lemma squeeze_no_run (k j m : nat) : 1 <= k -> j < m -> k <= m ->
  forall n s, length s <= n ->
    contains (repeat x m) (squeeze (eqc x) k (repeat x j) 0 s) = false.
Proof.
  intros Hk Hj Hm. induction n as [|n IH]; intros s Hn.
  - destruct s; [|cbn [length] in Hn; lia].
    destruct m; [lia|reflexivity].
  - destruct s as [|c s]; [destruct m; [lia|reflexivity]|].
    cbn [length] in Hn.
    destruct (le_lt_dec k (run (eqc x) (c :: s))) as [H|H].
    + rewrite squeeze_run by assumption.
      apply contains_repeat_app; [assumption| |].
      * apply squeeze_head_outside; [assumption|apply run_skipn].
      * apply IH. rewrite length_skipn. lia.
    + pose proof (squeeze_run_exact k j Hk (c :: s)) as B.
      pose proof H as H'. apply Nat.leb_gt in H'. rewrite H' in B.
      rewrite squeeze_short in * by assumption.
      rewrite contains_cons, IH by lia. rewrite orb_false_r.
      rewrite starts_with_repeat. apply Nat.leb_gt. lia.
Qed.

Lemma squeeze_fixed (k j : nat) : forall s,
  contains (repeat x k) s = false ->
  squeeze (eqc x) k (repeat x j) 0 s = s.
Proof.
  induction s as [|c s IH]; intros H; [reflexivity|].
  rewrite contains_cons in H. apply orb_false_iff in H.
  destruct H as [H1 H2]. rewrite starts_with_repeat in H1.
  apply Nat.leb_gt in H1.
  rewrite squeeze_short by assumption. rewrite IH by assumption.
  reflexivity.
Qed.

(** A run of exactly one [x] gives way to one [x]: nothing changes. *)
Lemma squeeze_one_fixed : forall s,
  contains [x; x] s = false -> squeeze (eqc x) 1 [x] 0 s = s.
Proof.
  induction s as [|c s IH]; intros H; [reflexivity|].
  rewrite contains_cons in H. apply orb_false_iff in H.
  destruct H as [H1 H2].
  change [x; x] with (repeat x 2) in H1.
  rewrite starts_with_repeat in H1. apply Nat.leb_gt in H1.
  cbn [squeeze]. cbn [run] in *. destruct (eqc x c) eqn:E.
  - cbn [Nat.leb]. apply eqc_eq in E. subst c.
    assert (R : run (eqc x) s = 0) by lia. rewrite R.
    cbn [Nat.sub app]. rewrite IH by assumption. reflexivity.
  - cbn [Nat.leb]. rewrite IH by assumption. reflexivity.
Qed.

(** [squeeze] of the runs of [x] brings no two [y] together. *)
Lemma squeeze_keeps_apart (y : ascii) (k j : nat) :
  1 <= k -> 1 <= j -> eqc y x = false ->
  forall n s, length s <= n ->
    contains [y; y] s = false ->
    contains [y; y] (squeeze (eqc x) k (repeat x j) 0 s) = false
    /\ hd_error (squeeze (eqc x) k (repeat x j) 0 s) = hd_error s.
Proof.
  intros Hk Hj Hxy. induction n as [|n IH]; intros s Hn C.
  - destruct s; [|cbn [length] in Hn; lia]. split; reflexivity.
  - destruct s as [|c s]; [split; reflexivity|].
    cbn [length] in Hn.
    destruct (le_lt_dec k (run (eqc x) (c :: s))) as [H|H].
    + rewrite squeeze_run by assumption.
      assert (Hc : c = x).
      { cbn [run] in H. destruct (eqc x c) eqn:E; [|lia].
        symmetry. apply eqc_eq. exact E. }
      subst c.
      destruct (IH (skipn (run (eqc x) s) s)) as [C' _].
      { rewrite length_skipn. lia. }
      { apply contains_skipn. rewrite contains_cons in C.
        apply orb_false_iff in C. tauto. }
      revert C'.
      generalize (squeeze (eqc x) k (repeat x j) 0
                          (skipn (run (eqc x) s) s)).
      intros t C'. split.
      * clear - C' Hxy. induction j as [|j IHj]; [exact C'|].
        cbn [repeat app]. rewrite contains_cons, IHj.
        cbn [starts_with]. rewrite Hxy. reflexivity.
      * destruct j; [lia|]. reflexivity.
    + rewrite squeeze_short by assumption.
      rewrite contains_cons in C. apply orb_false_iff in C.
      destruct C as [C1 C2].
      destruct (IH s ltac:(lia) C2) as [C' Hd].
      split; [|reflexivity].
      rewrite contains_cons, C', orb_false_r.
      cbn [starts_with] in *. destruct (eqc y c); [|reflexivity].
      cbn [andb] in *.
      destruct (squeeze (eqc x) k (repeat x j) 0 s) as [|d t];
        [reflexivity|].
      destruct s as [|d' s]; [discriminate|].
      cbn [hd_error] in Hd. injection Hd as ->. exact C1.
Qed.

End Repeats.

(* ================================================================= *)
(** ** The cleaning of the formatting *)

Module Cleaning.

Import CVOptimizer.

Definition two_spaces : text := txt "  ".
Definition three_newlines : text := [newline; newline; newline].

Lemma match_at_chr (f : ascii -> bool) (p : option ascii) (s : text) :
  match_at (Chr f) p s
  = match s with
    | c :: _ => if f c then Some 1 else None
    | [] => None
    end.
Proof.
  unfold match_at. cbn [ends]. destruct s as [|c s]; [reflexivity|].
  destruct (f c); reflexivity.
Qed.

(** A class without a character never matches. *)
Lemma sub_from_chr_none (f : ascii -> bool) (repl : text) :
  (forall c, f c = false) ->
  forall s p, sub_from (Chr f) repl 0 p s = s.
Proof.
  intros Hf. induction s as [|c s IH]; intros p.
  - reflexivity.
  - cbn [sub_from]. rewrite match_at_chr, Hf, IH. reflexivity.
Qed.

(** A character that gives way to itself. *)
Lemma sub_from_chr_same (c0 : ascii) :
  forall s p, sub_from (chr c0) [c0] 0 p s = s.
Proof.
  induction s as [|c s IH]; intros p.
  - reflexivity.
  - cbn [sub_from]. unfold chr at 1. rewrite match_at_chr.
    destruct (eqc c0 c) eqn:E; rewrite IH; [|reflexivity].
    apply Ascii.eqb_eq in E. subst c. reflexivity.
Qed.

Lemma clean_formatting_plain (t : text) :
  _clean_formatting t
  = squeeze (eqc newline) 3 [newline; newline] 0
            (squeeze (eqc " "%char) 1 (txt " ") 0 t).
Proof.
  unfold _clean_formatting, cleanings. cbn [fold_left fst snd]. unfold sub.
  rewrite (sub_from_chr_none fancy_bullet) by reflexivity.
  rewrite (sub_from_chr_none em_dash) by reflexivity.
  rewrite !sub_from_chr_same.
  unfold chr.
  rewrite (sub_from_squeeze (eqc " "%char) (Plus (Chr (eqc " "%char))) 1)
    by (try lia; intros; apply match_at_plus_chr).
  rewrite (sub_from_squeeze (eqc newline) (AtLeast3 (Chr (eqc newline))) 3)
    by (try lia; intros; apply match_at_atleast3_chr).
  reflexivity.
Qed.

Lemma cleaned_has_no_runs (t : text) :
  contains two_spaces (_clean_formatting t) = false
  /\ contains three_newlines (_clean_formatting t) = false.
Proof.
  rewrite clean_formatting_plain. split.
  - refine (proj1 (squeeze_keeps_apart newline " "%char 3 2 _ _ _ _ _
                                       (Nat.le_refl _) _));
      [lia|lia|reflexivity|].
    apply (squeeze_no_run " "%char 1 1 2 ltac:(lia) ltac:(lia) ltac:(lia)
                          _ _ (Nat.le_refl _)).
  - apply (squeeze_no_run newline 3 2 3 ltac:(lia) ltac:(lia) ltac:(lia)
                          _ _ (Nat.le_refl _)).
Qed.

Lemma clean_fixed (t : text) :
  contains two_spaces t = false -> contains three_newlines t = false ->
  _clean_formatting t = t.
Proof.
  intros H2 H3. rewrite clean_formatting_plain.
  rewrite (squeeze_one_fixed " "%char) by exact H2.
  apply (squeeze_fixed newline 3 2). exact H3.
Qed.

(** X13.  Whatever the text, the cleaned text holds no two spaces in a
    row and no three line breaks in a row; so does the text that
    [optimize_cv_text] returns, of which the cleaning is the last
    stage. *)
Theorem cleaned_text_has_no_runs (t target_role industry : text) :
  contains two_spaces (_clean_formatting t) = false
  /\ contains three_newlines (_clean_formatting t) = false
  /\ contains two_spaces (optimize_cv_text t target_role industry) = false
  /\ contains three_newlines (optimize_cv_text t target_role industry)
     = false.
Proof.
  unfold optimize_cv_text.
  destruct (cleaned_has_no_runs t).
  destruct (cleaned_has_no_runs (_standardize_sections
                                   (_improve_weak_phrases t))).
  auto.
Qed.

(** X14.  On the characters up to U+00FF the cleaning changes a text
    exactly when the text holds two spaces in a row or three line breaks
    in a row; hence a second cleaning, and a second run of
    [optimize_cv_text]'s last stage, changes nothing. *)
Theorem clean_formatting_fixed_points (t : text) :
  (_clean_formatting t = t
   <-> contains two_spaces t = false /\ contains three_newlines t = false)
  /\ _clean_formatting (_clean_formatting t) = _clean_formatting t.
Proof.
  split.
  - split.
    + intros E. rewrite <- E. apply cleaned_has_no_runs.
    + intros [H2 H3]. apply clean_fixed; assumption.
  - destruct (cleaned_has_no_runs t). apply clean_fixed; assumption.
Qed.

Example cleaning_of_runs :
  _clean_formatting
    ([ "a"; " "; " "; " "; "b"; newline; newline; newline; newline; " ";
       "c"; newline; newline; "d" ])%char
  = ([ "a"; " "; "b"; newline; newline; " "; "c"; newline; newline;
       "d" ])%char.
Proof. vm_compute. reflexivity. Qed.

End Cleaning.

(* ================================================================= *)
(** ** The suggested keywords *)

Module Suggestions.

Import CVOptimizer.

Lemma industry_keywords_cases (industry_lower : text) :
  In (industry_keywords industry_lower INDUSTRY_KEYWORDS)
     ([] :: map snd INDUSTRY_KEYWORDS).
Proof.
  unfold INDUSTRY_KEYWORDS. cbn [industry_keywords map snd].
  repeat match goal with
         | |- context [if contains ?a industry_lower then _ else _] =>
             destruct (contains a industry_lower)
         end;
    cbn [In]; tauto.
Qed.

(** X15.  The list that [suggest_keywords] turns into a set never holds a
    keyword twice, whatever the industry and the role: the set forgets
    the order and nothing else, and the number of keywords returned is
    the number of those of the industry plus the number of those of the
    role. *)
Theorem suggested_keywords_are_all_kept (industry role : text) :
  NoDup (collected_keywords industry role)
  /\ length (suggest_keywords industry role)
     = length (industry_keywords (lower industry) INDUSTRY_KEYWORDS)
       + length (role_keywords role).
Proof.
  assert (H : nodup text_eq_dec (collected_keywords industry role)
              = collected_keywords industry role).
  { unfold collected_keywords.
    pose proof (industry_keywords_cases (lower industry)) as Hi.
    revert Hi.
    generalize (industry_keywords (lower industry) INDUSTRY_KEYWORDS).
    intros l Hi. unfold role_keywords.
    destruct role as [|c role']; cbv zeta;
      repeat match goal with
             | |- context [contains ?a (lower (c :: role'))] =>
                 destruct (contains a (lower (c :: role')))
             end;
      cbn [orb app];
      cbn [INDUSTRY_KEYWORDS map snd In] in Hi;
      repeat (destruct Hi as [<-|Hi]; [vm_compute; reflexivity|]);
      contradiction. }
  split.
  - rewrite <- H. apply NoDup_nodup.
  - unfold suggest_keywords. rewrite H. unfold collected_keywords.
    apply length_app.
Qed.

(** X16.  The industry is the first of the catalog, in the order of
    declaration, whose name the lower-cased argument contains: when
    every entry before [(ind, kws)] fails and [ind] occurs, the keywords
    returned are those of [kws] and those of the role, whatever other
    names of industries the argument holds. *)
Theorem first_matching_industry_wins
  (industry role ind : text) (kws : list text)
  (before after : list (text * list text)) :
  INDUSTRY_KEYWORDS = before ++ (ind, kws) :: after ->
  forallb (fun entry => negb (contains (fst entry) (lower industry))) before
  = true ->
  contains ind (lower industry) = true ->
  forall kw, In kw (suggest_keywords industry role)
             <-> In kw kws \/ In kw (role_keywords role).
Proof.
  intros Hcat Hbefore Hind kw. unfold suggest_keywords.
  rewrite nodup_In. unfold collected_keywords. rewrite in_app_iff.
  rewrite Hcat. clear Hcat.
  induction before as [|[ind' kws'] before IH].
  - cbn [app industry_keywords]. rewrite Hind. tauto.
  - cbn [forallb fst] in Hbefore. apply andb_true_iff in Hbefore.
    destruct Hbefore as [H1 H2]. apply negb_true_iff in H1.
    cbn [app industry_keywords]. rewrite H1. apply IH. exact H2.
Qed.

Lemma first_matching_industry_wins_witness :
  In (txt "docker")
     (suggest_keywords (txt "Sales of Software") (txt "Senior Developer"))
  /\ (In (txt "crm")
          (suggest_keywords (txt "Sales of Software")
                            (txt "Senior Developer"))
      -> False).
Proof.
  pose proof (first_matching_industry_wins
                (txt "Sales of Software") (txt "Senior Developer")
                (txt "software") _ [] (tl INDUSTRY_KEYWORDS)
                eq_refl eq_refl eq_refl) as H.
  split.
  - apply H. left. cbn [In]. tauto.
  - intros K. apply H in K. vm_compute in K.
    destruct K as [K|K];
      repeat (destruct K as [K|K]; [discriminate K|]); exact K.
Defined.

End Suggestions.

(* ================================================================= *)
(** ** The professional summary *)

Module Summary.

Import CVOptimizer.

(** X19.  The summary reads the first four skills and the first
    achievement only: the skills after the fourth and the achievements
    after the first change nothing, and an empty list of achievements is
    as good as none. *)
Theorem summary_reads_four_skills_and_one_achievement
  (years_experience : Z) (role : text) (key_skills : list text)
  (achievements : option (list text)) :
  generate_professional_summary years_experience role key_skills achievements
  = generate_professional_summary years_experience role
      (firstn 4 key_skills)
      (match achievements with
       | Some (a :: _) => Some [a]
       | Some [] | None => None
       end).
Proof.
  unfold generate_professional_summary. cbv zeta.
  destruct key_skills as [|s1 [|s2 [|s3 [|s4 skills]]]];
    destruct achievements as [[|a l]|]; reflexivity.
Qed.

End Summary.

(* ================================================================= *)
(** ** The tips *)

Module Tips.

Import CVAgent.

Lemma lower_char_idempotent (c : ascii) :
  lower_char (lower_char c) = lower_char c.
Proof.
  destruct c as [[] [] [] [] [] [] [] []]; vm_compute; reflexivity.
Qed.

Lemma lower_idempotent (s : text) : lower (lower s) = lower s.
Proof.
  unfold lower. rewrite map_map. apply map_ext.
  intros c. apply lower_char_idempotent.
Qed.

(** X22.  [get_improvement_tips] reads the category without regard to
    letter case, answers every category that is not one of its five with
    the general tips, and always returns one of its five lists, of five
    or six tips. *)
Theorem tips_for_every_category (category : text) :
  get_improvement_tips (lower category) = get_improvement_tips category
  /\ (CVOptimizer.mem (lower category) (map fst tips) = false ->
      get_improvement_tips category = general_tips)
  /\ In (get_improvement_tips category) (map snd tips)
  /\ 5 <= length (get_improvement_tips category) <= 6.
Proof.
  unfold get_improvement_tips. rewrite lower_idempotent.
  generalize (lower category). intros key.
  assert (Hin : In (get tips key general_tips) (map snd tips)).
  { unfold tips. cbn [get map snd].
    repeat match goal with
           | |- context [if text_eqb ?a key then _ else _] =>
               destruct (text_eqb a key)
           end; cbn [In]; tauto. }
  split; [reflexivity|]. split; [|split; [exact Hin|]].
  - unfold CVOptimizer.mem, tips. cbn [map fst existsb get].
    rewrite !(text_eqb_sym key).
    repeat match goal with
           | |- context [if text_eqb ?a key then _ else _] =>
               destruct (text_eqb a key)
           end; cbn [orb]; try discriminate; reflexivity.
  - revert Hin. generalize (get tips key general_tips). intros l Hin.
    cbn [tips map snd In] in Hin.
    repeat (destruct Hin as [<-|Hin]; [cbn [length general_tips]; lia|]).
    contradiction.
Qed.

End Tips.

(* ================================================================= *)
(** ** The enhancement of an achievement *)

Module Enhancement.

Import CVOptimizer.

(** No white space at the head of the text. *)
Definition edge_ok (e : text) : bool :=
  match e with
  | [] => true
  | c :: _ => negb (is_space c)
  end.

(** No white space at either end. *)
Definition trimmed (e : text) : Prop :=
  edge_ok e = true /\ edge_ok (rev e) = true.

(** The first half of [enhance_achievements]: the leading weak phrase. *)
Definition replace_leading (enhanced : text) : text :=
  match leading_weak_phrase enhanced with
  | Some (weak, strong_options) =>
      capitalize (first_option strong_options)
      ++ skipn (length weak) enhanced
  | None => enhanced
  end.

(** The second half: the first character. *)
Definition raise_first (enhanced : text) : option text :=
  match enhanced with
  | c :: enhanced' =>
      if negb (is_upper c)
      then match str_upper c with
           | Some u => Some (u ++ enhanced')
           | None => None
           end
      else Some enhanced
  | [] => Some enhanced
  end.

(** What [str_upper] gives for a character that is not white space and
    not upper-case: a text that begins and ends without white space,
    whose lower-case form is that of the character or begins with s,
    and whose first character is upper-case or is the whole of it and
    its own upper-case form. *)
Definition upper_ok (c : ascii) : bool :=
  match str_upper c with
  | None => true
  | Some [] => false
  | Some (x :: up') =>
      implb (negb (is_space c)) (edge_ok (x :: up') && edge_ok (rev (x :: up')))
      && (text_eqb (lower (x :: up')) [lower_char c]
          || eqc (lower_char x) "s"%char)
      && (is_upper x
          || (match up' with [] => true | _ :: _ => false end
              && match str_upper x with
                 | Some [y] => eqc y x
                 | _ => false
                 end
              && negb (is_upper x)))
  end.

End Enhancement.
Import Enhancement.

Section Strip.

Lemma lstrip_edge (s : text) : edge_ok (lstrip s) = true.
Proof.
  induction s as [|c s IH]; [reflexivity|]. cbn [lstrip].
  destruct (is_space c) eqn:E; [exact IH|]. cbn [edge_ok]. rewrite E.
  reflexivity.
Qed.

Lemma lstrip_fixed (s : text) : edge_ok s = true -> lstrip s = s.
Proof.
  destruct s as [|c s]; [reflexivity|]. cbn [edge_ok lstrip].
  destruct (is_space c); [discriminate|reflexivity].
Qed.

Lemma lstrip_suffix (s : text) : exists pre, s = pre ++ lstrip s.
Proof.
  induction s as [|c s [pre IH]]; [exists []; reflexivity|].
  cbn [lstrip]. destruct (is_space c).
  - exists (c :: pre). cbn [app]. f_equal. exact IH.
  - exists []. reflexivity.
Qed.

Lemma edge_ok_app (a b : text) :
  a <> [] -> edge_ok (a ++ b) = edge_ok a.
Proof. destruct a; [contradiction|reflexivity]. Qed.

Lemma strip_trimmed (t : text) : trimmed (strip t).
Proof.
  unfold trimmed, strip. rewrite rev_involutive. split; [|apply lstrip_edge].
  destruct (lstrip_suffix (rev (lstrip t))) as [pre E].
  destruct (lstrip (rev (lstrip t))) as [|c l] eqn:L; [reflexivity|].
  apply (f_equal (@rev ascii)) in E. rewrite rev_involutive, rev_app_distr in E.
  pose proof (lstrip_edge t) as H. rewrite E in H.
  rewrite edge_ok_app in H; [exact H|].
  intros N. apply (f_equal (@length ascii)) in N.
  rewrite length_rev in N. discriminate.
Qed.

Lemma strip_fixed (e : text) : trimmed e -> strip e = e.
Proof.
  intros [H1 H2]. unfold strip.
  rewrite (lstrip_fixed e H1), (lstrip_fixed (rev e) H2).
  apply rev_involutive.
Qed.

Lemma trimmed_app (a b : text) :
  a <> [] -> edge_ok a = true -> edge_ok (rev a) = true ->
  (b <> [] -> edge_ok (rev b) = true) ->
  trimmed (a ++ b).
Proof.
  intros Ha H1 H2 Hb. split.
  - rewrite edge_ok_app by assumption. exact H1.
  - rewrite rev_app_distr. destruct b as [|c b].
    + exact H2.
    + rewrite edge_ok_app; [apply Hb; discriminate|].
      intros N. apply (f_equal (@length ascii)) in N.
      rewrite length_rev in N. discriminate.
Qed.

Lemma edge_rev_skipn (e : text) (n : nat) :
  edge_ok (rev e) = true -> skipn n e <> [] ->
  edge_ok (rev (skipn n e)) = true.
Proof.
  intros H Hn. rewrite <- (firstn_skipn n e), rev_app_distr in H.
  rewrite edge_ok_app in H; [exact H|].
  intros N. apply Hn. apply (f_equal (@rev ascii)) in N.
  rewrite rev_involutive in N. exact N.
Qed.

Lemma edge_rev_tail (c : ascii) (e : text) :
  edge_ok (rev (c :: e)) = true -> e <> [] -> edge_ok (rev e) = true.
Proof. intros H Hn. apply (edge_rev_skipn (c :: e) 1); assumption. Qed.

End Strip.

Section Enhance.

Import CVOptimizer.

Lemma enhance_in_two (t : text) :
  enhance_achievements t = raise_first (replace_leading (strip t)).
Proof.
  unfold enhance_achievements, replace_leading, raise_first.
  destruct (leading_weak_phrase (strip t)) as [[weak strong_options]|];
    reflexivity.
Qed.

Lemma upper_ok_all (c : ascii) : upper_ok c = true.
Proof.
  destruct c as [[] [] [] [] [] [] [] []]; vm_compute; reflexivity.
Qed.

Lemma starts_with_both (a b : text) : forall s,
  starts_with a s = true -> starts_with b s = true ->
  starts_with a b || starts_with b a = true.
Proof.
  revert b. induction a as [|x a IH]; intros b s Ha Hb; [reflexivity|].
  destruct b as [|y b]; [apply orb_true_r|].
  destruct s as [|c s]; [discriminate|].
  cbn [starts_with] in *.
  apply andb_true_iff in Ha. destruct Ha as [Ha1 Ha2].
  apply andb_true_iff in Hb. destruct Hb as [Hb1 Hb2].
  apply Ascii.eqb_eq in Ha1, Hb1. subst x y.
  unfold eqc. rewrite Ascii.eqb_refl. cbn [andb].
  eapply IH; eassumption.
Qed.

(** No weak phrase of the catalog begins another. *)
Lemma one_leading_phrase (e1 e2 : text * text) (s : text) :
  In e1 PHRASE_IMPROVEMENTS -> In e2 PHRASE_IMPROVEMENTS ->
  starts_with (fst e1) s = true -> starts_with (fst e2) s = true ->
  e1 = e2.
Proof.
  intros H1 H2 S1 S2.
  pose proof (starts_with_both _ _ _ S1 S2) as H. clear S1 S2.
  unfold PHRASE_IMPROVEMENTS in H1, H2. cbn [In] in H1, H2.
  repeat (destruct H1 as [<-|H1]; [|]); try contradiction;
    repeat (destruct H2 as [<-|H2]; [|]); try contradiction;
    try reflexivity; vm_compute in H; discriminate.
Qed.

Lemma find_the_one {A : Type} (p : A -> bool) (x : A) : forall l,
  In x l -> p x = true ->
  (forall y, In y l -> p y = true -> y = x) ->
  find p l = Some x.
Proof.
  induction l as [|y l IH]; intros Hin Hp Hu; [destruct Hin|].
  cbn [find]. destruct (p y) eqn:E.
  - f_equal. apply Hu; [left; reflexivity|exact E].
  - destruct Hin as [->|Hin]; [congruence|].
    apply IH; [assumption|assumption|].
    intros z Hz. apply Hu. right. exact Hz.
Qed.

Lemma lower_app (a b : text) : lower (a ++ b) = lower a ++ lower b.
Proof. apply map_app. Qed.

Lemma leading_found (m rest : text) (entry : text * text) :
  In entry PHRASE_IMPROVEMENTS -> lower m = fst entry ->
  leading_weak_phrase (m ++ rest) = Some entry.
Proof.
  intros Hin Hm. unfold leading_weak_phrase.
  assert (S : starts_with (fst entry) (lower (m ++ rest)) = true)
    by (rewrite lower_app, Hm; apply starts_with_app).
  apply find_the_one; [assumption|exact S|].
  intros y Hy Sy. eapply one_leading_phrase; eassumption.
Qed.

(** The capitalized first alternatives: each begins with an upper-case
    letter, has no white space at its ends, and begins no text that a
    weak phrase begins, letter case apart. *)
Lemma capitalized_alternative (entry : text * text) :
  In entry PHRASE_IMPROVEMENTS ->
  exists C tl,
    capitalize (first_option (snd entry)) = C :: tl
    /\ is_upper C = true
    /\ edge_ok (C :: tl) = true /\ edge_ok (rev (C :: tl)) = true
    /\ forall rest, leading_weak_phrase ((C :: tl) ++ rest) = None.
Proof.
  unfold PHRASE_IMPROVEMENTS. cbn [In]. intros H.
  repeat (destruct H as [<-|H];
          [eexists; eexists; split; [vm_compute; reflexivity|];
           repeat split; try (vm_compute; reflexivity);
           intros rest; vm_compute; reflexivity|]).
  contradiction.
Qed.

Lemma raise_first_capital (C : ascii) (tl : text) :
  is_upper C = true -> raise_first (C :: tl) = Some (C :: tl).
Proof. intros H. cbn [raise_first]. rewrite H. reflexivity. Qed.

Lemma replace_leading_when_found (m rest : text) (entry : text * text) :
  In entry PHRASE_IMPROVEMENTS -> lower m = fst entry ->
  replace_leading (m ++ rest)
  = capitalize (first_option (snd entry)) ++ rest.
Proof.
  intros Hin Hm. unfold replace_leading.
  rewrite (leading_found m rest entry Hin Hm).
  destruct entry as [weak strong_options]. cbn [fst snd] in *.
  rewrite skipn_exact; [reflexivity|].
  rewrite <- Hm. symmetry. apply lower_length.
Qed.

Lemma leading_in_catalog (e : text) (entry : text * text) :
  leading_weak_phrase e = Some entry ->
  In entry PHRASE_IMPROVEMENTS
  /\ starts_with (fst entry) (lower e) = true.
Proof. unfold leading_weak_phrase. apply find_some. Qed.

Lemma replace_leading_settles (e : text) :
  trimmed e ->
  trimmed (replace_leading e)
  /\ leading_weak_phrase (replace_leading e) = None.
Proof.
  intros He. unfold replace_leading.
  destruct (leading_weak_phrase e) as [[weak strong_options]|] eqn:L;
    [|split; assumption].
  apply leading_in_catalog in L. destruct L as [Hin _].
  destruct (capitalized_alternative _ Hin) as (C & tl & E & _ & E1 & E2 & N).
  cbn [snd] in E. rewrite E. split; [|apply N].
  apply trimmed_app; [discriminate|assumption|assumption|].
  intros Hn. apply edge_rev_skipn; [apply He|exact Hn].
Qed.

Lemma leading_by_lower (e u : text) :
  lower u = lower e -> leading_weak_phrase u = leading_weak_phrase e.
Proof. unfold leading_weak_phrase. intros ->. reflexivity. Qed.

Lemma no_phrase_begins_with_s (x : ascii) (rest : text) :
  eqc (lower_char x) "s"%char = true ->
  leading_weak_phrase (x :: rest) = None.
Proof.
  intros H. apply Ascii.eqb_eq in H.
  unfold leading_weak_phrase. cbn [lower map]. rewrite H.
  vm_compute. reflexivity.
Qed.

Lemma raise_first_settles (e u : text) :
  trimmed e -> leading_weak_phrase e = None -> raise_first e = Some u ->
  trimmed u /\ leading_weak_phrase u = None /\ raise_first u = Some u.
Proof.
  intros He Le R. destruct e as [|c e].
  - injection R as <-. repeat split.
  - cbn [raise_first] in R. destruct (is_upper c) eqn:U; cbn [negb] in R.
    + injection R as <-. repeat split; try apply He; try assumption.
      cbn [raise_first]. rewrite U. reflexivity.
    + pose proof (upper_ok_all c) as K. unfold upper_ok in K.
      destruct (str_upper c) as [[|x up']|]; try discriminate.
      injection R as <-.
      destruct He as [He1 He2]. cbn [edge_ok] in He1. rewrite He1 in K.
      cbn [implb] in K.
      apply andb_true_iff in K. destruct K as [K K3].
      apply andb_true_iff in K. destruct K as [K1 K2].
      apply andb_true_iff in K1. destruct K1 as [K1a K1b].
      change (x :: up' ++ e) with ((x :: up') ++ e).
      split; [|split].
      * apply (trimmed_app (x :: up') e);
          [discriminate|assumption|assumption|].
        intros Hn. apply (edge_rev_tail c); assumption.
      * apply orb_true_iff in K2. destruct K2 as [K2|K2].
        -- apply text_eqb_eq in K2.
           rewrite <- Le. apply leading_by_lower.
           rewrite lower_app, K2. reflexivity.
        -- apply no_phrase_begins_with_s. exact K2.
      * apply orb_true_iff in K3. destruct K3 as [K3|K3].
        -- apply raise_first_capital. exact K3.
        -- apply andb_true_iff in K3. destruct K3 as [K3 K3c].
           apply andb_true_iff in K3. destruct K3 as [K3a K3b].
           destruct up'; [|discriminate].
           cbn [app raise_first]. rewrite K3c.
           destruct (str_upper x) as [[|y [|? ?]]|]; try discriminate.
           apply Ascii.eqb_eq in K3b. subst y. reflexivity.
Qed.

End Enhance.

Module EnhancementFacts.

Import CVOptimizer.

(** X17.  When the text, stripped of the white space at its ends, begins
    with a weak phrase of the catalog, letter case apart,
    [enhance_achievements] puts the capitalized first alternative in its
    place and keeps the rest as it is. *)
Theorem leading_weak_phrase_gives_way (t m rest : text)
  (entry : text * text) :
  In entry PHRASE_IMPROVEMENTS ->
  strip t = m ++ rest ->
  lower m = fst entry ->
  enhance_achievements t
  = Some (capitalize (first_option (snd entry)) ++ rest).
Proof.
  intros Hin Ht Hm. rewrite enhance_in_two, Ht.
  rewrite (replace_leading_when_found m rest entry Hin Hm).
  destruct (capitalized_alternative _ Hin) as (C & tl & E & U & _).
  rewrite E. apply raise_first_capital. exact U.
Qed.

Lemma leading_weak_phrase_gives_way_witness :
  enhance_achievements (txt "  responsible FOR the budget ")
  = Some (txt "Managed the budget").
Proof.
  apply (leading_weak_phrase_gives_way
           (txt "  responsible FOR the budget ")
           (txt "responsible FOR") (txt " the budget")
           (txt "responsible for", txt "managed|led|oversaw|directed")).
  - left. reflexivity.
  - vm_compute. reflexivity.
  - vm_compute. reflexivity.
Defined.

(** X18.  [enhance_achievements] settles at once: the text that it
    returns is returned unchanged when it is enhanced again. *)
Theorem enhance_achievements_settles (t u : text) :
  enhance_achievements t = Some u ->
  enhance_achievements u = Some u.
Proof.
  rewrite !enhance_in_two. intros R.
  destruct (replace_leading_settles (strip t) (strip_trimmed t)) as [T1 L1].
  destruct (raise_first_settles _ _ T1 L1 R) as (T2 & L2 & R2).
  rewrite (strip_fixed u T2).
  unfold replace_leading. rewrite L2. exact R2.
Qed.

Lemma enhance_achievements_settles_witness :
  enhance_achievements (txt "Performed the yearly audits")
  = Some (txt "Performed the yearly audits").
Proof.
  apply (enhance_achievements_settles (txt " did the yearly audits")).
  vm_compute. reflexivity.
Defined.

End EnhancementFacts.

(* ================================================================= *)
(** ** The agent *)

Module Agent.

Import CVAgent.

(** The arguments of one call of [analyze_and_optimize]. *)
Record request : Type := mkRequest {
  cv_text : text;
  job_description : text;
  target_role : text;
  industry : text
}.

Definition call (q : request) (st : state) : Results * state :=
  analyze_and_optimize (cv_text q) (job_description q) (target_role q)
                       (industry q) st.

(** A series of calls on the same agent, with their results. *)
Fixpoint calls (qs : list request) (st : state) : list Results * state :=
  match qs with
  | [] => ([], st)
  | q :: qs' =>
      let '(r, st1) := call q st in
      let '(rs, st2) := calls qs' st1 in
      (r :: rs, st2)
  end.

Lemma call_result (q : request) (st : state) :
  fst (call q st) = fst (call q init)
  /\ session_history (snd (call q st))
     = session_history st ++ [fst (call q st)]
  /\ length (printed (snd (call q st))) = length (printed st) + 2.
Proof.
  unfold call, analyze_and_optimize. cbv zeta.
  destruct (job_description q) as [|c jd];
    [|destruct (CVOptimizer.optimize_for_job_description _ _)];
    cbn [fst snd session_history printed print];
    rewrite ?length_app; cbn [length]; repeat split; lia.
Qed.

(** X21.  The history of the agent is only ever added to, and never read:
    after a series of calls it is the history before them followed by
    the results that the calls returned, in their order, and each result
    is the one that a fresh agent would have returned. *)
Theorem session_history_records_the_calls (qs : list request) (st : state) :
  session_history (snd (calls qs st))
  = session_history st ++ fst (calls qs st)
  /\ fst (calls qs st) = map (fun q => fst (call q init)) qs
  /\ length (printed (snd (calls qs st)))
     = length (printed st) + 2 * length qs.
Proof.
  revert st. induction qs as [|q qs IH]; intros st.
  - cbn [calls fst snd map length]. rewrite app_nil_r. repeat split. lia.
  - cbn [calls].
    destruct (call_result q st) as (R1 & R2 & R3).
    destruct (call q st) as [r st1]. cbn [fst snd] in *.
    destruct (IH st1) as (H1 & H2 & H3).
    destruct (calls qs st1) as [rs st2]. cbn [fst snd map length] in *.
    rewrite H1, R2, <- app_assoc, H2, R1, H3, R3.
    repeat split. lia.
Qed.

(** X20.  What one call of [analyze_and_optimize] returns: the analysis
    is that of the text as given; the text goes through the rewrite once
    without a job description and twice with one, and the keywords of
    the job description are then looked for in the text already
    rewritten; either way the text returned holds no two spaces and no
    three line breaks in a row and the cleaning leaves it as it is; and
    without an industry no keyword is suggested, whatever the role. *)
Theorem analyze_and_optimize_result
  (cv jd role ind : text) (st : state) :
  let r := fst (analyze_and_optimize cv jd role ind st) in
  let once := CVOptimizer.optimize_cv_text cv role ind in
  analysis r = CVAnalyzer.analyze_cv cv jd
  /\ original_cv r = cv
  /\ optimized_cv r
     = match jd with
       | [] => once
       | _ :: _ => CVOptimizer.optimize_cv_text once [] []
       end
  /\ job_specific_suggestions r
     = match jd with
       | [] => []
       | _ :: _ => snd (CVOptimizer.optimize_for_job_description once jd)
       end
  /\ suggested_keywords r
     = match ind with
       | [] => []
       | _ :: _ => CVOptimizer.suggest_keywords ind role
       end
  /\ contains Cleaning.two_spaces (optimized_cv r) = false
  /\ contains Cleaning.three_newlines (optimized_cv r) = false
  /\ CVOptimizer._clean_formatting (optimized_cv r) = optimized_cv r.
Proof.
  cbv zeta.
  assert (E : optimized_cv (fst (analyze_and_optimize cv jd role ind st))
              = match jd with
                | [] => CVOptimizer.optimize_cv_text cv role ind
                | _ :: _ =>
                    CVOptimizer.optimize_cv_text
                      (CVOptimizer.optimize_cv_text cv role ind) [] []
                end).
  { unfold analyze_and_optimize. cbv zeta.
    destruct jd as [|c jd]; reflexivity. }
  assert (C : forall t role' ind',
             contains Cleaning.two_spaces
                      (CVOptimizer.optimize_cv_text t role' ind') = false
             /\ contains Cleaning.three_newlines
                         (CVOptimizer.optimize_cv_text t role' ind') = false).
  { intros t role' ind'. unfold CVOptimizer.optimize_cv_text.
    apply Cleaning.cleaned_has_no_runs. }
  assert (N : contains Cleaning.two_spaces
                (optimized_cv (fst (analyze_and_optimize cv jd role ind st)))
              = false
              /\ contains Cleaning.three_newlines
                   (optimized_cv
                      (fst (analyze_and_optimize cv jd role ind st)))
                 = false).
  { rewrite E. destruct jd; apply C. }
  repeat split; try (apply N).
  - unfold analyze_and_optimize. cbv zeta. destruct jd; reflexivity.
  - unfold analyze_and_optimize. cbv zeta. destruct jd; reflexivity.
  - exact E.
  - unfold analyze_and_optimize. cbv zeta. destruct jd; reflexivity.
  - unfold analyze_and_optimize. cbv zeta. destruct jd; reflexivity.
  - apply Cleaning.clean_fixed; apply N.
Qed.

End Agent.

(* ================================================================= *)
(** ** The scores in integers *)

Section Exact.

Local Open Scope Z_scope.

Lemma ilog2_le (a b k : Z) :
  0 < a -> 0 < b -> 0 <= k -> a < b * 2 ^ (k + 1) -> ilog2 a b <= k.
Proof.
  intros Ha Hb Hk Hab. unfold ilog2.
  pose proof (Z.log2_spec a Ha) as [La Ua].
  pose proof (Z.log2_spec b Hb) as [Lb Ub].
  pose proof (Z.log2_nonneg a) as Na.
  pose proof (Z.log2_nonneg b) as Nb.
  set (d := Z.log2 a - Z.log2 b) in *.
  destruct (0 <=? d) eqn:Hd.
  - apply Z.leb_le in Hd.
    destruct (b * 2 ^ d <=? a) eqn:Ht.
    + apply Z.leb_le in Ht.
      destruct (Z_le_gt_dec d k) as [|Hgt]; [assumption|exfalso].
      assert (2 ^ (k + 1) <= 2 ^ d) by (apply Z.pow_le_mono_r; lia).
      nia.
    + destruct (Z_le_gt_dec (d - 1) k) as [|Hgt]; [assumption|exfalso].
      assert (E : 2 ^ Z.log2 a = 2 ^ Z.succ (Z.log2 b) * 2 ^ (d - 1)).
      { rewrite <- Z.pow_add_r by lia. f_equal. unfold d. lia. }
      assert (2 ^ (k + 1) <= 2 ^ (d - 1)) by (apply Z.pow_le_mono_r; lia).
      assert (0 < 2 ^ (d - 1)) by (apply Z.pow_pos_nonneg; lia).
      nia.
  - apply Z.leb_gt in Hd.
    destruct (b <=? a * 2 ^ (- d)); lia.
Qed.

Lemma rne_div_exact (m d : Z) : 0 < d -> rne_div (m * d) d = m.
Proof.
  intros Hd. unfold rne_div.
  rewrite Z.div_mul, Z.mod_mul by lia.
  replace (2 * 0 <? d) with true; [reflexivity|].
  symmetry. apply Z.ltb_lt. lia.
Qed.

(** A quarter of a small integer is a float. *)
Lemma RNpos_quarter (n d m : Z) :
  0 < n -> 0 < d -> n * 4 = m * d -> m < 2 ^ 50 ->
  (RNpos n d == m # 4)%Q.
Proof.
  intros Hn Hd E Hm. unfold RNpos.
  assert (He : ulp_exp n d <= -2).
  { unfold ulp_exp, emin.
    assert (ilog2 n d <= 50); [|lia].
    apply ilog2_le; try lia.
    change (2 ^ (50 + 1)) with (2 * 2 ^ 50). nia. }
  assert (Hemin : -1074 <= ulp_exp n d) by (unfold ulp_exp, emin; lia).
  replace (0 <=? ulp_exp n d) with false by (symmetry; apply Z.leb_gt; lia).
  set (k := - ulp_exp n d) in *.
  assert (Hk : 2 ^ k = 4 * 2 ^ (k - 2)).
  { change 4 with (2 ^ 2). rewrite <- Z.pow_add_r by lia. f_equal. lia. }
  assert (Hp : 0 < 2 ^ (k - 2)) by (apply Z.pow_pos_nonneg; lia).
  replace (n * 2 ^ k) with ((m * 2 ^ (k - 2)) * d) by (rewrite Hk; lia).
  rewrite rne_div_exact by assumption.
  unfold Qeq. cbn [Qnum Qden]. rewrite Z2Pos.id by lia. lia.
Qed.

Lemma RN_quarter (q : Q) (m : Z) :
  0 <= m < 2 ^ 50 -> (q == m # 4)%Q -> RN q = Qred (m # 4).
Proof.
  intros Hm E. destruct q as [n d]. unfold Qeq in E. cbn [Qnum Qden] in E.
  unfold RN. cbn [Qnum Qden].
  destruct n as [|n|n].
  - assert (m = 0) by lia. subst m. reflexivity.
  - apply Qred_complete. apply RNpos_quarter; lia.
  - lia.
Qed.

Lemma int_of_quarter (x : Q) (m : Z) :
  0 <= m -> (x == m # 4)%Q -> int_of x = m / 4.
Proof.
  intros Hm E. destruct x as [n d]. unfold Qeq in E. cbn [Qnum Qden] in E.
  unfold int_of. cbn [Qnum Qden].
  assert (0 <= n) by lia.
  rewrite Z.quot_div_nonneg by lia.
  rewrite <- (Z.div_mul_cancel_r n (Z.pos d) 4) by lia.
  rewrite E. rewrite (Z.mul_comm (Z.pos d) 4).
  rewrite Z.div_mul_cancel_r by lia. reflexivity.
Qed.

End Exact.

Module ExactScores.

Import CVAnalyzer.

Local Open Scope Z_scope.

Lemma of_int_exact (z : Z) : 0 <= z < 2 ^ 48 -> of_int z = Qred (4 * z # 4).
Proof.
  intros H. unfold of_int. apply RN_quarter; [lia|].
  unfold Qeq, inject_Z. cbn [Qnum Qden]. lia.
Qed.

Lemma fmul_quarter (x y : Q) (m n p : Z) :
  (x == m # 4)%Q -> (y == n # 4)%Q -> m * n = 4 * p -> 0 <= p < 2 ^ 50 ->
  fmul x y = Qred (p # 4).
Proof.
  intros Ex Ey E Hp. unfold fmul. apply RN_quarter; [assumption|].
  rewrite Ex, Ey. unfold Qeq, Qmult. cbn [Qnum Qden]. lia.
Qed.

Lemma fadd_quarter (x y : Q) (m n : Z) :
  (x == m # 4)%Q -> (y == n # 4)%Q -> 0 <= m + n < 2 ^ 50 ->
  fadd x y = Qred (m + n # 4).
Proof.
  intros Ex Ey H. unfold fadd. apply RN_quarter; [assumption|].
  rewrite Ex, Ey. unfold Qeq, Qplus. cbn [Qnum Qden]. lia.
Qed.

(** X24.  The overall score in integers: for sub-scores between 0 and 100
    the three products and the two sums of floats are exact, and the
    score is the quotient of [2 * ats + verbs + numbers] by 4. *)
Theorem overall_score_in_integers
  (ats_score action_verb_score quantification_score : Z) :
  0 <= ats_score <= 100 -> 0 <= action_verb_score <= 100 ->
  0 <= quantification_score <= 100 ->
  _calculate_overall_score ats_score action_verb_score quantification_score
  = (2 * ats_score + action_verb_score + quantification_score) / 4.
Proof.
  intros Ha Hv Hq. unfold _calculate_overall_score.
  rewrite !of_int_exact by lia.
  rewrite (fmul_quarter _ (literal 5 10) (4 * ats_score) 2 (2 * ats_score));
    [|apply Qred_correct|reflexivity|lia|lia].
  rewrite (fmul_quarter _ (literal 25 100) (4 * action_verb_score) 1
                        action_verb_score);
    [|apply Qred_correct|reflexivity|lia|lia].
  rewrite (fmul_quarter _ (literal 25 100) (4 * quantification_score) 1
                        quantification_score);
    [|apply Qred_correct|reflexivity|lia|lia].
  rewrite (fadd_quarter (Qred (2 * ats_score # 4))
                        (Qred (action_verb_score # 4))
                        (2 * ats_score) action_verb_score);
    [|apply Qred_correct|apply Qred_correct|lia].
  rewrite (fadd_quarter _ _ (2 * ats_score + action_verb_score)
                        quantification_score);
    [|apply Qred_correct|apply Qred_correct|lia].
  apply int_of_quarter; [lia|apply Qred_correct].
Qed.

Lemma overall_score_in_integers_witness :
  _calculate_overall_score 73 40 75 = ((2 * 73 + 40 + 75) / 4)%Z.
Proof. apply overall_score_in_integers; lia. Defined.

End ExactScores.

Module ExactATS.

Import CVAnalyzer.

Local Open Scope Z_scope.

(** The ATS score on a section score [s] and a deduction [d] that are
    integers. *)
Definition ats_core (s d keyword_score : Z) : Z :=
  int_of (pymax (inject_Z 0)
                (fsub (fadd (fmul (inject_Z s) (literal 4 10))
                            (fmul (of_int keyword_score) (literal 4 10)))
                      (of_int d))).

Definition ats_in_integers (s d keyword_score : Z) : Z :=
  Z.max 0 (2 * s / 5 + 2 * keyword_score / 5 - d).

(** One entry of the table of the ATS scores: the float [score] before
    the deduction [fst dd], whose float is [snd dd]. *)
Definition ats_entry (score : Q) (s ks : Z) (dd : Z * Q) : bool :=
  int_of (pymax (inject_Z 0) (fsub score (snd dd)))
  =? ats_in_integers s (fst dd) ks.

(** The entries for one section score and one keyword score; [c] is the
    float of 0.4 and [x] the product of the section score by it. *)
Definition ats_row (c : Q) (deductions : list (Z * Q)) (x : Q) (s : Z)
  (ks : nat) : bool :=
  forallb (ats_entry (fadd x (fmul (of_int (Z.of_nat ks)) c)) s (Z.of_nat ks))
          deductions.

Definition ats_rows (c : Q) (deductions : list (Z * Q)) (s : Z) : bool :=
  forallb (ats_row c deductions (fmul (inject_Z s) c) s) (seq 0 101).

Definition with_float (d : Z) : Z * Q := (d, of_int d).

(** Every section score, keyword score and deduction, tried. *)
Lemma ats_table :
  forallb (ats_rows (literal 4 10) (map with_float [0; 10; 20; 30]))
          [0; 20; 40; 60; 80; 100] = true.
Proof. vm_cast_no_check (eq_refl true). Qed.

Lemma ats_entry_eq (s d ks : Z) :
  ats_entry (fadd (fmul (inject_Z s) (literal 4 10))
                  (fmul (of_int ks) (literal 4 10)))
            s ks (with_float d)
  = (ats_core s d ks =? ats_in_integers s d ks).
Proof. reflexivity. Qed.

Lemma ats_core_value (s d keyword_score : Z) :
  In s [0; 20; 40; 60; 80; 100] -> In d [0; 10; 20; 30] ->
  0 <= keyword_score <= 100 ->
  ats_core s d keyword_score = ats_in_integers s d keyword_score.
Proof.
  intros Hs Hd Hk. apply Z.eqb_eq. rewrite <- ats_entry_eq.
  pose proof ats_table as T.
  rewrite forallb_forall in T. specialize (T s Hs). unfold ats_rows in T.
  rewrite forallb_forall in T.
  specialize (T (Z.to_nat keyword_score) ltac:(apply in_seq; lia)).
  unfold ats_row in T. rewrite Z2Nat.id in T by lia.
  rewrite forallb_forall in T. apply T.
  apply in_map. exact Hd.
Qed.

Lemma ats_score_as_core (s : Z) (issues : list text) (keyword_score : Z) :
  _calculate_ats_score (inject_Z s) issues keyword_score
  = ats_core s (Z.min 30 (Z.of_nat (length issues) * 10)) keyword_score.
Proof. reflexivity. Qed.

(** X23.  The ATS score in integers: with [f] the number of catalog
    section names found, [k] the keyword score and [i] the number of
    formatting issues, it is [8 * min(5, f) + 2 * k / 5 - 10 * min(3, i)]
    with the quotient rounded down, or 0 when this is negative; the
    rounding of the floats never shows. *)
Theorem ats_score_in_integers (cv_text job_description : text) :
  ats_compatibility_score (analyze_cv cv_text job_description)
  = Z.max 0
      (8 * Z.min 5 (Z.of_nat (length (Sections.found_sections
                                         (lower cv_text))))
       + 2 * fst (_analyze_keywords cv_text job_description) / 5
       - 10 * Z.min 3 (Z.of_nat (length (_check_formatting cv_text)))).
Proof.
  unfold analyze_cv.
  pose proof (ScoreBounds.keyword_score_bounds cv_text job_description) as Hk.
  destruct (_analyze_keywords cv_text job_description) as [ks kws].
  cbn [fst] in *. cbv zeta. cbn [ats_compatibility_score].
  rewrite Sections.section_score_value, ats_score_as_core.
  set (f := length (Sections.found_sections (lower cv_text))).
  set (i := length (_check_formatting cv_text)).
  assert (Hf : (f <= 15)%nat)
    by apply (ScoreBounds.filter_length_le _ STANDARD_SECTIONS).
  rewrite ats_core_value; [| | |exact Hk].
  - unfold ats_in_integers. f_equal.
    replace (Z.min 30 (Z.of_nat i * 10)) with (10 * Z.min 3 (Z.of_nat i))
      by lia.
    f_equal. f_equal.
    clearbody f. clear -Hf.
    do 16 (destruct f as [|f]; [reflexivity|]). lia.
  - clearbody f. clear -Hf.
    do 16 (destruct f as [|f]; [cbn; tauto|]). lia.
  - assert (H : Z.min 30 (Z.of_nat i * 10) = 0
                \/ Z.min 30 (Z.of_nat i * 10) = 10
                \/ Z.min 30 (Z.of_nat i * 10) = 20
                \/ Z.min 30 (Z.of_nat i * 10) = 30) by lia.
    cbn [In]. lia.
Qed.

End ExactATS.

(* ================================================================= *)
(** ** Strengths against weaknesses *)

Module Consistency.

Import CVAnalyzer Advice.

Definition all_sections : text := txt "Contains all essential CV sections".
Definition good_length : text :=
  txt "Appropriate length - concise yet comprehensive".
Definition missing_work : text := txt "Missing work experience section".
Definition missing_education : text := txt "Missing education section".
Definition missing_skills : text := txt "Missing skills section".
Definition too_short : text :=
  txt "CV is too short - add more detail about achievements".
Definition too_long : text :=
  txt "CV is too long - focus on most relevant information".

Lemma in_or_default (l : list text) (d x : text) :
  In x (or_default l d) -> x = d \/ In x l.
Proof.
  destruct l; cbn [or_default]; [|tauto].
  intros [H|[]]. left. congruence.
Qed.

Lemma in_when_true (b : bool) (s x : text) :
  In x (when b s) -> b = true /\ x = s.
Proof. destruct b; cbn; [intros [H|[]]; split; congruence|intros []]. Qed.

(** An element of a [when] that is another sentence. *)
Ltac other_sentence H :=
  apply in_when_true in H; destruct H as [_ H];
  vm_compute in H; discriminate H.

(** The six parts of the list of weaknesses. *)
Ltac parts H :=
  apply in_or_default in H;
  destruct H as [H|H]; [vm_compute in H; discriminate H|];
  rewrite !in_app_iff in H;
  destruct H as [H|[H|[H|[H|[H|H]]]]].

Ltac length_part H cv_text :=
  destruct (length (split_ws cv_text) <? 200) eqn:E1;
  [|destruct (1000 <? length (split_ws cv_text)) eqn:E2];
  cbn [In] in H;
  repeat match type of H with
         | _ \/ _ => destruct H as [H|H]
         | False => destruct H
         end;
  try (vm_compute in H; discriminate H).

Lemma strength_guards (cv_text cv_lower : text) :
  (In all_sections (_identify_strengths cv_text cv_lower) ->
   contains (txt "experience") cv_lower = true
   /\ contains (txt "education") cv_lower = true
   /\ contains (txt "skills") cv_lower = true)
  /\ (In good_length (_identify_strengths cv_text cv_lower) ->
      300 < length (split_ws cv_text) < 800).
Proof.
  unfold _identify_strengths. cbv zeta. split; intros H;
    apply in_or_default in H;
    (destruct H as [H|H]; [vm_compute in H; discriminate H|]);
    rewrite !in_app_iff in H;
    destruct H as [H|[H|[H|H]]]; try (other_sentence H);
    apply in_when_true in H; destruct H as [H _].
  - cbn [forallb] in H. rewrite !andb_true_iff in H. tauto.
  - rewrite andb_true_iff, !Nat.ltb_lt in H. lia.
Qed.

Lemma concern_is_no_sentence (issues : list text) (x : text) :
  hd_error x = Some "M"%char \/ hd_error x = Some "C"%char ->
  In x match issues with
       | [] => []
       | _ :: _ =>
           [txt "ATS formatting concerns: " ++ str_of_nat (length issues)
            ++ txt " issues detected"]
       end -> False.
Proof.
  intros Hx H. destruct issues; [exact H|].
  destruct H as [H|[]]. subst x. cbn in Hx.
  destruct Hx; discriminate.
Qed.

Lemma weakness_guards (cv_text cv_lower : text) (issues : list text) :
  (In missing_work (_identify_weaknesses cv_text cv_lower issues) ->
   contains (txt "experience") cv_lower = false)
  /\ (In missing_education (_identify_weaknesses cv_text cv_lower issues) ->
      contains (txt "education") cv_lower = false)
  /\ (In missing_skills (_identify_weaknesses cv_text cv_lower issues) ->
      contains (txt "skills") cv_lower = false)
  /\ (In too_short (_identify_weaknesses cv_text cv_lower issues) ->
      length (split_ws cv_text) < 200)
  /\ (In too_long (_identify_weaknesses cv_text cv_lower issues) ->
      1000 < length (split_ws cv_text)).
Proof.
  unfold _identify_weaknesses. cbv zeta.
  split; [|split; [|split; [|split]]]; intros H; parts H.
  - apply in_when_true in H. destruct H as [H _].
    rewrite andb_true_iff, !negb_true_iff in H. tauto.
  - other_sentence H.
  - other_sentence H.
  - other_sentence H.
  - length_part H cv_text.
  - exfalso. eapply concern_is_no_sentence; [|exact H]. vm_compute. auto.
  - other_sentence H.
  - apply in_when_true in H. destruct H as [H _].
    rewrite negb_true_iff in H. exact H.
  - other_sentence H.
  - other_sentence H.
  - length_part H cv_text.
  - exfalso. eapply concern_is_no_sentence; [|exact H]. vm_compute. auto.
  - other_sentence H.
  - other_sentence H.
  - apply in_when_true in H. destruct H as [H _].
    rewrite negb_true_iff in H. exact H.
  - other_sentence H.
  - length_part H cv_text.
  - exfalso. eapply concern_is_no_sentence; [|exact H]. vm_compute. auto.
  - other_sentence H.
  - other_sentence H.
  - other_sentence H.
  - other_sentence H.
  - length_part H cv_text. apply Nat.ltb_lt. exact E1.
  - exfalso. eapply concern_is_no_sentence; [|exact H]. vm_compute. auto.
  - other_sentence H.
  - other_sentence H.
  - other_sentence H.
  - other_sentence H.
  - length_part H cv_text. apply Nat.ltb_lt. exact E2.
  - exfalso. eapply concern_is_no_sentence; [|exact H]. vm_compute. auto.
Qed.

(** X25.  Strengths and weaknesses of one analysis never contradict each
    other: with the strength that all essential sections are there, no
    section is reported missing and the sections advice is not given;
    with the strength of an appropriate length, the CV is reported
    neither too short nor too long. *)
Theorem strengths_and_weaknesses_agree (cv_text job_description : text) :
  let r := analyze_cv cv_text job_description in
  (In all_sections (strengths r) ->
   ~ In missing_work (weaknesses r)
   /\ ~ In missing_education (weaknesses r)
   /\ ~ In missing_skills (weaknesses r)
   /\ ~ In sections_advice (recommendations r))
  /\ (In good_length (strengths r) ->
      ~ In too_short (weaknesses r) /\ ~ In too_long (weaknesses r)).
Proof.
  cbv zeta. rewrite recommendations_shape. unfold analyze_cv.
  destruct (_analyze_keywords cv_text job_description) as [ks kws].
  cbv zeta. cbn [strengths weaknesses fst].
  destruct (strength_guards cv_text (lower cv_text)) as [S1 S2].
  destruct (weakness_guards cv_text (lower cv_text)
                            (_check_formatting cv_text))
    as (W1 & W2 & W3 & W4 & W5).
  split.
  - intros H. apply S1 in H. destruct H as (He & Hd & Hs).
    repeat split; intros K.
    + apply W1 in K. congruence.
    + apply W2 in K. congruence.
    + apply W3 in K. congruence.
    + unfold lacks_a_section in K. rewrite He, Hd, Hs in K.
      cbn [negb andb orb when app] in K.
      rewrite !in_app_iff in K.
      destruct K as [K|[K|[K|K]]]; try (other_sentence K).
      vm_compute in K. destruct K as [K|[K|[]]]; discriminate K.
  - intros H. apply S2 in H. split; intros K.
    + apply W4 in K. lia.
    + apply W5 in K. lia.
Qed.

Lemma strengths_and_weaknesses_agree_witness :
  ~ In missing_skills
       (weaknesses (analyze_cv (txt "Experience. Education. Skills.") [])).
Proof.
  apply (proj1 (strengths_and_weaknesses_agree
                  (txt "Experience. Education. Skills.") [])).
  vm_compute. tauto.
Defined.

End Consistency.

(* ================================================================= *)
(** ** Texts that the rewrite leaves alone *)

Module Untouched.

Import CVOptimizer.

(** The first words of the headers that [_standardize_sections] looks
    for. *)
Definition heading_first_words : list text :=
  [ txt "employment"; txt "job"; txt "professional"; txt "educational";
    txt "academic"; txt "core"; txt "technical"; txt "career";
    txt "about" ].

Lemma match_at_two_words_none (w1 w2 : text) (p : option ascii) (s : text) :
  prefix_ci w1 s = false -> match_at (two_words w1 w2) p s = None.
Proof.
  intros H. unfold match_at, two_words. cbn [seqs].
  change (ends (Seq WordB ?r) p s)
    with (flat_map
            (fun q => map (advance (taken q)) (ends r (last_char q) (rest q)))
            (ends WordB p s)).
  change (ends WordB p s)
    with (if at_boundary p s then [mk_end 0 p s] else []).
  destruct (at_boundary p s); [|reflexivity].
  cbn [flat_map taken last_char rest]. rewrite app_nil_r.
  change (ends (Seq (lit_ci w1) ?r) p s)
    with (flat_map
            (fun q => map (advance (taken q)) (ends r (last_char q) (rest q)))
            (ends (lit_ci w1) p s)).
  rewrite ends_lit_ci, H. reflexivity.
Qed.

Lemma search_two_words_none (w1 w2 : text) : forall s p,
  occurs_ci w1 s = false -> search_from (two_words w1 w2) p s = false.
Proof.
  induction s as [|c s IH]; intros p H; cbn [occurs_ci] in H;
    apply orb_false_iff in H; destruct H as [H1 H2];
    cbn [search_from]; rewrite match_at_two_words_none by assumption.
  - reflexivity.
  - apply IH. exact H2.
Qed.

(** Where the pattern is not found the substitution changes nothing. *)
Lemma sub_from_no_match (r : regex) (repl : text) : forall s p,
  search_from r p s = false -> sub_from r repl 0 p s = s.
Proof.
  induction s as [|c s IH]; intros p H; cbn [search_from] in H;
    cbn [sub_from]; destruct (match_at r p _); try discriminate.
  - reflexivity.
  - rewrite IH by assumption. reflexivity.
Qed.

Lemma section_mappings_words (m : regex * text) :
  In m section_mappings ->
  exists w1 w2, In w1 heading_first_words /\ fst m = two_words w1 w2.
Proof.
  unfold section_mappings. cbn [In]. intros H.
  repeat (destruct H as [<-|H];
          [eexists; eexists; split; [|reflexivity]; cbn; tauto|]).
  contradiction.
Qed.

Lemma standardize_fixed (t : text) :
  forallb (fun w => negb (occurs_ci w t)) heading_first_words = true ->
  _standardize_sections t = t.
Proof.
  intros H. rewrite forallb_forall in H. unfold _standardize_sections.
  assert (K : forall m, In m section_mappings -> sub (fst m) (snd m) t = t).
  { intros m Hm. destruct (section_mappings_words m Hm) as (w1 & w2 & Hw & E).
    rewrite E. unfold sub. apply sub_from_no_match.
    apply search_two_words_none. apply negb_true_iff. apply H. exact Hw. }
  induction section_mappings as [|m l IH]; [reflexivity|].
  cbn [fold_left]. rewrite K by (left; reflexivity).
  apply IH. intros m' Hm'. apply K. right. exact Hm'.
Qed.

(** X27.  The rewrite leaves a text alone when no weak phrase of the
    catalog and no first word of a header variant occurs in it as a
    substring, letter case apart, and it holds neither two spaces nor
    three line breaks in a row. *)
Theorem rewrite_leaves_plain_text_alone (t target_role industry : text) :
  forallb (fun entry => negb (occurs_ci (fst entry) t)) PHRASE_IMPROVEMENTS
  = true ->
  forallb (fun w => negb (occurs_ci w t)) heading_first_words = true ->
  contains Cleaning.two_spaces t = false ->
  contains Cleaning.three_newlines t = false ->
  optimize_cv_text t target_role industry = t.
Proof.
  intros Hw Hh H2 H3. unfold optimize_cv_text.
  rewrite WeakPhrases.improve_fixed_when_absent.
  - rewrite standardize_fixed by assumption.
    apply Cleaning.clean_fixed; assumption.
  - intros entry Hin. rewrite forallb_forall in Hw.
    apply negb_true_iff. apply Hw. exact Hin.
Qed.

Lemma rewrite_leaves_plain_text_alone_witness :
  optimize_cv_text (txt "Led a team of 5 engineers; cut costs by 20%.")
                   (txt "Manager") (txt "software")
  = txt "Led a team of 5 engineers; cut costs by 20%.".
Proof.
  apply rewrite_leaves_plain_text_alone; vm_compute; reflexivity.
Defined.

End Untouched.

(* ================================================================= *)
(** ** Documents without an action verb *)

Module NoVerb.

Import CVAnalyzer.

Lemma count_from_absent (w : text) : forall s,
  contains w s = false -> count_from w 0 s = 0.
Proof.
  induction s as [|c s IH]; intros H; [reflexivity|].
  cbn [contains] in H. apply orb_false_iff in H. destruct H as [H1 H2].
  cbn [count_from]. rewrite H1. apply IH. exact H2.
Qed.

Lemma sum_nat_zero (l : list nat) :
  (forall n, In n l -> n = 0) -> sum_nat l = 0.
Proof.
  induction l as [|x l IH]; intros H; [reflexivity|].
  cbn [sum_nat fold_right]. rewrite (H x) by (left; reflexivity).
  apply IH. intros n Hn. apply H. right. exact Hn.
Qed.

(** X26.  A document in which no action verb of the catalog occurs as a
    substring has the action-verb score 0, and so has a document without
    a word. *)
Theorem no_action_verb_scores_zero (cv_lower : text) :
  forallb (fun verb => negb (contains verb cv_lower)) ACTION_VERBS = true
  \/ split_ws cv_lower = [] ->
  _analyze_action_verbs cv_lower = 0%Z.
Proof.
  intros [H|H]; unfold _analyze_action_verbs; cbv zeta.
  - destruct (0 <? length (split_ws cv_lower)); [|reflexivity].
    assert (E : action_verb_count cv_lower = 0).
    { unfold action_verb_count. apply sum_nat_zero. intros n Hn.
      apply in_map_iff in Hn. destruct Hn as (verb & <- & Hv).
      rewrite forallb_forall in H. apply count_from_absent.
      apply negb_true_iff. apply H. exact Hv. }
    rewrite E. change (Z.of_nat 0) with 0%Z.
    replace (int_truediv 0 (Z.of_nat (length (split_ws cv_lower))))
      with 0%Q.
    + vm_compute. reflexivity.
    + unfold int_truediv, Qdiv, Qmult, RN. cbn [inject_Z Qnum Z.mul].
      reflexivity.
  - rewrite H. reflexivity.
Qed.

Lemma no_action_verb_scores_zero_witness :
  _analyze_action_verbs (txt "i was in charge of the budget") = 0%Z.
Proof.
  apply no_action_verb_scores_zero. left. vm_compute. reflexivity.
Defined.

End NoVerb.
